(** * Quillsidian: the candidate scoring engine, the candidate selector and
      the speaker attribution of [quill_server.py], embedded in Rocq.

    Conventions of the embedding.
    - A Python [str] is a list of Unicode code points ([str := list N]).
      Character classes and case mappings follow Python on U+0000..U+00FF; a
      code point above U+00FF is treated as a caseless character that is
      neither a digit nor a word character, and is white space exactly when
      [str.isspace] says so.
    - A Python [float] is an exact rational ([Q]); every float literal of the
      source is the rational it denotes ([0.70] is [7/10]).
    - A Python [int] is a [Z]; [Optional[T]] is [option T].
    - A raised exception is a value of [result] ([Raise e]).
    - What the source takes from the Python runtime and is not code of the
      repository (difflib's ratio, [json.loads], [repr] of a container) is a
      field of the record [runtime]; the values of [config.py] are the record
      [QuillConfig]. *)

From Stdlib Require Import String Ascii DecimalString.
From Stdlib Require Import ZArith NArith QArith Qround List Bool Lia Sorted.
Import ListNotations.

Set Implicit Arguments.

(* ------------------------------------------------------------------ *)
(** ** Strings *)

Definition str := list N.

Fixpoint lit (s : string) : str :=
  match s with
  | EmptyString => []
  | String c r => N_of_ascii c :: lit r
  end.

Definition chr (s : string) : N :=
  match s with
  | String c _ => N_of_ascii c
  | EmptyString => 0%N
  end.

Definition in_range (lo hi c : N) : bool := (N.leb lo c && N.leb c hi)%bool.

Definition is_upper_az (c : N) : bool := in_range 65 90 c.
Definition is_lower_az (c : N) : bool := in_range 97 122 c.
Definition is_digit (c : N) : bool := in_range 48 57 c.
Definition is_alpha_az (c : N) : bool := is_upper_az c || is_lower_az c.

(** [str.isspace] on one character, which is also the class [\s] of [re] on
    a [str] pattern. *)
Definition is_space (c : N) : bool :=
  in_range 9 13 c || in_range 28 32 c || N.eqb c 133 || N.eqb c 160
  || N.eqb c 5760 || in_range 8192 8202 c || N.eqb c 8232 || N.eqb c 8233
  || N.eqb c 8239 || N.eqb c 8287 || N.eqb c 12288.

(** Upper-case letters of the Latin-1 block besides A-Z: U+00C0..U+00DE
    without the multiplication sign U+00D7. *)
Definition is_upper_latin1 (c : N) : bool :=
  in_range 192 222 c && negb (N.eqb c 215).
Definition is_lower_latin1 (c : N) : bool :=
  in_range 224 254 c && negb (N.eqb c 247).

Definition lower_char (c : N) : N :=
  if is_upper_az c || is_upper_latin1 c then (c + 32)%N else c.
(** The title-case form of one character: sharp s becomes "Ss", the micro
    sign and y with diaeresis leave the Latin-1 block. *)
Definition title_char (c : N) : str :=
  if is_lower_az c || is_lower_latin1 c then [(c - 32)%N]
  else if N.eqb c 223 then [83; 115]%N
  else if N.eqb c 181 then [924%N]
  else if N.eqb c 255 then [376%N]
  else [c].

(** [\w] of [re] on a [str] pattern: alphanumeric or underscore. *)
Definition is_word (c : N) : bool :=
  is_digit c || is_alpha_az c || N.eqb c 95
  || N.eqb c 170 || N.eqb c 178 || N.eqb c 179 || N.eqb c 181 || N.eqb c 185
  || N.eqb c 186 || in_range 188 190 c
  || (in_range 192 255 c && negb (N.eqb c 215) && negb (N.eqb c 247)).

Definition is_cased (c : N) : bool :=
  is_alpha_az c || is_upper_latin1 c || is_lower_latin1 c
  || N.eqb c 170 || N.eqb c 181 || N.eqb c 186 || N.eqb c 223 || N.eqb c 255.

(** [s.lower()] *)
Definition lower (s : str) : str := map lower_char s.

Fixpoint title_from (prev_cased : bool) (s : str) : str :=
  match s with
  | [] => []
  | c :: r =>
      (if prev_cased then [lower_char c] else title_char c)
        ++ title_from (is_cased c) r
  end.

(** [s.title()] *)
Definition str_title (s : str) : str := title_from false s.

Fixpoint str_eqb (a b : str) : bool :=
  match a, b with
  | [], [] => true
  | x :: a', y :: b' => N.eqb x y && str_eqb a' b'
  | _, _ => false
  end.

Definition is_empty (s : str) : bool :=
  match s with [] => true | _ => false end.

Fixpoint lstrip (s : str) : str :=
  match s with
  | c :: r => if is_space c then lstrip r else s
  | [] => []
  end.

Definition rstrip (s : str) : str := rev (lstrip (rev s)).

(** [s.strip()] *)
Definition strip (s : str) : str := rstrip (lstrip s).

(** [s.startswith(p)] *)
Fixpoint startswith (p s : str) : bool :=
  match p, s with
  | [], _ => true
  | x :: p', y :: s' => N.eqb x y && startswith p' s'
  | _ :: _, [] => false
  end.

(** [p in s] on strings. *)
Fixpoint contains (p s : str) : bool :=
  startswith p s ||
  match s with
  | [] => false
  | _ :: r => contains p r
  end.

(** [x in l] on a list or set of strings. *)
Definition mem (x : str) (l : list str) : bool := existsb (str_eqb x) l.

(** A Python set of strings, kept without repetition in insertion order. *)
Fixpoint set_of (l : list str) : list str :=
  match l with
  | [] => []
  | x :: r => let s := set_of r in if mem x s then s else x :: s
  end.

Definition subset (a b : list str) : bool := forallb (fun x => mem x b) a.
Definition set_eqb (a b : list str) : bool := subset a b && subset b a.
Definition inter (a b : list str) : list str := filter (fun x => mem x b) a.
Definition diff (a b : list str) : list str := filter (fun x => negb (mem x b)) a.

(** [sep.join(l)] *)
Fixpoint join (sep : str) (l : list str) : str :=
  match l with
  | [] => []
  | [x] => x
  | x :: r => x ++ sep ++ join sep r
  end.

(** [s.replace(old, new)] for a one-character [old]. *)
Definition replace_char (old : N) (new : str) (s : str) : str :=
  flat_map (fun c => if N.eqb c old then new else [c]) s.

(** [s.split(":", 1)]: the text before the first [sep] and, when there is
    one, the text after it. *)
Fixpoint split_once (sep : N) (s : str) : str * option str :=
  match s with
  | [] => ([], None)
  | c :: r =>
      if N.eqb c sep then ([], Some r)
      else let (a, b) := split_once sep r in (c :: a, b)
  end.

(* ------------------------------------------------------------------ *)
(** ** The regular expressions of the source, as scanners *)

(** [re.sub(r"\s+", " ", s)] *)
Fixpoint collapse_from (in_run : bool) (s : str) : str :=
  match s with
  | [] => []
  | c :: r =>
      if is_space c
      then (if in_run then collapse_from true r else 32%N :: collapse_from true r)
      else c :: collapse_from false r
  end.

Definition collapse_ws (s : str) : str := collapse_from false s.

(** [TITLE_CLEAN_RE.sub(" ", s)] with [TITLE_CLEAN_RE = [^a-z0-9\s]+]. *)
Definition title_keep (c : N) : bool := is_lower_az c || is_digit c || is_space c.

Fixpoint title_clean_from (in_run : bool) (s : str) : str :=
  match s with
  | [] => []
  | c :: r =>
      if title_keep c
      then c :: title_clean_from false r
      else (if in_run then title_clean_from true r
            else 32%N :: title_clean_from true r)
  end.

Definition title_clean (s : str) : str := title_clean_from false s.

(** [re.sub(r"\([^)]*\)", "", s)]: a parenthesis opens a match exactly when
    a closing one follows, and the match ends at the first closing one. *)
Fixpoint drop_parens_from (skipping : bool) (s : str) : str :=
  match s with
  | [] => []
  | c :: r =>
      if skipping
      then drop_parens_from (negb (N.eqb c 41)) r
      else if N.eqb c 40 && existsb (N.eqb 41) r
           then drop_parens_from true r
           else c :: drop_parens_from false r
  end.

Definition drop_parens (s : str) : str := drop_parens_from false s.

(** [re.sub(r"[^a-z'\s]", " ", s)] *)
Definition person_keep (c : N) : bool := is_lower_az c || N.eqb c 39 || is_space c.
Definition person_clean (s : str) : str :=
  map (fun c => if person_keep c then c else 32%N) s.

(** [NAME_TOKEN_RE.findall(s)] with [NAME_TOKEN_RE = [A-Za-z']+]. *)
Definition name_char (c : N) : bool := is_alpha_az c || N.eqb c 39.

Fixpoint name_tokens_from (cur : str) (s : str) : list str :=
  match s with
  | [] => match cur with [] => [] | _ => [rev cur] end
  | c :: r =>
      if name_char c then name_tokens_from (c :: cur) r
      else match cur with
           | [] => name_tokens_from [] r
           | _ => rev cur :: name_tokens_from [] r
           end
  end.

Definition name_tokens (s : str) : list str := name_tokens_from [] s.

(** The alternation [[,&]| and ] of [split_participants_string], matched
    without regard to case: [re.split] cuts at every match, left to right. *)
Definition is_and_sep (s : str) : bool :=
  str_eqb (lower (firstn 5 s)) (lit " and ").

Fixpoint split_names_from (skip : nat) (cur : str) (s : str) : list str :=
  match s with
  | [] => [rev cur]
  | c :: r =>
      match skip with
      | S k => split_names_from k cur r
      | O =>
          if N.eqb c 44 || N.eqb c 38 then rev cur :: split_names_from 0 [] r
          else if is_and_sep s then rev cur :: split_names_from 4 [] r
          else split_names_from 0 (c :: cur) r
      end
  end.

Definition split_names (s : str) : list str := split_names_from 0 [] s.

(* ------------------------------------------------------------------ *)
(** ** Numbers *)

Definition Qltb (a b : Q) : bool := negb (Qle_bool b a).

(** [max(a, b)] and [min(a, b)] of Python on two floats: the first argument
    wins a tie. *)
Definition pymax (a b : Q) : Q := if Qltb a b then b else a.
Definition pymin (a b : Q) : Q := if Qltb b a then b else a.

Definition Qabs' (q : Q) : Q := if Qltb q 0 then - q else q.

Definition of_nat (n : nat) : Q := inject_Z (Z.of_nat n).

(** [round(x, 3)]: to the nearest multiple of 1/1000, a tie to the even one. *)
Definition round_half_even (q : Q) : Z :=
  let f := Qfloor q in
  let d := q - inject_Z f in
  if Qltb d (1 # 2) then f
  else if Qltb (1 # 2) d then (f + 1)%Z
  else if Z.even f then f else (f + 1)%Z.

Definition round3 (q : Q) : Q := inject_Z (round_half_even (q * 1000)) / 1000.

(* ------------------------------------------------------------------ *)
(** ** Values, the runtime and the configuration *)

(** A value decoded from JSON. *)
#[local] Unset Elimination Schemes.
Inductive pyval : Type :=
| PNone
| PBool (b : bool)
| PInt (z : Z)
| PFloat (q : Q)
| PStr (s : str)
| PList (l : list pyval)
| PDict (kv : list (str * pyval)).
#[local] Set Elimination Schemes.

(** Truth value of [v] in a condition. *)
Definition truthy (v : pyval) : bool :=
  match v with
  | PNone => false
  | PBool b => b
  | PInt z => negb (Z.eqb z 0)
  | PFloat q => negb (Qeq_bool q 0)
  | PStr s => negb (is_empty s)
  | PList l => match l with [] => false | _ => true end
  | PDict kv => match kv with [] => false | _ => true end
  end.

(** [d.get(k)] on the items of a dict. *)
Fixpoint dict_get (k : str) (kv : list (str * pyval)) : option pyval :=
  match kv with
  | [] => None
  | (k', v) :: r => if str_eqb k k' then Some v else dict_get k r
  end.

(** What the source takes from the Python runtime. *)
Record runtime : Type := {
  (** [difflib.SequenceMatcher(None, a, b).ratio()] *)
  ratio : str -> str -> Q;
  (** [json.loads(s)], [None] when it raises *)
  json_loads : str -> option pyval;
  (** [str(v)] of a float, a list or a dict *)
  repr : pyval -> str
}.

(** The fields of [QuillConfig] that the engine reads. *)
Record QuillConfig : Type := {
  canonical_name : str;
  aliases : list str;
  window_hours : Z
}.

(** Exceptions the modelled code can raise. *)
Inductive exn : Type :=
| ValueError
| TypeError
| OverflowError
| AttributeError
| OperationalError.

Inductive result (A : Type) : Type :=
| Ok (a : A)
| Raise (e : exn).

Arguments Ok {A} a.
Arguments Raise {A} e.

Definition bind {A B : Type} (m : result A) (k : A -> result B) : result B :=
  match m with
  | Ok a => k a
  | Raise e => Raise e
  end.

Notation "x <- m ;; k" := (bind m (fun x => k))
  (at level 61, m at next level, right associativity).

(** The loop [for x in l: acc = step(acc, x)] where the step may raise. *)
Fixpoint fold_result {A S : Type} (step : S -> A -> result S) (l : list A) (acc : S)
  : result S :=
  match l with
  | [] => Ok acc
  | x :: r => acc' <- step acc x ;; fold_result step r acc'
  end.

(** [str(z)] *)
Definition str_of_Z (z : Z) : str := lit (NilZero.string_of_int (Z.to_int z)).

Section Text.

Variable rt : runtime.
Variable cfg : QuillConfig.

(** [str(v)] *)
Definition py_str (v : pyval) : str :=
  match v with
  | PNone => lit "None"
  | PBool true => lit "True"
  | PBool false => lit "False"
  | PInt z => str_of_Z z
  | PStr s => s
  | _ => repr rt v
  end.

(* ---------------------------------------------------------------- *)
(** ** Title similarity *)

Definition normalize_title (s : str) : str :=
  strip (collapse_ws (title_clean (lower (strip s)))).

Inductive meeting_kind : Type := OneOnOne | Sync | Standup | Retro.

Definition meeting_kind_eqb (a b : meeting_kind) : bool :=
  match a, b with
  | OneOnOne, OneOnOne | Sync, Sync | Standup, Standup | Retro, Retro => true
  | _, _ => false
  end.

Record components : Type := {
  meeting_type : option meeting_kind;
  participants : list str;
  topic : option str
}.

Definition common_names : list str :=
  map lit ["alex"; "alx"; "john"; "jane"; "mike"; "sarah"; "emily"; "david";
           "james"; "mary"; "robert"; "lisa"; "william"; "jennifer"; "michael"]%string.

Definition extract_title_components (title : str) : components :=
  let title_lower := lower title in
  {| meeting_type :=
       if contains (lit "1:1") title_lower || contains (lit "1 on 1") title_lower
          || contains (lit "1 1") title_lower || startswith (lit "1 1") title_lower
       then Some OneOnOne
       else if contains (lit "sync") title_lower then Some Sync
       else if contains (lit "standup") title_lower then Some Standup
       else if contains (lit "retro") title_lower then Some Retro
       else None;
     participants := filter (fun name => contains name title_lower) common_names;
     topic :=
       match snd (split_once 58 title) with
       | Some rest =>
           let topic_part := strip rest in
           if is_empty topic_part then None else Some (lower topic_part)
       | None => None
       end |}.

Definition calculate_component_similarity (comp_a comp_b : components) : Q :=
  let '(score, total_weight) :=
    match meeting_type comp_a, meeting_type comp_b with
    | Some ka, Some kb =>
        ((if meeting_kind_eqb ka kb then 0 + (4 # 10) else 0), 0 + (4 # 10))
    | _, _ => (0, 0)
    end in
  let '(score, total_weight) :=
    match participants comp_a, participants comp_b with
    | _ :: _, _ :: _ =>
        let participants_a := set_of (participants comp_a) in
        let participants_b := set_of (participants comp_b) in
        let overlap := length (inter participants_a participants_b) in
        let union := length (participants_a ++ diff participants_b participants_a) in
        let participant_similarity :=
          if Nat.ltb 0 union then of_nat overlap / of_nat union else 0 in
        (score + (4 # 10) * participant_similarity, total_weight + (4 # 10))
    | _, _ => (score, total_weight)
    end in
  let '(score, total_weight) :=
    match topic comp_a, topic comp_b with
    | Some ta, Some tb =>
        (score + (2 # 10) * ratio rt ta tb, total_weight + (2 # 10))
    | _, _ => (score, total_weight)
    end in
  if Qltb 0 total_weight then score / total_weight else 0.

Definition enhanced_title_matching (title_a title_b : str) : Q :=
  let components_a := extract_title_components title_a in
  let components_b := extract_title_components title_b in
  let component_score := calculate_component_similarity components_a components_b in
  match meeting_type components_a, meeting_type components_b with
  | Some OneOnOne, Some OneOnOne =>
      match participants components_a, participants components_b with
      | _ :: _, _ :: _ =>
          let participant_overlap :=
            length (inter (set_of (participants components_a))
                          (set_of (participants components_b))) in
          if Nat.ltb 0 participant_overlap
          then pymin 1 (component_score + (3 # 10))
          else component_score
      | _, _ => component_score
      end
  | _, _ => component_score
  end.

Definition title_similarity (a b : str) : Q :=
  let na := normalize_title a in
  let nb := normalize_title b in
  if is_empty na || is_empty nb then 0
  else
    let basic_similarity := ratio rt na nb in
    let enhanced_score := enhanced_title_matching na nb in
    pymax basic_similarity enhanced_score.

(* ---------------------------------------------------------------- *)
(** ** Participants *)

Definition normalize_person_token (s : str) : str :=
  strip (collapse_ws (person_clean (drop_parens (lower (strip s))))).

Definition tokenize_name (s : str) : list str := name_tokens (lower s).

Definition alias_set : list str := set_of (map lower (aliases cfg)).

Fixpoint expand_aliases (names : list str) : list str :=
  match names with
  | [] => []
  | n :: r =>
      let nl := lower (strip n) in
      if is_empty nl then expand_aliases r
      else if mem nl alias_set then canonical_name cfg :: expand_aliases r
      else n :: expand_aliases r
  end.

Definition nonempty (s : str) : bool := negb (is_empty s).

Definition split_participants_string (db_value : option str) : list str :=
  match db_value with
  | None => []
  | Some [] => []
  | Some v =>
      let parts := split_names v in
      let parts := map normalize_person_token (filter (fun p => nonempty p && nonempty (strip p)) parts) in
      let parts := expand_aliases parts in
      let parts := map str_title (filter nonempty parts) in
      filter nonempty parts
  end.

Definition fuzzy_name_match (want have : str) : bool :=
  let wt := set_of (tokenize_name (normalize_person_token want)) in
  let ht := set_of (tokenize_name (normalize_person_token have)) in
  match wt, ht with
  | [], _ | _, [] => false
  | _, _ =>
      let wt := if existsb (fun t => mem t alias_set) wt
                then set_of (wt ++ tokenize_name (canonical_name cfg))
                else wt in
      Nat.leb 1 (length (inter wt ht))
  end.

Definition participant_overlap_fuzzy (desired db_parts : list str) : Q :=
  match desired with
  | [] => 0
  | _ =>
      let desired_norm := expand_aliases desired in
      let hits :=
        length (filter (fun w => existsb (fun h => fuzzy_name_match w h) db_parts)
                       desired_norm) in
      of_nat hits / of_nat (Nat.max (length desired_norm) 1)
  end.

End Text.

(* ------------------------------------------------------------------ *)
(** ** Calendar: what the source takes from [datetime] *)

Open Scope Z_scope.

(** Days from 1970-01-01 to the civil date [y]-[m]-[d] (proleptic Gregorian). *)
Definition days_from_civil (y m d : Z) : Z :=
  let y' := if m <=? 2 then y - 1 else y in
  let era := y' / 400 in
  let yoe := y' - era * 400 in
  let doy := (153 * (if 2 <? m then m - 3 else m + 9) + 2) / 5 + d - 1 in
  let doe := yoe * 365 + yoe / 4 - yoe / 100 + doy in
  era * 146097 + doe - 719468.

(** The civil date of the day [z] days after 1970-01-01. *)
Definition civil_from_days (z : Z) : Z * Z * Z :=
  let z' := z + 719468 in
  let era := z' / 146097 in
  let doe := z' - era * 146097 in
  let yoe := (doe - doe / 1460 + doe / 36524 - doe / 146096) / 365 in
  let doy := doe - (365 * yoe + yoe / 4 - yoe / 100) in
  let mp := (5 * doy + 2) / 153 in
  let d := doy - (153 * mp + 2) / 5 + 1 in
  let m := if mp <? 10 then mp + 3 else mp - 9 in
  (if m <=? 2 then yoe + era * 400 + 1 else yoe + era * 400, m, d).

Definition is_leap (y : Z) : bool :=
  ((y mod 4 =? 0) && negb (y mod 100 =? 0)) || (y mod 400 =? 0).

Definition days_in_month (y m : Z) : Z :=
  if m =? 2 then (if is_leap y then 29 else 28)
  else if (m =? 4) || (m =? 6) || (m =? 9) || (m =? 11) then 30
  else 31.

Definition digit_val (c : N) : Z := Z.of_N c - 48.

(** The month of [%m]: the alternation [1[0-2]|0[1-9]|[1-9]]. *)
Definition parse_month (s : str) : option (Z * str) :=
  match s with
  | a :: b :: r =>
      if N.eqb a 49 && in_range 48 50 b then Some (10 + digit_val b, r)
      else if N.eqb a 48 && in_range 49 57 b then Some (digit_val b, r)
      else if in_range 49 57 a then Some (digit_val a, b :: r)
      else None
  | [a] => if in_range 49 57 a then Some (digit_val a, []) else None
  | [] => None
  end.

(** The day of [%d]: the alternation [3[01]|[12]\d|0[1-9]|[1-9]| [1-9]]. *)
Definition parse_day (s : str) : option (Z * str) :=
  match s with
  | a :: b :: r =>
      if N.eqb a 51 && in_range 48 49 b then Some (30 + digit_val b, r)
      else if in_range 49 50 a && is_digit b then Some (10 * digit_val a + digit_val b, r)
      else if N.eqb a 48 && in_range 49 57 b then Some (digit_val b, r)
      else if in_range 49 57 a then Some (digit_val a, b :: r)
      else if N.eqb a 32 && in_range 49 57 b then Some (digit_val b, r)
      else None
  | [a] => if in_range 49 57 a then Some (digit_val a, []) else None
  | [] => None
  end.

(** [datetime.strptime(s, "%Y-%m-%d")] as year, month and day; it raises
    [ValueError] on a text of another shape, on text left over, and on a
    date that does not exist. *)
Definition strptime_ymd (s : str) : result (Z * Z * Z) :=
  match s with
  | y1 :: y2 :: y3 :: y4 :: dash :: r =>
      if is_digit y1 && is_digit y2 && is_digit y3 && is_digit y4 && N.eqb dash 45
      then
        let y := 1000 * digit_val y1 + 100 * digit_val y2 + 10 * digit_val y3 + digit_val y4 in
        match parse_month r with
        | Some (m, dash2 :: r2) =>
            if N.eqb dash2 45 then
              match parse_day r2 with
              | Some (d, []) =>
                  if (1 <=? y) && (d <=? days_in_month y m) then Ok (y, m, d)
                  else Raise ValueError
              | _ => Raise ValueError
              end
            else Raise ValueError
        | _ => Raise ValueError
        end
      else Raise ValueError
  | _ => Raise ValueError
  end.

Definition two_digits (z : Z) : str :=
  if z <? 10 then chr "0" :: str_of_Z z else str_of_Z z.

(** [strftime("%Y-%m-%d")]; the year is not padded (glibc). *)
Definition strftime_ymd (ymd : Z * Z * Z) : str :=
  let '(y, m, d) := ymd in
  str_of_Z y ++ [chr "-"] ++ two_digits m ++ [chr "-"] ++ two_digits d.

Definition MS_PER_DAY : Z := 86400000.
(** The instants a [datetime] can hold, in milliseconds since the epoch:
    from 0001-01-01T00:00 to the end of 9999-12-31. *)
Definition MIN_DATETIME_MS : Z := -62135596800000.
Definition MAX_DATETIME_MS : Z := 253402300800000.

Definition datetime_ok (ms : Z) : bool :=
  (MIN_DATETIME_MS <=? ms) && (ms <? MAX_DATETIME_MS).

Definition civil_of_ms (ms : Z) : Z * Z * Z := civil_from_days (ms / MS_PER_DAY).

Section Time.

Variable cfg : QuillConfig.

Definition local_day_bounds_ms (date_str : option str) : result (Z * Z) :=
  match date_str with
  | None => Raise TypeError
  | Some s =>
      ymd <- strptime_ymd s ;;
      let '(y, m, d) := ymd in
      let half := window_hours cfg * 60 * 60 * 1000 in
      let center := (days_from_civil y m d * 86400 + 12 * 3600) * 1000 in
      Ok (center - half, center + half)
  end.

Definition same_local_calendar_day (meeting_date : option str) (start_ms : option Z)
  : result bool :=
  match start_ms with
  | None => Ok false
  | Some ms =>
      if datetime_ok ms then
        let '(_, month, _) := civil_of_ms ms in
        let offset_hours := if (3 <=? month) && (month <=? 11) then -5 else -6 in
        let local_ms := ms + offset_hours * 3600000 in
        if datetime_ok local_ms then
          match meeting_date with
          | Some md => Ok (str_eqb (strftime_ymd (civil_of_ms local_ms)) md)
          | None => Ok false
          end
        else Raise OverflowError
      else Raise ValueError
  end.

End Time.

(* ------------------------------------------------------------------ *)
(** ** The record store *)

Record MeetingRow : Type := {
  row_id : str;
  row_title : option str;
  row_participants : option str;
  row_speakers_json : option str;
  row_start : option Z;
  row_end : option Z;
  row_audio_transcript : option str
}.

(** A row of table [ContactMeeting]. *)
Record ContactMeetingRec : Type := {
  cm_meeting_id : str;
  cm_speaker_id : str;
  cm_suggested_name : option str;
  cm_contact_id : option str
}.

(** A row of table [Contact]. *)
Record ContactRec : Type := {
  contact_id : str;
  contact_name : option str
}.

(** The tables of [quill.db] that the engine reads. A row of table [Meeting]
    is the columns of a [MeetingRow] ([row_speakers_json] is the column
    [speakers], [None] when the table has no such column) and [deleteDate].
    [has_Meeting] tells whether the file has a table [Meeting] at all:
    [sqlite3.connect] makes an empty file where there is none, and a
    statement on the missing table raises [sqlite3.OperationalError]; the
    rows of [Meeting] are then not read. *)
Record database : Type := {
  has_Meeting : bool;
  Meeting : list (MeetingRow * option Z);
  ContactMeeting : list ContactMeetingRec;
  Contact : list ContactRec
}.

Definition opt_nonempty (s : option str) : bool :=
  match s with
  | Some (_ :: _) => true
  | _ => false
  end.

Definition live (r : MeetingRow * option Z) : bool :=
  match snd r with None => true | Some _ => false end.

(** [row_to_meeting] on a row selected without the column [speakers]. *)
Definition without_speakers (m : MeetingRow) : MeetingRow :=
  {| row_id := row_id m; row_title := row_title m;
     row_participants := row_participants m; row_speakers_json := None;
     row_start := row_start m; row_end := row_end m;
     row_audio_transcript := row_audio_transcript m |}.

(** [ORDER BY start ASC], rows of equal start in table order. *)
Definition start_key (m : MeetingRow) : Z :=
  match row_start m with Some s => s | None => 0 end.

Fixpoint insert_by_start (x : MeetingRow) (l : list MeetingRow) : list MeetingRow :=
  match l with
  | [] => [x]
  | y :: r => if start_key y <? start_key x then y :: insert_by_start x r else x :: l
  end.

Fixpoint sort_by_start (l : list MeetingRow) : list MeetingRow :=
  match l with
  | [] => []
  | x :: r => insert_by_start x (sort_by_start r)
  end.

(** [cursor.execute] of a statement that reads table [Meeting], followed by
    the fetch that [select] stands for. *)
Definition execute_on_Meeting {A : Type} (db : database)
    (select : list (MeetingRow * option Z) -> A) : result A :=
  if has_Meeting db then Ok (select (Meeting db)) else Raise OperationalError.

(** [get_meeting_by_id]: [WHERE deleteDate IS NULL AND id = ? LIMIT 1];
    [execute_single_query] turns the error of sqlite3 into a
    [DatabaseError], on which [None] is returned. *)
Definition get_meeting_by_id (db : database) (meeting_id : str) : option MeetingRow :=
  match
    execute_on_Meeting db
      (fun rows =>
         match filter (fun r => live r && str_eqb (row_id (fst r)) meeting_id) rows with
         | r :: _ => Some (fst r)
         | [] => None
         end)
  with
  | Ok row => row
  | Raise _ => None
  end.

(** The condition [NOT (end < lo OR start > hi)] of SQL: a [NULL] bound
    makes it unknown, and the row is not selected. *)
Definition overlaps_window (lo_ms hi_ms : Z) (m : MeetingRow) : bool :=
  match row_start m, row_end m with
  | Some s, Some e => negb ((e <? lo_ms) || (hi_ms <? s))
  | _, _ => false
  end.

(** [get_meetings_in_window]; on a [DatabaseError] it returns the empty
    list. *)
Definition get_meetings_in_window (db : database) (start_ms end_ms : Z) (limit : nat)
  : list MeetingRow :=
  match
    execute_on_Meeting db
      (fun rows =>
         firstn limit
           (sort_by_start
              (filter (overlaps_window start_ms end_ms) (map fst (filter live rows)))))
  with
  | Ok rows => rows
  | Raise _ => []
  end.

(** [dict[k] = v] on the items of a dict of names. *)
Fixpoint names_set (k : str) (v : option str) (kv : list (str * option str))
  : list (str * option str) :=
  match kv with
  | [] => [(k, v)]
  | (k', v') :: r => if str_eqb k k' then (k, v) :: r else (k', v') :: names_set k v r
  end.

Definition contact_name_of (db : database) (cid : str) : option (option str) :=
  match filter (fun c => str_eqb (contact_id c) cid) (Contact db) with
  | c :: _ => Some (contact_name c)
  | [] => None
  end.

Definition get_contact_meeting_speakers (db : database) (meeting_id : str)
  : list (str * option str) :=
  fold_left
    (fun speakers row =>
       let name :=
         match cm_contact_id row with
         | Some (c :: cs) =>
             match contact_name_of db (c :: cs) with
             | Some n => n
             | None => cm_suggested_name row
             end
         | _ => cm_suggested_name row
         end in
       names_set (cm_speaker_id row) name speakers)
    (filter (fun row => str_eqb (cm_meeting_id row) meeting_id
                        && match cm_suggested_name row with Some _ => true | None => false end)
            (ContactMeeting db))
    [].

Definition fetch_by_id (db : database) (meeting_id : str) : option MeetingRow :=
  option_map without_speakers (get_meeting_by_id db meeting_id).

Definition fetch_overlap_window (db : database) (lo_ms hi_ms : Z) (limit : nat)
  : list MeetingRow :=
  map without_speakers (get_meetings_in_window db lo_ms hi_ms limit).

(** [fetch_start_in_window] with [like=None]:
    [WHERE deleteDate IS NULL AND start BETWEEN lo AND hi]. *)
Definition start_in_window (lo_ms hi_ms : Z) (m : MeetingRow) : bool :=
  match row_start m with
  | Some s => (lo_ms <=? s) && (s <=? hi_ms)
  | None => false
  end.

(** The statement is executed on the cursor of the caller, outside any
    [try]: the error of sqlite3 leaves the function. *)
Definition fetch_start_in_window (db : database) (lo_ms hi_ms : Z) (limit : nat)
  : result (list MeetingRow) :=
  execute_on_Meeting db
    (fun rows =>
       firstn limit
         (sort_by_start
            (filter (start_in_window lo_ms hi_ms) (map fst (filter live rows))))).

Close Scope Z_scope.

Section Participants.

Variable rt : runtime.
Variable cfg : QuillConfig.

(** The four lines that [derive_db_participants] applies to a list of names. *)
Definition clean_names (names : list str) : list str :=
  let parts := map normalize_person_token (filter nonempty names) in
  let parts := expand_aliases cfg parts in
  let parts := map str_title (filter nonempty parts) in
  filter nonempty parts.

(** [obj.get("name") or obj.get("display_name")], kept when it is a
    non-empty string. *)
Definition speaker_name_of (obj : pyval) : option str :=
  match obj with
  | PDict kv =>
      let nm :=
        match dict_get (lit "name") kv with
        | Some v => if truthy v then Some v else dict_get (lit "display_name") kv
        | None => dict_get (lit "display_name") kv
        end in
      match nm with
      | Some (PStr (c :: s)) => Some (c :: s)
      | _ => None
      end
  | _ => None
  end.

Fixpoint speaker_names (objs : list pyval) : list str :=
  match objs with
  | [] => []
  | obj :: r =>
      match speaker_name_of obj with
      | Some nm => nm :: speaker_names r
      | None => speaker_names r
      end
  end.

Definition names_of_speakers_json (data : pyval) : list str :=
  match data with
  | PList objs => speaker_names objs
  | PDict kv =>
      match dict_get (lit "speakers") kv with
      | Some (PList objs) => speaker_names objs
      | _ => []
      end
  | _ => []
  end.

(** [derive_db_participants(m, cur)]; [cur] is the cursor on the open
    database, [None] when the caller passes none. *)
Definition derive_db_participants (m : MeetingRow) (cur : option database) : list str :=
  let from_contacts :=
    match cur with
    | Some db =>
        clean_names
          (flat_map (fun kv => match snd kv with Some n => [n] | None => [] end)
                    (get_contact_meeting_speakers db (row_id m)))
    | None => []
    end in
  match from_contacts with
  | _ :: _ => from_contacts
  | [] =>
      let from_json :=
        match row_speakers_json m with
        | Some (c :: s) =>
            match json_loads rt (c :: s) with
            | Some data => clean_names (names_of_speakers_json data)
            | None => []
            end
        | _ => []
        end in
      match from_json with
      | _ :: _ => from_json
      | [] => split_participants_string cfg (row_participants m)
      end
  end.

End Participants.

(* ------------------------------------------------------------------ *)
(** ** Transcript blocks and the label patterns *)

Fixpoint take_while (p : N -> bool) (s : str) : str :=
  match s with
  | c :: r => if p c then c :: take_while p r else []
  | [] => []
  end.

(** The length of the match of [Speaker \d+:\s*] at the head of [s]. *)
Definition speaker_label_at (s : str) : option nat :=
  if startswith (lit "Speaker ") s then
    let r := skipn 8 s in
    let nd := length (take_while is_digit r) in
    match nd, skipn nd r with
    | S _, c :: r' =>
        if N.eqb c 58 then Some (8 + nd + 1 + length (take_while is_space r'))%nat
        else None
    | _, _ => None
    end
  else None.

(** The length of the match of [[A-Z][a-z]+] at the head of [s]. *)
Definition cap_word_at (s : str) : option nat :=
  match s with
  | c :: r =>
      if is_upper_az c then
        match length (take_while is_lower_az r) with
        | O => None
        | S n => Some (S (S n))
        end
      else None
  | [] => None
  end.

(** The length of the match of [(?:\s+[A-Z][a-z]+)*] at the head of [s]. *)
Fixpoint cap_words_more (fuel : nat) (s : str) : nat :=
  match fuel with
  | O => O
  | S fuel' =>
      let ws := length (take_while is_space s) in
      match ws, cap_word_at (skipn ws s) with
      | S _, Some w => (ws + w + cap_words_more fuel' (skipn (ws + w) s))%nat
      | _, _ => O
      end
  end.

(** The length of the match of [\b[A-Z][a-z]+(?:\s+[A-Z][a-z]+)*:\s*] at the
    head of [s], where [prev] is the character before it. *)
Definition name_label_at (prev : option N) (s : str) : option nat :=
  let boundary := match prev with Some p => negb (is_word p) | None => true end in
  if boundary then
    match cap_word_at s with
    | Some w =>
        let k := (w + cap_words_more (length s) (skipn w s))%nat in
        match skipn k s with
        | c :: r' =>
            if N.eqb c 58 then Some (k + 1 + length (take_while is_space r'))%nat
            else None
        | [] => None
        end
    | None => None
    end
  else None.

(** [re.sub(pattern, "", s)] for a pattern given by the length of its match
    at a position: the matches are found left to right and do not overlap. *)
Fixpoint drop_matches (match_at : option N -> str -> option nat)
    (skip : nat) (prev : option N) (s : str) : str :=
  match s with
  | [] => []
  | c :: r =>
      match skip with
      | S k => drop_matches match_at k (Some c) r
      | O =>
          match match_at prev s with
          | Some (S n) => drop_matches match_at n (Some c) r
          | _ => c :: drop_matches match_at 0 (Some c) r
          end
      end
  end.

(** [re.sub(r'Speaker \d+:\s*', '', s)] *)
Definition strip_speaker_labels (s : str) : str :=
  drop_matches (fun _ => speaker_label_at) 0 None s.

(** [re.sub(r'\b[A-Z][a-z]+(?:\s+[A-Z][a-z]+)*:\s*', '', s)] *)
Definition strip_name_labels (s : str) : str :=
  drop_matches name_label_at 0 None s.

(** The two label substitutions, in the order of the source. *)
Definition strip_labels (s : str) : str := strip_name_labels (strip_speaker_labels s).

(** The quote replacements of the snippet: the double prime U+2033 becomes
    a plain double quote; the four other replacements of the source put a
    plain quote in the place of the same plain quote. *)
Definition normalize_quotes (s : str) : str :=
  replace_char 39 [39%N]
    (replace_char 39 [39%N]
       (replace_char 34 [34%N]
          (replace_char 34 [34%N] (replace_char 8243 [34%N] s)))).

(** [[b.get("text", "") for b in blocks]], [None] when a block is no dict
    or a text is no string (the list or the join then raises). *)
Fixpoint block_texts (blocks : list pyval) : option (list str) :=
  match blocks with
  | [] => Some []
  | PDict kv :: r =>
      let text :=
        match dict_get (lit "text") kv with
        | None => Some []
        | Some (PStr s) => Some s
        | Some _ => None
        end in
      match text, block_texts r with
      | Some t, Some ts => Some (t :: ts)
      | _, _ => None
      end
  | _ :: _ => None
  end.

Section Scoring.

Variable rt : runtime.
Variable cfg : QuillConfig.

Definition is_json_like (s : str) : bool :=
  let s := strip s in
  match s with
  | c :: _ =>
      if N.eqb c 123 || N.eqb c 91
      then match json_loads rt s with Some _ => true | None => false end
      else false
  | [] => false
  end.

(** [_parse_audio_blocks(audio_blob)[0]] *)
Definition _parse_audio_blocks (audio_blob : str) : option (list pyval) :=
  if is_json_like audio_blob then
    match json_loads rt audio_blob with
    | Some (PDict kv) =>
        match dict_get (lit "blocks") kv with
        | Some (PList blocks) => Some blocks
        | _ => None
        end
    | Some (PList data) => Some data
    | _ => None
    end
  else None.

(** The two texts that the first [SequenceMatcher] of [compute_score]
    compares: the cleaned snippet and the cleaned beginning of the
    transcript, before they are lowered. *)
Definition clean_snippet (transcript_snippet : str) : str :=
  strip_labels (normalize_quotes (collapse_ws (strip transcript_snippet))).

Definition clean_beginning (transcript_snippet beginning_text : str) : str :=
  let snippet_clean := collapse_ws (strip transcript_snippet) in
  strip_labels (collapse_ws (firstn (length snippet_clean * 2) beginning_text)).

(** The second look, at the first 50 blocks. *)
Definition extended_score (snippet_clean : str) (blocks : list pyval)
    (transcript_score : Q) : Q :=
  match block_texts (firstn 50 blocks) with
  | None => transcript_score
  | Some texts =>
      let extended_text := join [32%N] texts in
      let extended_clean := strip_labels (collapse_ws extended_text) in
      let transcript_score :=
        if contains (lower snippet_clean) (lower extended_clean)
        then pymax transcript_score (4 # 10)
        else transcript_score in
      let extended_similarity :=
        ratio rt (lower snippet_clean)
                 (firstn (length snippet_clean * 5) extended_clean) in
      pymax transcript_score (extended_similarity * (8 # 10))
  end.

(** The block [if transcript_snippet and m.audio_transcript: try: ...] of
    [compute_score]: an exception inside leaves the score as it stands. *)
Definition transcript_match (transcript_snippet : option str) (audio_transcript : option str)
  : Q :=
  match transcript_snippet, audio_transcript with
  | Some (c :: s), Some (a :: t) =>
      match _parse_audio_blocks (a :: t) with
      | Some (b :: bs) =>
          let blocks := b :: bs in
          match block_texts (firstn 10 blocks) with
          | None => 0
          | Some texts =>
              let beginning_text := strip (join [32%N] texts) in
              if is_empty beginning_text then 0
              else
                let snippet_clean := clean_snippet (c :: s) in
                let beginning_clean := clean_beginning (c :: s) beginning_text in
                let similarity := ratio rt (lower snippet_clean) (lower beginning_clean) in
                let transcript_score :=
                  if Qltb (8 # 10) similarity then pymin 1 (similarity + (2 # 10))
                  else similarity in
                let transcript_score :=
                  if contains (lower snippet_clean) (lower beginning_clean)
                  then pymin 1 (transcript_score + (1 # 10))
                  else transcript_score in
                if Qltb transcript_score (3 # 10) && Nat.ltb 10 (length blocks)
                then extended_score snippet_clean blocks transcript_score
                else transcript_score
          end
      | _ => 0
      end
  | _, _ => 0
  end.

(* ---------------------------------------------------------------- *)
(** ** The scoring engine *)

Record weights : Type := { w_overlap : Q; w_title : Q; w_time : Q }.

Definition WEIGHT_TABLE : list (str * weights) :=
  [ (lit "1-on-1",        {| w_overlap := 70 # 100; w_title := 15 # 100; w_time := 15 # 100 |});
    (lit "internal-sync", {| w_overlap := 65 # 100; w_title := 20 # 100; w_time := 15 # 100 |});
    (lit "external-sync", {| w_overlap := 75 # 100; w_title := 10 # 100; w_time := 15 # 100 |});
    (lit "note-to-self",  {| w_overlap := 60 # 100; w_title := 10 # 100; w_time := 30 # 100 |});
    (lit "default",       {| w_overlap := 60 # 100; w_title := 25 # 100; w_time := 15 # 100 |}) ].

Definition CONFIDENCE_THRESHOLDS : list (str * Q) :=
  [ (lit "1-on-1", 45 # 100); (lit "internal-sync", 42 # 100);
    (lit "external-sync", 35 # 100); (lit "note-to-self", 35 # 100);
    (lit "default", 40 # 100) ].

(** [table.get(key, default)] *)
Fixpoint table_get {A : Type} (table : list (str * A)) (key : str) (default : A) : A :=
  match table with
  | [] => default
  | (k, v) :: r => if str_eqb key k then v else table_get r key default
  end.

Definition default_weights : weights :=
  {| w_overlap := 60 # 100; w_title := 25 # 100; w_time := 15 # 100 |}.

(** [[p.strip() for p in (desired_participants or []) if p and p.strip()]] *)
Definition stripped_names (desired_participants : list str) : list str :=
  map strip (filter (fun p => nonempty p && nonempty (strip p)) desired_participants).

(** [{p.lower() for p in names}] *)
Definition lower_set (names : list str) : list str := set_of (map lower names).

(** The candidate's time midpoint, as [compute_score] takes it. *)
Definition time_midpoint (center_ms : Z) (m : MeetingRow) : Z :=
  let t_mid :=
    match row_start m with
    | Some s => s
    | None =>
        match row_end m with
        | Some e => (center_ms + e)%Z
        | None => center_ms
        end
    end in
  match row_start m, row_end m with
  | Some s, Some e => ((s + e) / 2)%Z
  | _, _ => t_mid
  end.

Definition time_proximity (center_ms lo_ms hi_ms : Z) (m : MeetingRow) : Q :=
  let t_mid := time_midpoint center_ms m in
  let span := inject_Z (Z.max 1 (hi_ms - lo_ms)) in
  let t := if Z.eqb t_mid 0 then center_ms else t_mid in
  pymax 0 (1 - inject_Z (Z.abs (t - center_ms)) / span).

(** The set-logic adjustments: the bonus and the penalty. *)
Definition set_adjustments (session_type : str) (desired db_parts : list str) : Q * Q :=
  let dset := lower_set desired in
  let bset := lower_set db_parts in
  match desired with
  | [] => (0, 0)
  | _ =>
      let '(set_bonus, set_penalty) :=
        if set_eqb dset bset then (0 + (25 # 100), 0)
        else
          let set_penalty :=
            if subset dset bset
            then 0 + pymin (12 # 100)
                       ((4 # 100) * inject_Z (Z.max 0 (Z.of_nat (length bset) - Z.of_nat (length dset))))
            else 0 in
          let missing := length (diff dset bset) in
          let set_penalty :=
            if Nat.ltb 0 missing
            then set_penalty
                 + pymin (35 # 100) ((18 # 100) + (10 # 100) * inject_Z (Z.of_nat missing - 1))
            else set_penalty in
          (0, set_penalty) in
      if str_eqb session_type (lit "1-on-1") then
        if Nat.eqb (length bset) 2 && Nat.eqb (length dset) 2 && set_eqb dset bset
        then (set_bonus + (12 # 100), set_penalty)
        else if Nat.ltb 2 (length bset) then (set_bonus, set_penalty + (10 # 100))
        else (set_bonus, set_penalty)
      else (set_bonus, set_penalty)
  end.

Definition group_size_penalty_of (session_type : str) (db_parts : list str) : Q :=
  if str_eqb session_type (lit "note-to-self") && Nat.ltb 1 (length db_parts)
  then 15 # 100 else 0.

(** The local variables of [compute_score] that enter the composite. *)
Record terms : Type := {
  t_overlap : Q;
  t_title_score : Q;
  t_time_score : Q;
  t_transcript_score : Q;
  t_same_day_bonus : Q;
  t_set_bonus : Q;
  t_set_penalty : Q;
  t_group_size_penalty : Q;
  t_db_parts : list str;
  t_desired : list str
}.

Definition score_terms (session_type : str) (meeting_date : option str)
    (needle_title : option str) (desired_participants : list str)
    (center_ms lo_ms hi_ms : Z) (m : MeetingRow) (cur : option database)
    (transcript_snippet : option str) : result terms :=
  let db_parts := derive_db_participants rt cfg m cur in
  let desired := stripped_names desired_participants in
  let overlap := participant_overlap_fuzzy cfg desired db_parts in
  let title_score :=
    title_similarity rt (match needle_title with Some t => t | None => [] end)
                        (match row_title m with Some t => t | None => [] end) in
  let time_score := time_proximity center_ms lo_ms hi_ms m in
  same_day <- same_local_calendar_day meeting_date (row_start m) ;;
  let same_day_bonus := if same_day then 10 # 100 else 0 in
  let transcript_score := transcript_match transcript_snippet (row_audio_transcript m) in
  let '(set_bonus, set_penalty) := set_adjustments session_type desired db_parts in
  let group_size_penalty := group_size_penalty_of session_type db_parts in
  Ok {| t_overlap := overlap; t_title_score := title_score; t_time_score := time_score;
        t_transcript_score := transcript_score; t_same_day_bonus := same_day_bonus;
        t_set_bonus := set_bonus; t_set_penalty := set_penalty;
        t_group_size_penalty := group_size_penalty;
        t_db_parts := db_parts; t_desired := desired |}.

(** The dict [parts] that [compute_score] returns beside the composite. *)
Record parts : Type := {
  overlap : Q;
  title_score : Q;
  time_score : Q;
  transcript_score : Q;
  same_day_bonus : Q;
  set_bonus : Q;
  set_penalty : Q;
  group_size_penalty : Q;
  composite : Q;
  db_parts : list str;
  desired_parts : list str
}.

(** The composite: the weighted terms and the adjustments, added in the
    order of the source. The code adds binary64 floats and rounds every
    sum; the sum here is the exact one, from which that of the code differs
    by this rounding (it is 1.4700000000000002 where the terms add up to
    1.47). *)
Definition compose (session_type : str) (transcript_snippet : option str) (t : terms) : Q :=
  let w := table_get WEIGHT_TABLE session_type default_weights in
  if opt_nonempty transcript_snippet then
    let transcript_weight := 60 # 100 in
    let adjusted_overlap_weight := w_overlap w * (2 # 10) in
    let adjusted_title_weight := w_title w * (2 # 10) in
    let adjusted_time_weight := w_time w * (5 # 10) in
    adjusted_overlap_weight * t_overlap t
    + adjusted_title_weight * t_title_score t
    + adjusted_time_weight * t_time_score t
    + transcript_weight * t_transcript_score t
    + t_same_day_bonus t + t_set_bonus t - t_set_penalty t - t_group_size_penalty t
  else
    w_overlap w * t_overlap t
    + w_title w * t_title_score t
    + w_time w * t_time_score t
    + t_same_day_bonus t + t_set_bonus t - t_set_penalty t - t_group_size_penalty t.

Definition compute_score (session_type : str) (meeting_date : option str)
    (needle_title : option str) (desired_participants : list str)
    (center_ms lo_ms hi_ms : Z) (m : MeetingRow) (cur : option database)
    (transcript_snippet : option str) : result (Q * parts) :=
  t <- score_terms session_type meeting_date needle_title desired_participants
         center_ms lo_ms hi_ms m cur transcript_snippet ;;
  let composite := compose session_type transcript_snippet t in
  Ok (composite,
      {| overlap := round3 (t_overlap t);
         title_score := round3 (t_title_score t);
         time_score := round3 (t_time_score t);
         transcript_score := round3 (t_transcript_score t);
         same_day_bonus := round3 (t_same_day_bonus t);
         set_bonus := round3 (t_set_bonus t);
         set_penalty := round3 (t_set_penalty t);
         group_size_penalty := round3 (t_group_size_penalty t);
         composite := round3 composite;
         db_parts := t_db_parts t;
         desired_parts := t_desired t |}).

End Scoring.

(* ------------------------------------------------------------------ *)
(** ** The candidate selector *)

(** A pending record: the keys that [save_pending] writes and
    [find_best_candidate] reads; [None] is JSON's [null]. *)
Record pending : Type := {
  pd_meeting_date : option str;
  pd_meeting_title : option str;
  pd_session_type : option str;
  pd_participants : option (list str);
  pd_quill_meeting_id : option str;
  pd_quill_start_ms : option Z;
  pd_quill_end_ms : option Z;
  pd_quill_title : option str;
  pd_transcript_snippet : option str
}.

(** [MeetingRow.brief()], without the two ISO renderings of start and end. *)
Record brief : Type := {
  b_id : str;
  b_title : option str;
  b_participants : option str;
  b_start_ms : option Z;
  b_end_ms : option Z;
  b_length_min : option Z;
  b_has_audio : bool
}.

Definition ms_length_min (a b : option Z) : option Z :=
  match a, b with
  | Some a, Some b => if (b <? a)%Z then None else Some ((b - a) / 60000)%Z
  | _, _ => None
  end.

Definition brief_of (m : MeetingRow) : brief :=
  {| b_id := row_id m; b_title := row_title m; b_participants := row_participants m;
     b_start_ms := row_start m; b_end_ms := row_end m;
     b_length_min := ms_length_min (row_start m) (row_end m);
     b_has_audio := opt_nonempty (row_audio_transcript m) |}.

(** One diagnostic row: [{**m.brief(), **parts, "session_type": ...}]. *)
Record meta : Type := {
  meta_brief : brief;
  meta_parts : parts;
  meta_session_type : str
}.

Definition scored_item : Type := (Q * MeetingRow * meta)%type.

Definition item_score (t : scored_item) : Q := fst (fst t).
Definition item_row (t : scored_item) : MeetingRow := snd (fst t).
Definition item_meta (t : scored_item) : meta := snd t.

(** [scored.sort(key=lambda t: t[0], reverse=True)]: a stable sort. *)
Fixpoint insert_by_score (x : scored_item) (l : list scored_item) : list scored_item :=
  match l with
  | [] => [x]
  | y :: r =>
      if Qltb (item_score x) (item_score y) then y :: insert_by_score x r else x :: l
  end.

Fixpoint sort_by_score (l : list scored_item) : list scored_item :=
  match l with
  | [] => []
  | x :: r => insert_by_score x (sort_by_score r)
  end.

(** [x or default] on an optional string. *)
Definition str_or (x : option str) (default : str) : str :=
  match x with
  | Some (c :: s) => c :: s
  | _ => default
  end.

(** [x or y] on two optional strings. *)
Definition opt_or (x y : option str) : option str :=
  match x with
  | Some (_ :: _) => x
  | _ => y
  end.

Definition or_empty (x : option str) : str :=
  match x with Some s => s | None => [] end.

Definition Qgeb (a b : Q) : bool := Qle_bool b a.

Section Selector.

Variable rt : runtime.
Variable cfg : QuillConfig.

Definition session_type_of (pd : pending) : str :=
  str_or (pd_session_type pd) (lit "default").

Definition desired_of (pd : pending) : list str :=
  match pd_participants pd with
  | Some l => l
  | None => []
  end.

(** The centre that the time score is taken from: the middle of the window,
    or what the Quill start and end of the pending record give. *)
Definition scoring_center (pd : pending) (lo_ms hi_ms : Z) : result Z :=
  match pd_quill_start_ms pd, pd_quill_end_ms pd with
  | None, None => Ok ((lo_ms + hi_ms) / 2)%Z
  | Some qs, Some qe =>
      (* [(qs and qe)] holds when neither is 0; otherwise [int(qs or qe)] *)
      if negb (Z.eqb qs 0) && negb (Z.eqb qe 0) then Ok ((qs + qe) / 2)%Z
      else if negb (Z.eqb qs 0) then Ok qs
      else Ok qe
  | Some qs, None =>
      (* [qs or qe] is [None] when [qs] is 0, and [int(None)] raises *)
      if negb (Z.eqb qs 0) then Ok qs else Raise TypeError
  | None, Some qe => Ok qe
  end.

(** The participant pre-filter of the scoring loop: [true] when the loop
    skips the candidate. *)
Definition prefilter_skips (desired_participants : list str)
    (transcript_snippet : option str) (cand_parts : list str) : bool :=
  match desired_participants with
  | [] => false
  | _ =>
      if opt_nonempty transcript_snippet then false
      else
        let dset := lower_set desired_participants in
        let bset := lower_set cand_parts in
        let overlap_count := length (inter dset bset) in
        Nat.eqb overlap_count 0 && Nat.leb 2 (length dset)
  end.

(** One turn of the loop [for m in cands]. *)
Definition score_candidate (pd : pending) (db : database) (center lo_ms hi_ms : Z)
    (scored : list scored_item) (m : MeetingRow) : result (list scored_item) :=
  if negb (opt_nonempty (row_audio_transcript m)) then Ok scored
  else
    let cand_parts := derive_db_participants rt cfg m (Some db) in
    if prefilter_skips (desired_of pd) (pd_transcript_snippet pd) cand_parts then Ok scored
    else
      sp <- compute_score rt cfg (session_type_of pd) (pd_meeting_date pd)
              (opt_or (pd_quill_title pd) (pd_meeting_title pd))
              (desired_of pd) center lo_ms hi_ms m (Some db)
              (pd_transcript_snippet pd) ;;
      let '(score, parts) := sp in
      let meta := {| meta_brief := brief_of m; meta_parts := parts;
                     meta_session_type := session_type_of pd |} in
      Ok (scored ++ [(score, m, meta)]).

Definition score_candidates (pd : pending) (db : database) (center lo_ms hi_ms : Z)
    (cands : list MeetingRow) : result (list scored_item) :=
  fold_result (score_candidate pd db center lo_ms hi_ms) cands [].

(** The candidates of step 2: the rows that [fetch_overlap_window] returns
    for the bounds of the pending record's day. *)
Definition window_candidates (db : database) (lo_ms hi_ms : Z) : list MeetingRow :=
  fetch_overlap_window db lo_ms hi_ms 800.

(** The two [if scored:] blocks: the reason the top candidate is accepted
    for, when it is. *)
Definition accept_top (session_type : str) (top : scored_item) : option str :=
  let thresh := table_get CONFIDENCE_THRESHOLDS session_type (40 # 100) in
  let top_score := item_score top in
  let top_meta := meta_parts (item_meta top) in
  let desired := desired_parts top_meta in
  let db_parts := db_parts top_meta in
  let min_overlap :=
    if str_eqb session_type (lit "external-sync") || str_eqb session_type (lit "internal-sync")
    then 60 # 100 else 50 # 100 in
  let ok_overlap := Qgeb (overlap top_meta) min_overlap in
  let exact_set :=
    match desired with
    | [] => false
    | _ => set_eqb (lower_set desired) (lower_set db_parts)
    end in
  let transcript_s := transcript_score top_meta in
  if Qgeb transcript_s (15 # 100) then Some (lit "transcript")
  else
    let overlap := overlap top_meta in
    if (Qgeb top_score thresh && (ok_overlap || exact_set))
       || (Qgeb overlap (9 # 10) && Qgeb transcript_s (1 # 10))
    then Some (lit "ranked_window")
    else
      let title_s := title_score top_meta in
      let comp := composite top_meta in
      if (Qgeb overlap (50 # 100) && Qgeb title_s (20 # 100) && Qgeb comp (thresh - (5 # 100)))
         || Qgeb transcript_s (3 # 10) || Qgeb title_s (25 # 100)
      then Some (lit "ranked_overlap")
      else None.

(** The title-only scan over [fetch_start_in_window]. *)
Definition best_by_title (look_title : option str) (items : list MeetingRow)
  : option MeetingRow * Q :=
  fold_left
    (fun (acc : option MeetingRow * Q) m =>
       if negb (opt_nonempty (row_audio_transcript m)) then acc
       else
         let s := title_similarity rt (or_empty look_title) (or_empty (row_title m)) in
         if Qltb (snd acc) s then (Some m, s) else acc)
    items (None, 0).

Definition selection : Type := (option MeetingRow * option str * list meta)%type.

(** [find_best_candidate(pd)]; [store] is the database at [QUILL_DB_PATH],
    [None] when no file is there. *)
Definition find_best_candidate (store : option database) (pd : pending) : result selection :=
  let debug_rows : list meta := [] in
  let meeting_date := pd_meeting_date pd in
  let meeting_title := pd_meeting_title pd in
  let session_type := session_type_of pd in
  match store with
  | None => Ok (None, None, debug_rows)
  | Some db =>
      let by_id :=
        match pd_quill_meeting_id pd with
        | Some (c :: s) =>
            match fetch_by_id db (c :: s) with
            | Some row => if opt_nonempty (row_audio_transcript row) then Some row else None
            | None => None
            end
        | _ => None
        end in
      match by_id with
      | Some row => Ok (Some row, Some (lit "id"), debug_rows)
      | None =>
          bounds <- local_day_bounds_ms cfg meeting_date ;;
          let '(lo_ms, hi_ms) := bounds in
          center <- scoring_center pd lo_ms hi_ms ;;
          let cands := window_candidates db lo_ms hi_ms in
          let look_title := opt_or (pd_quill_title pd) meeting_title in
          scored <- score_candidates pd db center lo_ms hi_ms cands ;;
          let scored := sort_by_score scored in
          let debug_rows := debug_rows ++ map item_meta (firstn 25 scored) in
          let accepted :=
            match scored with
            | top :: _ =>
                match accept_top session_type top with
                | Some reason => Some (item_row top, reason)
                | None => None
                end
            | [] => None
            end in
          match accepted with
          | Some (row, reason) => Ok (Some row, Some reason, debug_rows)
          | None =>
              items <- fetch_start_in_window db lo_ms hi_ms 500 ;;
              match best_by_title look_title items with
              | (Some best, best_s) =>
                  if Qgeb best_s (70 # 100)
                  then Ok (Some best, Some (lit "title"), debug_rows)
                  else Ok (None, None, debug_rows)
              | (None, _) => Ok (None, None, debug_rows)
              end
          end
      end
  end.

End Selector.

(* ------------------------------------------------------------------ *)
(** ** Speaker attribution *)

(** A transcript block: the items of a dict decoded from JSON. *)
Definition block : Type := list (str * pyval).

(** [s.split()]: the words between runs of white space. *)
Fixpoint words_from (cur : str) (s : str) : list str :=
  match s with
  | [] => match cur with [] => [] | _ => [rev cur] end
  | c :: r =>
      if is_space c
      then match cur with
           | [] => words_from [] r
           | _ => rev cur :: words_from [] r
           end
      else words_from (c :: cur) r
  end.

Definition words (s : str) : list str := words_from [] s.

(** [counts[k] = counts.get(k, 0) + 1] on the items of a dict. *)
Fixpoint count_up (k : str) (counts : list (str * nat)) : list (str * nat) :=
  match counts with
  | [] => [(k, 1%nat)]
  | (k', n) :: r => if str_eqb k k' then (k', S n) :: r else (k', n) :: count_up k r
  end.

(** The first item of [sorted(counts.items(), key=lambda kv: kv[1],
    reverse=True)]: the earliest key with the largest count. *)
Fixpoint most_frequent (counts : list (str * nat)) : option (str * nat) :=
  match counts with
  | [] => None
  | (k, n) :: r =>
      match most_frequent r with
      | Some (k', n') => if Nat.ltb n n' then Some (k', n') else Some (k, n)
      | None => Some (k, n)
      end
  end.

(** [mapping[k] = v] on the items of a dict of names. *)
Fixpoint map_set (k v : str) (mapping : list (str * str)) : list (str * str) :=
  match mapping with
  | [] => [(k, v)]
  | (k', v') :: r => if str_eqb k k' then (k, v) :: r else (k', v') :: map_set k v r
  end.

Fixpoint map_get (k : str) (mapping : list (str * str)) : option str :=
  match mapping with
  | [] => None
  | (k', v) :: r => if str_eqb k k' then Some v else map_get k r
  end.

Definition map_has (k : str) (mapping : list (str * str)) : bool :=
  match map_get k mapping with Some _ => true | None => false end.

(** The class [[A-Za-z .'-]] of the inline name prefix. *)
Definition name_prefix_char (c : N) : bool :=
  is_alpha_az c || N.eqb c 32 || N.eqb c 46 || N.eqb c 39 || N.eqb c 45.

(** Group 1 of [re.match(r"^([A-Za-z][A-Za-z .'-]{0,40}?):\s+", txt)]. *)
Definition inline_name (txt : str) : option str :=
  match txt with
  | c :: r =>
      if is_alpha_az c then
        let run := take_while name_prefix_char r in
        if Nat.leb (length run) 40 then
          match skipn (length run) r with
          | colon :: sp :: _ =>
              if N.eqb colon 58 && is_space sp then Some (c :: run) else None
          | _ => None
          end
        else None
      else None
  | [] => None
  end.

Section Speakers.

Variable rt : runtime.
Variable cfg : QuillConfig.

Definition ME_FULLNAME : str := canonical_name cfg.
Definition ME_ALIASES : list str := aliases cfg.

Definition _norm_name (s : str) : str := collapse_ws (lower (strip s)).

Definition _is_me (name : str) : bool :=
  let n := _norm_name name in
  if is_empty n then false
  else if mem n ME_ALIASES then true
  else
    let tokens := words n in
    let canonical_tokens := set_of (map lower (words (canonical_name cfg))) in
    existsb (fun token => mem (lower token) canonical_tokens) tokens.

(** [_pick_me_speaker_id(blocks)] *)
Definition _pick_me_speaker_id (blocks : list block) : option str :=
  let counts :=
    fold_left
      (fun counts (b : block) =>
         let sid := dict_get (lit "speaker_id") b in
         let src := lower (py_str rt (match dict_get (lit "source") b with
                                      | Some v => v
                                      | None => PStr []
                                      end)) in
         match sid with
         | None | Some PNone => counts
         | Some sid =>
             if is_empty src then counts
             else if mem src [lit "mic"; lit "local"; lit "local-user"]
                  then count_up (py_str rt sid) counts
                  else counts
         end)
      blocks [] in
  option_map fst (most_frequent counts).

(** A field that holds a non-blank string, stripped. *)
Definition label_text (v : option pyval) : option str :=
  match v with
  | Some (PStr s) => if is_empty (strip s) then None else Some (strip s)
  | _ => None
  end.

Fixpoint first_label (keys : list str) (kv : list (str * pyval)) : option str :=
  match keys with
  | [] => None
  | k :: r =>
      match label_text (dict_get k kv) with
      | Some s => Some s
      | None => first_label r kv
      end
  end.

Fixpoint _extract_explicit_label_in (keys : list str) (b : block) : option str :=
  match keys with
  | [] => None
  | k :: r =>
      match dict_get k b with
      | Some (PStr s) =>
          if is_empty (strip s) then _extract_explicit_label_in r b else Some (strip s)
      | Some (PDict kv) =>
          match first_label [lit "name"; lit "display_name"; lit "label"] kv with
          | Some s => Some s
          | None => _extract_explicit_label_in r b
          end
      | _ => _extract_explicit_label_in r b
      end
  end.

Definition _extract_explicit_label (b : block) : option str :=
  _extract_explicit_label_in
    [lit "speaker_name"; lit "display_name"; lit "name"; lit "label"; lit "speaker"] b.

Definition not_none (v : option pyval) : option pyval :=
  match v with
  | Some PNone => None
  | _ => v
  end.

Fixpoint first_id (keys : list str) (b : block) : option pyval :=
  match keys with
  | [] => None
  | k :: r =>
      match not_none (dict_get k b) with
      | Some v => Some v
      | None => first_id r b
      end
  end.

Definition _speaker_key (b : block) (idx : nat) : str :=
  match first_id [lit "speaker_id"; lit "speakerId"; lit "participant_id";
                  lit "participantId"] b with
  | Some v => lit "id:" ++ py_str rt v
  | None =>
      match dict_get (lit "source") b with
      | Some v =>
          if truthy v then lit "src:" ++ py_str rt v
          else match not_none (dict_get (lit "cluster") b) with
               | Some c => lit "clu:" ++ py_str rt c
               | None => lit "idx:" ++ str_of_Z (Z.of_nat idx)
               end
      | None =>
          match not_none (dict_get (lit "cluster") b) with
          | Some c => lit "clu:" ++ py_str rt c
          | None => lit "idx:" ++ str_of_Z (Z.of_nat idx)
          end
      end
  end.

Definition title_like (nl : str) (t : str) : bool :=
  let lead := fst (split_once 58 t) in
  let nt := normalize_title lead in
  if is_empty nt then false
  else if nonempty nl && (startswith nl nt || contains nl nt) then true
  else Qgeb (ratio rt nl nt) (78 # 100).

Definition _looks_like_title_fragment (label : str) (quill_title meeting_title : option str)
  : bool :=
  if is_empty label then false
  else
    let nl := normalize_title label in
    if contains (lit "<>") label then true
    else title_like nl (or_empty quill_title) || title_like nl (or_empty meeting_title).

(** [(v or "")] when the code goes on to call a string method on it: a
    value that is true and no string has no such method. *)
Definition text_or_empty (v : option pyval) : result str :=
  match v with
  | None => Ok []
  | Some (PStr s) => Ok s
  | Some v => if truthy v then Raise AttributeError else Ok []
  end.

(** The state of the loops of [_first_appearance_mapping]. *)
Record naming : Type := {
  mapping : list (str * str);
  used_names : list str;
  next_non_me_ix : nat
}.

(** The [while] loop that passes over the preferred names already used. *)
Fixpoint skip_used (fuel : nat) (pref_non_me : list str) (used : list str) (ix : nat) : nat :=
  match fuel with
  | O => ix
  | S fuel' =>
      match nth_error pref_non_me ix with
      | Some n => if mem (_norm_name n) used then skip_used fuel' pref_non_me used (S ix) else ix
      | None => ix
      end
  end.

Definition seed_labels (quill_title meeting_title : option str)
    (st : naming) (ib : nat * block) : naming :=
  let '(idx, b) := ib in
  let key := _speaker_key b idx in
  match _extract_explicit_label b with
  | Some explicit =>
      if _looks_like_title_fragment explicit quill_title meeting_title then st
      else {| mapping := map_set key explicit (mapping st);
              used_names := _norm_name explicit :: used_names st;
              next_non_me_ix := next_non_me_ix st |}
  | None => st
  end.

Definition merge_override (st : naming) (kv : str * str) : naming :=
  let '(k, v) := kv in
  if negb (map_has k (mapping st)) && nonempty v
  then {| mapping := map_set k v (mapping st);
          used_names := _norm_name v :: used_names st;
          next_non_me_ix := next_non_me_ix st |}
  else st.

Definition assign_remaining (pref_non_me : list str) (st : naming) (ib : nat * block)
  : result naming :=
  let '(idx, b) := ib in
  let key := _speaker_key b idx in
  if map_has key (mapping st) then Ok st
  else
    source <- text_or_empty (dict_get (lit "source") b) ;;
    if mem (_norm_name source) [lit "me"; lit "local"; lit "local_user"; lit "self"]
    then Ok {| mapping := map_set key ME_FULLNAME (mapping st);
               used_names := _norm_name ME_FULLNAME :: used_names st;
               next_non_me_ix := next_non_me_ix st |}
    else
      text <- text_or_empty (dict_get (lit "text") b) ;;
      let txt := strip text in
      let guessed_name :=
        match inline_name txt with
        | Some g => if _is_me g then None else Some (strip g)
        | None => None
        end in
      match guessed_name with
      | Some guessed =>
          Ok {| mapping := map_set key guessed (mapping st);
                used_names := _norm_name guessed :: used_names st;
                next_non_me_ix := next_non_me_ix st |}
      | None =>
          let ix := skip_used (length pref_non_me) pref_non_me (used_names st)
                              (next_non_me_ix st) in
          match nth_error pref_non_me ix with
          | Some candidate =>
              Ok {| mapping := map_set key candidate (mapping st);
                    used_names := _norm_name candidate :: used_names st;
                    next_non_me_ix := S ix |}
          | None =>
              let anon_ix :=
                length (filter (fun kv => startswith (lit "Speaker ") (snd kv)) (mapping st)) in
              Ok {| mapping :=
                      map_set key (lit "Speaker " ++ str_of_Z (Z.of_nat anon_ix + 1)) (mapping st);
                    used_names := used_names st;
                    next_non_me_ix := ix |}
          end
      end.

Fixpoint enumerate_from {A : Type} (i : nat) (l : list A) : list (nat * A) :=
  match l with
  | [] => []
  | x :: r => (i, x) :: enumerate_from (S i) r
  end.

Definition _first_appearance_mapping (blocks : list block) (pref_names : list str)
    (overrides : list (str * str)) (quill_title meeting_title : option str)
  : result (list (str * str)) :=
  let st := {| mapping := []; used_names := []; next_non_me_ix := 0 |} in
  let st :=
    match _pick_me_speaker_id blocks with
    | Some me_sid =>
        {| mapping := map_set (lit "id:" ++ me_sid) ME_FULLNAME (mapping st);
           used_names := _norm_name ME_FULLNAME :: used_names st;
           next_non_me_ix := 0 |}
    | None => st
    end in
  let st := fold_left (seed_labels quill_title meeting_title) (enumerate_from 0 blocks) st in
  let st := fold_left merge_override overrides st in
  let pref_non_me := filter (fun n => negb (_is_me n)) pref_names in
  st <- fold_result (assign_remaining pref_non_me) (enumerate_from 0 blocks) st ;;
  Ok (map (fun kv => if _is_me (snd kv) then (fst kv, ME_FULLNAME) else kv) (mapping st)).

End Speakers.

(* ------------------------------------------------------------------ *)
(** ** What the specification says, in its own words *)

(** The per-type weights as section 6 of the specification lists them. *)
Definition spec_weights (session_type : str) : weights :=
  if str_eqb session_type (lit "1-on-1")
  then {| w_overlap := 70 # 100; w_title := 15 # 100; w_time := 15 # 100 |}
  else if str_eqb session_type (lit "internal-sync")
  then {| w_overlap := 65 # 100; w_title := 20 # 100; w_time := 15 # 100 |}
  else if str_eqb session_type (lit "external-sync")
  then {| w_overlap := 75 # 100; w_title := 10 # 100; w_time := 15 # 100 |}
  else if str_eqb session_type (lit "note-to-self")
  then {| w_overlap := 60 # 100; w_title := 10 # 100; w_time := 30 # 100 |}
  else {| w_overlap := 60 # 100; w_title := 25 # 100; w_time := 15 # 100 |}.

(** The composite as the specification states it: the weighted sum, with
    the weights re-scaled when a snippet is supplied, plus the additive
    adjustments. *)
Definition spec_composite (w : weights) (snippet_supplied : bool) (t : terms) : Q :=
  (if snippet_supplied
   then ((2 # 10) * w_overlap w) * t_overlap t
        + ((2 # 10) * w_title w) * t_title_score t
        + ((5 # 10) * w_time w) * t_time_score t
        + (60 # 100) * t_transcript_score t
   else w_overlap w * t_overlap t + w_title w * t_title_score t + w_time w * t_time_score t)
  + t_same_day_bonus t + t_set_bonus t - t_set_penalty t - t_group_size_penalty t.


(** The time score as the specification states it: the midpoint is the
    average of start and end when both are there, else the bound that is
    there, else the centre of the window; the score is
    [max(0, 1 - |midpoint - centre| / span)]. *)
Definition spec_midpoint (window_center : Z) (m : MeetingRow) : Q :=
  match row_start m, row_end m with
  | Some s, Some e => (inject_Z s + inject_Z e) / 2
  | Some q, None | None, Some q => inject_Z q
  | None, None => inject_Z window_center
  end.

Definition spec_time_score (window_center lo_ms hi_ms : Z) (m : MeetingRow) : Q :=
  pymax 0 (1 - Qabs' (spec_midpoint window_center m - inject_Z window_center)
               / inject_Z (hi_ms - lo_ms)).

(** The normal form that the specification gives both sides of the snippet
    comparison: white space collapsed, quote variants made plain, label
    prefixes removed. *)
Definition spec_normalize (s : str) : str :=
  strip_labels (normalize_quotes (collapse_ws s)).

(* ------------------------------------------------------------------ *)
(** ** Sample data *)

(** The defaults of [config.example.py]. *)
Definition example_config : QuillConfig :=
  {| canonical_name := lit "Your Name";
     aliases := [lit "me"; lit "your-first-name"];
     window_hours := 36 |}.

(** A stand-in for the runtime, used where an example needs one and does
    not depend on it: identical texts have ratio 1 and others 0, no text
    decodes as JSON. *)
Definition plain_runtime : runtime :=
  {| ratio := fun a b => if str_eqb a b then 1 else 0;
     json_loads := fun _ => None;
     repr := fun _ => [] |}.

Definition no_pending : pending :=
  {| pd_meeting_date := None; pd_meeting_title := None; pd_session_type := None;
     pd_participants := None; pd_quill_meeting_id := None;
     pd_quill_start_ms := None; pd_quill_end_ms := None;
     pd_quill_title := None; pd_transcript_snippet := None |}.

(** 2024-03-10 12:00 UTC, in milliseconds. *)
Definition noon_2024_03_10 : Z := 1710072000000.

Definition hours (h : Z) : Z := (h * 3600000)%Z.

(** A stored meeting around [start, end] with a transcript. *)
Definition meeting (id participants : string) (start_ms end_ms : option Z) : MeetingRow :=
  {| row_id := lit id; row_title := Some (lit "Weekly");
     row_participants := Some (lit participants); row_speakers_json := None;
     row_start := start_ms; row_end := end_ms;
     row_audio_transcript := Some (lit "[]") |}.

Definition store_of (rows : list MeetingRow) : database :=
  {| has_Meeting := true; Meeting := map (fun m => (m, None)) rows;
     ContactMeeting := []; Contact := [] |}.

(** A 1-on-1 of two people, from 11:00 to 13:00 UTC on 2024-03-10. *)
Definition jane_meeting : MeetingRow :=
  meeting "m-jane" "Jane Doe, Your Name"
          (Some (noon_2024_03_10 - hours 1)%Z) (Some (noon_2024_03_10 + hours 1)%Z).

Definition jane_pending : pending :=
  {| pd_meeting_date := Some (lit "2024-03-10"); pd_meeting_title := None;
     pd_session_type := Some (lit "1-on-1");
     pd_participants := Some [lit "Jane Doe"; lit "Your Name"];
     pd_quill_meeting_id := None; pd_quill_start_ms := None; pd_quill_end_ms := None;
     pd_quill_title := None; pd_transcript_snippet := None |}.

(** Four desired names, none of them in the meeting. *)
Definition strangers_pending : pending :=
  {| pd_meeting_date := Some (lit "2024-03-10"); pd_meeting_title := None;
     pd_session_type := None;
     pd_participants :=
       Some [lit "Alice Smith"; lit "Bob Jones"; lit "Carol White"; lit "Dan Brown"];
     pd_quill_meeting_id := None; pd_quill_start_ms := None; pd_quill_end_ms := None;
     pd_quill_title := None; pd_transcript_snippet := None |}.

Definition eve_meeting : MeetingRow :=
  meeting "m-eve" "Eve Black"
          (Some (noon_2024_03_10 - hours 1)%Z) (Some (noon_2024_03_10 + hours 1)%Z).

(** A block [{speaker_id, source, text}]. *)
Definition spoken (speaker_id source text : string) : block :=
  [(lit "speaker_id", PStr (lit speaker_id)); (lit "source", PStr (lit source));
   (lit "text", PStr (lit text))].

(** A stored meeting whose start is unknown and whose end is the noon of
    2024-03-10. *)
Definition end_only_meeting : MeetingRow :=
  meeting "m-end" "Jane Doe" None (Some noon_2024_03_10).

(** 1970-01-01 12:00 UTC, in milliseconds, a meeting of two hours around
    the midnight before it (from 23:00 to 01:00 UTC, the instant 0 in its
    middle), and the pending record of that day. *)
Definition noon_1970_01_01 : Z := 43200000.

Definition epoch_meeting : MeetingRow :=
  meeting "m-epoch" "Jane Doe, Your Name" (Some (- hours 1)%Z) (Some (hours 1)).

Definition epoch_pending : pending :=
  {| pd_meeting_date := Some (lit "1970-01-01"); pd_meeting_title := None;
     pd_session_type := Some (lit "1-on-1");
     pd_participants := Some [lit "Jane Doe"; lit "Your Name"];
     pd_quill_meeting_id := None; pd_quill_start_ms := None; pd_quill_end_ms := None;
     pd_quill_title := None; pd_transcript_snippet := None |}.

(** The pending record of Jane's 1-on-1, with the identifier of another
    stored meeting. *)
Definition eve_by_id_pending : pending :=
  {| pd_meeting_date := Some (lit "2024-03-10"); pd_meeting_title := None;
     pd_session_type := Some (lit "1-on-1");
     pd_participants := Some [lit "Jane Doe"; lit "Your Name"];
     pd_quill_meeting_id := Some (lit "m-eve");
     pd_quill_start_ms := None; pd_quill_end_ms := None;
     pd_quill_title := None; pd_transcript_snippet := None |}.

(** A meeting whose participants are stored by first name, and a pending
    record that desires the same two people by full name. *)
Definition first_names_meeting : MeetingRow :=
  meeting "m-first" "Jane, Bob"
          (Some (noon_2024_03_10 - hours 1)%Z) (Some (noon_2024_03_10 + hours 1)%Z).

Definition full_names_pending : pending :=
  {| pd_meeting_date := Some (lit "2024-03-10"); pd_meeting_title := None;
     pd_session_type := None;
     pd_participants := Some [lit "Jane Doe"; lit "Bob Smith"];
     pd_quill_meeting_id := None; pd_quill_start_ms := None; pd_quill_end_ms := None;
     pd_quill_title := None; pd_transcript_snippet := None |}.





(** A text between two plain double quotes. *)
Definition quoted (s : str) : str := 34%N :: s ++ [34%N].

(** The JSON text of a transcript of one block, for a text that JSON writes
    as it is, and the value that [json.loads] decodes it to. *)
Definition one_block_json (text : str) : str :=
  lit "[{" ++ quoted (lit "text") ++ lit ": " ++ quoted text ++ lit "}]".

Definition one_block (text : str) : pyval :=
  PList [PDict [(lit "text", PStr text)]].

(** The word hi between two double primes (U+2033). *)
Definition double_prime_text : str := [8243; 104; 105; 8243]%N.

(** A snippet with and without a speaker label, and the text of a
    transcript that holds it after a greeting. *)
Definition plain_snippet : str := lit "hello world".
Definition labelled_snippet : str := lit "Speaker 1: hello world".
Definition greeting_text : str := lit "Good morning all, hello world".



(* ------------------------------------------------------------------ *)
(** ** Conditions on the store *)

(** The starts that [same_local_calendar_day] can turn into a local date:
    the instants of a [datetime] that stay so six hours earlier. *)
Definition start_in_datetime_range (t : Z) : Prop :=
  (MIN_DATETIME_MS + 6 * 3600000 <= t < MAX_DATETIME_MS)%Z.

(* ------------------------------------------------------------------ *)
From Stdlib Require Import Lqa.

(** ** Conditions on the runtime *)

(** A ratio of [difflib] lies between 0 and 1. *)
Definition ratio_in_unit (rt : runtime) : Prop :=
  forall a b, 0 <= ratio rt a b /\ ratio rt a b <= 1.

(* ------------------------------------------------------------------ *)
(** ** The order of the rows fetched *)



(* ------------------------------------------------------------------ *)
(** ** The calendar *)

(** The day of the year that begins on the first of March, as
    [days_from_civil] counts it. *)
Definition doy_of (m d : Z) : Z :=
  ((153 * (if 2 <? m then m - 3 else m + 9) + 2) / 5 + d - 1)%Z.

(** A date of the calendar. *)
Definition valid_date (ymd : Z * Z * Z) : Prop :=
  let '(y, m, d) := ymd in
  (1 <= y <= 9999 /\ 1 <= m <= 12 /\ 1 <= d <= days_in_month y m)%Z.

(* ------------------------------------------------------------------ *)
(** ** Conditions on texts *)

(** The characters of a normalized title: small letters, digits and the
    plain space. *)
Definition title_char_ok (c : N) : Prop :=
  is_lower_az c = true \/ is_digit c = true \/ c = 32%N.

(* ------------------------------------------------------------------ *)
(** ** Conditions on blocks *)

(** A block whose source and text, when it has them, are strings (or are
    empty or null): the string methods that [_first_appearance_mapping] and
    [_group_consecutive_blocks] call on them do not raise. *)
Definition texts_are_strings (b : block) : Prop :=
  (exists source, text_or_empty (dict_get (lit "source") b) = Ok source)
  /\ (exists text, text_or_empty (dict_get (lit "text") b) = Ok text).

(* ------------------------------------------------------------------ *)
(** ** More sample data *)

(** A runtime that decodes the one-block transcript of the greeting; the
    ratio of two texts is 1 when they are the same and 1/2 otherwise. *)
Definition greeting_runtime : runtime :=
  {| ratio := fun a b => if str_eqb a b then 1 else 1 # 2;
     json_loads := fun s =>
       if str_eqb s (one_block_json greeting_text) then Some (one_block greeting_text)
       else None;
     repr := fun _ => [] |}.

(** A stored meeting that has started at the noon of 2024-03-10 and has no
    end, and a pending record of that day with its title. *)
Definition open_ended_meeting : MeetingRow :=
  meeting "m-open" "Jane Doe" (Some noon_2024_03_10) None.

Definition weekly_pending : pending :=
  {| pd_meeting_date := Some (lit "2024-03-10"); pd_meeting_title := Some (lit "Weekly");
     pd_session_type := None; pd_participants := None;
     pd_quill_meeting_id := None; pd_quill_start_ms := None; pd_quill_end_ms := None;
     pd_quill_title := None; pd_transcript_snippet := None |}.

(** A stored meeting whose transcript is the greeting. *)
Definition greeting_meeting : MeetingRow :=
  {| row_id := lit "m-greeting"; row_title := Some (lit "Weekly sync");
     row_participants := Some (lit "Jane Doe, Your Name"); row_speakers_json := None;
     row_start := Some (noon_2024_03_10 - hours 1)%Z;
     row_end := Some (noon_2024_03_10 + hours 1)%Z;
     row_audio_transcript := Some (one_block_json greeting_text) |}.

(* ------------------------------------------------------------------ *)
(** ** Validation ([validation.py]) *)

Definition is_hex (c : N) : bool :=
  is_digit c || in_range 97 102 c || in_range 65 70 c.

(** A run of exactly [n] hexadecimal digits at the head of [s]: the rest. *)
Fixpoint hex_run (n : nat) (s : str) : option str :=
  match n with
  | O => Some s
  | S n' =>
      match s with
      | c :: r => if is_hex c then hex_run n' r else None
      | [] => None
      end
  end.

(** A dash at the head of [s]: the rest. *)
Definition dash (s : str) : option str :=
  match s with
  | c :: r => if N.eqb c 45 then Some r else None
  | [] => None
  end.

Definition and_then {A B : Type} (m : option A) (k : A -> option B) : option B :=
  match m with
  | Some a => k a
  | None => None
  end.

(** [uuid_pattern.match(s)]: five runs of 8, 4, 4, 4 and 12 hexadecimal
    digits between dashes, letters of either case, up to the end of the
    text or to a line feed that ends it. *)
Definition uuid_match (s : str) : bool :=
  match and_then (hex_run 8 s) (fun r =>
        and_then (dash r) (fun r =>
        and_then (hex_run 4 r) (fun r =>
        and_then (dash r) (fun r =>
        and_then (hex_run 4 r) (fun r =>
        and_then (dash r) (fun r =>
        and_then (hex_run 4 r) (fun r =>
        and_then (dash r) (fun r => hex_run 12 r)))))))) with
  | Some [] => true
  | Some [c] => N.eqb c 10
  | _ => false
  end.

Definition validate_meeting_id (meeting_id : pyval) : bool :=
  match meeting_id with
  | PStr (c :: s) => uuid_match (c :: s)
  | _ => false
  end.

Definition validate_date_format (date_str : pyval) : bool :=
  match date_str with
  | PStr (c :: s) =>
      match strptime_ymd (c :: s) with
      | Ok _ => true
      | Raise _ => false
      end
  | _ => false
  end.

Definition min_ms : Z := 946684800000.
Definition max_ms : Z := 1893456000000.

(** [validate_timestamp_ms]; a [bool] is an [int] of Python, 0 or 1, and
    lies below the range. *)
Definition validate_timestamp_ms (timestamp : pyval) : bool :=
  match timestamp with
  | PNone => true
  | PInt z => Z.leb min_ms z && Z.leb z max_ms
  | _ => false
  end.

Definition valid_types : list str :=
  [lit "1-on-1"; lit "internal-sync"; lit "external-sync"; lit "note-to-self"; lit "default"].

Definition validate_session_type (session_type : str) : bool := mem session_type valid_types.

Definition validate_participants (participants : pyval) : bool :=
  match participants with
  | PList l =>
      forallb (fun p => match p with
                        | PStr s => nonempty (strip s)
                        | _ => false
                        end) l
  | _ => false
  end.

(** The loop over the required fields of [validate_webhook_payload]: the
    message of the first one that is missing or empty. *)
Fixpoint required_fields (fields : list str) (payload : list (str * pyval)) : option str :=
  match fields with
  | [] => None
  | field :: r =>
      match dict_get field payload with
      | None => Some (lit "Missing required field: " ++ field)
      | Some v =>
          if truthy v then required_fields r payload
          else Some (lit "Empty required field: " ++ field)
      end
  end.

(** A field that is in the payload: [payload[field]]. *)
Definition present (field : str) (payload : list (str * pyval)) : option pyval :=
  dict_get field payload.

Definition validate_webhook_payload (payload : list (str * pyval)) : bool * option str :=
  match required_fields [lit "summary_markdown"; lit "meeting_title"; lit "meeting_date"]
                        payload with
  | Some msg => (false, Some msg)
  | None =>
      if negb (validate_date_format
                 (match present (lit "meeting_date") payload with
                  | Some v => v
                  | None => PNone
                  end))
      then (false, Some (lit "Invalid date format. Expected YYYY-MM-DD"))
      else if match present (lit "quill_meeting_id") payload with
              | Some v => truthy v && negb (validate_meeting_id v)
              | None => false
              end
      then (false, Some (lit "Invalid meeting ID format"))
      else if match present (lit "quill_start_ms") payload with
              | Some PNone | None => false
              | Some v => negb (validate_timestamp_ms v)
              end
      then (false, Some (lit "Invalid start timestamp"))
      else if match present (lit "quill_end_ms") payload with
              | Some PNone | None => false
              | Some v => negb (validate_timestamp_ms v)
              end
      then (false, Some (lit "Invalid end timestamp"))
      else (true, None)
  end.

(** What [payload.get(key)] gives the pending record when it is a string,
    and when it is an integer. *)
Definition payload_str (key : str) (payload : list (str * pyval)) : option str :=
  match dict_get key payload with
  | Some (PStr s) => Some s
  | _ => None
  end.

Definition payload_int (key : str) (payload : list (str * pyval)) : option Z :=
  match dict_get key payload with
  | Some (PInt z) => Some z
  | _ => None
  end.

(** [infer_session_type_from_title] *)
Definition infer_session_type_from_title (meeting_title : option str) : str :=
  let t := lower (str_or meeting_title []) in
  if contains (lit "1:1") t || contains (lit "1-1") t || contains (lit "1 on 1") t
  then lit "1-on-1"
  else if contains (lit "sync") t && contains (lit "external") t then lit "external-sync"
  else if contains (lit "sync") t then lit "internal-sync"
  else if contains (lit "note") t && contains (lit "self") t then lit "note-to-self"
  else lit "default".

(* ------------------------------------------------------------------ *)
(** ** Sample payloads *)

(** The payload of a summary of Jane's 1-on-1, with the Quill bounds of
    the stored meeting. *)
Definition jane_payload : list (str * pyval) :=
  [ (lit "summary_markdown", PStr (lit "# Notes"));
    (lit "meeting_title", PStr (lit "Jane 1:1"));
    (lit "meeting_date", PStr (lit "2024-03-10"));
    (lit "quill_start_ms", PInt (noon_2024_03_10 - hours 1)%Z);
    (lit "quill_end_ms", PInt (noon_2024_03_10 + hours 1)%Z) ].

(** The pending record that holds the date and the bounds of the payload. *)
Definition jane_payload_pending : pending :=
  {| pd_meeting_date := Some (lit "2024-03-10"); pd_meeting_title := Some (lit "Jane 1:1");
     pd_session_type := Some (lit "1-on-1"); pd_participants := None;
     pd_quill_meeting_id := None;
     pd_quill_start_ms := Some (noon_2024_03_10 - hours 1)%Z;
     pd_quill_end_ms := Some (noon_2024_03_10 + hours 1)%Z;
     pd_quill_title := None; pd_transcript_snippet := None |}.

(* ------------------------------------------------------------------ *)
(** ** File names ([validation.py]) *)

(** The pairs of [char_replacements]: the colon becomes the modifier letter
    colon U+02D0, the dashes the en dash U+2013, the slashes and the bar a
    hyphen, the asterisk U+2217, the question mark U+FF1F, the double quote
    an apostrophe, the angle brackets parentheses. *)
Definition char_replacements : list (N * N) :=
  [ (58, 720); (8211, 8211); (8212, 8211); (47, 45); (92, 45); (42, 8727);
    (63, 65311); (34, 39); (39, 39); (60, 40); (62, 41); (124, 45) ]%N.

(** The class [unsafe_chars]: backslash, slash, colon, asterisk, question
    mark, double quote, angle brackets and bar. *)
Definition unsafe_char (c : N) : bool :=
  N.eqb c 92 || N.eqb c 47 || N.eqb c 58 || N.eqb c 42 || N.eqb c 63
  || N.eqb c 34 || N.eqb c 60 || N.eqb c 62 || N.eqb c 124.

Definition sanitize_filename (filename : option str) : str :=
  match filename with
  | None | Some [] => lit "untitled"
  | Some filename =>
      let filename :=
        fold_left (fun s (p : N * N) => replace_char (fst p) [snd p] s)
                  char_replacements filename in
      let filename := map (fun c => if unsafe_char c then 8211%N else c) filename in
      let filename := strip (collapse_ws filename) in
      let filename :=
        if Nat.ltb 200 (length filename) then firstn 200 filename else filename in
      match filename with
      | [] => lit "untitled"
      | _ => filename
      end
  end.

(** [safe_filename] of [quill_server.py] *)
Definition safe_filename (name : option str) : str := sanitize_filename name.

(* ------------------------------------------------------------------ *)
(** ** Grouping the blocks of a transcript *)

(** [s.replace(old, "")] for a token [old] that is not empty: its
    occurrences are found from the left and do not overlap. *)
Fixpoint remove_all_from (old : str) (skip : nat) (s : str) : str :=
  match s with
  | [] => []
  | c :: r =>
      match skip with
      | S k => remove_all_from old k r
      | O =>
          if startswith old s then remove_all_from old (length old - 1) r
          else c :: remove_all_from old 0 r
      end
  end.

Definition remove_all (old : str) (s : str) : str := remove_all_from old 0 s.

(** The state of the loop of [_group_consecutive_blocks]. *)
Record grouping : Type := {
  grouped : list (option str * str);
  last_key : option str;
  buf : list str
}.

(** [if buf:] on a list *)
Definition nonempty_list {A : Type} (l : list A) : bool :=
  match l with
  | [] => false
  | _ :: _ => true
  end.

Definition same_key (key : str) (last : option str) : bool :=
  match last with
  | Some k => str_eqb key k
  | None => false
  end.

Section Grouping.

Variable rt : runtime.

(** One turn of the loop [for idx, b in enumerate(blocks)]. *)
Definition group_block (st : grouping) (ib : nat * block) : result grouping :=
  let '(idx, b) := ib in
  let key := _speaker_key rt b idx in
  text <- text_or_empty (dict_get (lit "text") b) ;;
  let txt := strip text in
  if is_empty txt then Ok st
  else
    let txt := strip (remove_all (lit "<SNIP>") txt) in
    if is_empty txt then Ok st
    else
      let st :=
        if negb (same_key key (last_key st)) && nonempty_list (buf st)
        then {| grouped := grouped st ++ [(last_key st, strip (join [32%N] (buf st)))];
                last_key := last_key st;
                buf := [] |}
        else st in
      Ok {| grouped := grouped st; last_key := Some key; buf := buf st ++ [txt] |}.

Definition _group_consecutive_blocks (blocks : list block)
  : result (list (option str * str)) :=
  st <- fold_result group_block (enumerate_from 0 blocks)
          {| grouped := []; last_key := None; buf := [] |} ;;
  match buf st, last_key st with
  | _ :: _, Some _ => Ok (grouped st ++ [(last_key st, strip (join [32%N] (buf st)))])
  | _, _ => Ok (grouped st)
  end.

End Grouping.

(** A text that holds a character that is no white space. *)
Definition has_ink (s : str) : Prop := exists c, In c s /\ is_space c = false.

(** Neighbours in the list of groups have different keys. *)
Fixpoint neighbours_differ (groups : list (option str * str)) : Prop :=
  match groups with
  | [] => True
  | x :: r =>
      match r with
      | [] => True
      | y :: _ => fst x <> fst y /\ neighbours_differ r
      end
  end.

(** A group as [_group_consecutive_blocks] should give it: with a key, and
    with a text that is stripped and not empty. *)
Definition group_ok (g : option str * str) : Prop :=
  fst g <> None /\ snd g <> [] /\ strip (snd g) = snd g.

(** What the loop of [_group_consecutive_blocks] keeps true, after [n]
    blocks. *)
Definition grouping_invariant (n : nat) (st : grouping) : Prop :=
  Forall group_ok (grouped st)
  /\ neighbours_differ (grouped st)
  /\ Forall has_ink (buf st)
  /\ match buf st with
     | [] => grouped st = []
     | _ :: _ =>
         exists k, last_key st = Some k
                   /\ forall pre g, grouped st = pre ++ [g] -> fst g <> Some k
     end
  /\ (length (grouped st) + (if nonempty_list (buf st) then 1 else 0) <= n)%nat.

(* ------------------------------------------------------------------ *)
(** * Theorems *)

(** ** Basic facts *)

Lemma str_eqb_refl : forall s, str_eqb s s = true.
Proof.
  induction s as [|c s IH]; simpl; [reflexivity|].
  now rewrite N.eqb_refl, IH.
Qed.

Lemma str_eqb_eq : forall a b, str_eqb a b = true <-> a = b.
Proof.
  induction a as [|x a IH]; destruct b as [|y b]; simpl; split; intro H;
    try reflexivity; try discriminate.
  - apply andb_true_iff in H as [H1 H2]. apply N.eqb_eq in H1.
    apply IH in H2. now subst.
  - inversion H; subst. now rewrite N.eqb_refl, str_eqb_refl.
Qed.

Lemma mem_In : forall x l, mem x l = true <-> In x l.
Proof.
  intros x l. unfold mem. rewrite existsb_exists. split.
  - intros [y [Hy He]]. apply str_eqb_eq in He. now subst.
  - intros H. exists x. split; [assumption | apply str_eqb_refl].
Qed.

Lemma Qltb_lt : forall a b, Qltb a b = true <-> a < b.
Proof.
  intros a b. unfold Qltb. rewrite negb_true_iff. split; intro H.
  - apply Qnot_le_lt. intro Hle. apply Qle_bool_iff in Hle. congruence.
  - destruct (Qle_bool b a) eqn:E; [|reflexivity].
    apply Qle_bool_iff in E. exfalso. apply (Qlt_not_le _ _ H E).
Qed.

Lemma Qltb_ge : forall a b, Qltb a b = false <-> b <= a.
Proof.
  intros a b. unfold Qltb. rewrite negb_false_iff. apply Qle_bool_iff.
Qed.

Lemma table_weights : forall session_type,
  table_get WEIGHT_TABLE session_type default_weights = spec_weights session_type.
Proof.
  intro st. unfold WEIGHT_TABLE, spec_weights, default_weights. simpl.
  repeat match goal with |- context [str_eqb st ?k] => destruct (str_eqb st k) end;
    reflexivity.
Qed.

(** The composite that the code assembles is the one the specification
    states, whatever the terms are. *)
Lemma compose_spec : forall session_type transcript_snippet t,
  compose session_type transcript_snippet t
  == spec_composite (spec_weights session_type) (opt_nonempty transcript_snippet) t.
Proof.
  intros st snip t. unfold compose, spec_composite.
  rewrite table_weights.
  destruct (opt_nonempty snip); ring.
Qed.

(** What each term of the composite is. *)
Lemma score_terms_fields :
  forall rt cfg session_type meeting_date needle_title desired_participants
         center_ms lo_ms hi_ms m cur transcript_snippet t,
  score_terms rt cfg session_type meeting_date needle_title desired_participants
              center_ms lo_ms hi_ms m cur transcript_snippet = Ok t ->
  let db_parts := derive_db_participants rt cfg m cur in
  let desired := stripped_names desired_participants in
  t_overlap t = participant_overlap_fuzzy cfg desired db_parts
  /\ t_title_score t = title_similarity rt (or_empty needle_title) (or_empty (row_title m))
  /\ t_time_score t = time_proximity center_ms lo_ms hi_ms m
  /\ t_transcript_score t = transcript_match rt transcript_snippet (row_audio_transcript m)
  /\ (t_same_day_bonus t = 10 # 100 /\ same_local_calendar_day meeting_date (row_start m) = Ok true
      \/ t_same_day_bonus t = 0 /\ same_local_calendar_day meeting_date (row_start m) = Ok false)
  /\ (t_set_bonus t, t_set_penalty t) = set_adjustments session_type desired db_parts
  /\ t_group_size_penalty t = group_size_penalty_of session_type db_parts.
Proof.
  intros rt cfg st md nt dp c lo hi m cur snip t H. unfold score_terms in H.
  destruct (same_local_calendar_day md (row_start m)) as [same|e] eqn:Esame;
    simpl in H; [|discriminate].
  destruct (set_adjustments st (stripped_names dp) (derive_db_participants rt cfg m cur))
    as [sb sp] eqn:Eset.
  inversion H; subst; clear H. simpl. rewrite Eset.
  repeat split; try reflexivity.
  destruct same; [left | right]; split; reflexivity.
Qed.

(** C1. For every candidate and session type, the composite that
    [compute_score] returns is the weighted sum plus the additive
    adjustments: with a transcript snippet supplied,
    (0.2*w_overlap)*overlap + (0.2*w_title)*title_score +
    (0.5*w_time)*time_score + 0.60*transcript_score + same_day_bonus +
    set_bonus - set_penalty - group_size_penalty, and without one
    w_overlap*overlap + w_title*title_score + w_time*time_score plus the
    same adjustments, where the weights are the session type's entry of the
    weight table. [compute_score] returns exactly when the terms are
    computed, and raises what their computation raises. *)
Theorem C1_composite_is_weighted_sum :
  forall rt cfg session_type meeting_date needle_title desired_participants
         center_ms lo_ms hi_ms m cur transcript_snippet,
  match compute_score rt cfg session_type meeting_date needle_title desired_participants
                      center_ms lo_ms hi_ms m cur transcript_snippet,
        score_terms rt cfg session_type meeting_date needle_title desired_participants
                    center_ms lo_ms hi_ms m cur transcript_snippet with
  | Ok (composite, _), Ok t =>
      composite == spec_composite (spec_weights session_type)
                                  (opt_nonempty transcript_snippet) t
  | Raise e, Raise e' => e = e'
  | _, _ => False
  end.
Proof.
  intros. unfold compute_score.
  destruct (score_terms rt cfg session_type meeting_date needle_title desired_participants
                        center_ms lo_ms hi_ms m cur transcript_snippet) as [t|e]; simpl.
  - apply compose_spec.
  - reflexivity.
Qed.

(** The thresholds that the composite is compared with lie in [0.35, 0.45]. *)
Lemma thresholds_bounded : forall session_type,
  35 # 100 <= table_get CONFIDENCE_THRESHOLDS session_type (40 # 100)
  /\ table_get CONFIDENCE_THRESHOLDS session_type (40 # 100) <= 45 # 100.
Proof.
  intro st. unfold CONFIDENCE_THRESHOLDS. simpl.
  repeat match goal with |- context [str_eqb st ?k] => destruct (str_eqb st k) end;
    split; unfold Qle; simpl; lia.
Qed.

(** C10. The composite of [compute_score] is not clamped to [0, 1]: a
    1-on-1 session with full participant overlap, an exact 2-person set
    match and a start on the same local day scores above 1, a candidate that
    misses four desired participants scores below 0, and the thresholds the
    composite is compared with lie in [0.35, 0.45]. *)
Theorem C10_composite_not_clamped :
  forall rt,
  (exists composite parts,
      compute_score rt example_config (lit "1-on-1") (Some (lit "2024-03-10")) None
                    (desired_of jane_pending)
                    noon_2024_03_10 (noon_2024_03_10 - hours 36)%Z (noon_2024_03_10 + hours 36)%Z
                    jane_meeting (Some (store_of [jane_meeting])) None
      = Ok (composite, parts)
      /\ 1 < composite)
  /\ (exists composite parts,
      compute_score rt example_config (lit "default") (Some (lit "2024-03-10")) None
                    (desired_of strangers_pending)
                    noon_2024_03_10 (noon_2024_03_10 - hours 36)%Z (noon_2024_03_10 + hours 36)%Z
                    eve_meeting (Some (store_of [eve_meeting])) None
      = Ok (composite, parts)
      /\ composite < 0)
  /\ (forall session_type,
      35 # 100 <= table_get CONFIDENCE_THRESHOLDS session_type (40 # 100)
      /\ table_get CONFIDENCE_THRESHOLDS session_type (40 # 100) <= 45 # 100).
Proof.
  intro rt. split; [|split].
  - eexists. eexists. split.
    + vm_compute. reflexivity.
    + vm_compute. reflexivity.
  - eexists. eexists. split.
    + vm_compute. reflexivity.
    + vm_compute. reflexivity.
  - apply thresholds_bounded.
Qed.

(* ------------------------------------------------------------------ *)
(** ** Time proximity *)

Lemma time_midpoint_both : forall center_ms m s e,
  row_start m = Some s -> row_end m = Some e ->
  time_midpoint center_ms m = ((s + e) / 2)%Z.
Proof. intros c m s e Hs He. unfold time_midpoint. now rewrite Hs, He. Qed.

Lemma time_midpoint_start_only : forall center_ms m s,
  row_start m = Some s -> row_end m = None ->
  time_midpoint center_ms m = s.
Proof. intros c m s Hs He. unfold time_midpoint. now rewrite Hs, He. Qed.

Lemma time_midpoint_neither : forall center_ms m,
  row_start m = None -> row_end m = None ->
  time_midpoint center_ms m = center_ms.
Proof. intros c m Hs He. unfold time_midpoint. now rewrite Hs, He. Qed.

(** With an end and no start, the midpoint is the centre plus the end. *)
Lemma time_midpoint_end_only : forall center_ms m e,
  row_start m = None -> row_end m = Some e ->
  time_midpoint center_ms m = (center_ms + e)%Z.
Proof. intros c m e Hs He. unfold time_midpoint. now rewrite Hs, He. Qed.

Lemma pymax_0_nonneg : forall q, 0 <= q -> pymax 0 q == q.
Proof.
  intros q Hq. unfold pymax. destruct (Qltb 0 q) eqn:E; [reflexivity|].
  apply Qltb_ge in E. apply Qle_antisym; assumption.
Qed.

Lemma pymax_0_le : forall a b, a <= b -> pymax 0 a <= pymax 0 b.
Proof.
  intros a b Hab. unfold pymax.
  destruct (Qltb 0 a) eqn:Ea; destruct (Qltb 0 b) eqn:Eb;
    try apply Qltb_lt in Ea; try apply Qltb_lt in Eb;
    try apply Qltb_ge in Ea; try apply Qltb_ge in Eb.
  - assumption.
  - exfalso. apply (Qlt_not_le _ _ Ea). eapply Qle_trans; eassumption.
  - apply Qlt_le_weak. assumption.
  - apply Qle_refl.
Qed.

Lemma span_positive : forall lo_ms hi_ms, 0 < inject_Z (Z.max 1 (hi_ms - lo_ms)).
Proof.
  intros lo hi. unfold Qlt. simpl. lia.
Qed.

(** The time score is 1 when the midpoint is the window centre. *)
Lemma time_proximity_at_center : forall center_ms lo_ms hi_ms m,
  time_midpoint center_ms m = center_ms ->
  time_proximity center_ms lo_ms hi_ms m == 1.
Proof.
  intros c lo hi m H. unfold time_proximity. rewrite H.
  assert (E : (if (c =? 0)%Z then c else c) = c) by (destruct (c =? 0)%Z; reflexivity).
  rewrite E, Z.sub_diag. simpl Z.abs.
  assert (Hz : inject_Z 0 / inject_Z (Z.max 1 (hi - lo)) == 0).
  { unfold Qdiv. apply Qmult_0_l. }
  rewrite pymax_0_nonneg; rewrite Hz; [ring | unfold Qle; simpl; lia].
Qed.

(** The time score does not grow with the distance of the midpoint from
    the centre (for midpoints other than 0). *)
Lemma time_proximity_monotone : forall center_ms lo_ms hi_ms m1 m2,
  time_midpoint center_ms m1 <> 0%Z -> time_midpoint center_ms m2 <> 0%Z ->
  (Z.abs (time_midpoint center_ms m1 - center_ms)
   <= Z.abs (time_midpoint center_ms m2 - center_ms))%Z ->
  time_proximity center_ms lo_ms hi_ms m2 <= time_proximity center_ms lo_ms hi_ms m1.
Proof.
  intros c lo hi m1 m2 H1 H2 Hd. unfold time_proximity.
  apply Z.eqb_neq in H1. apply Z.eqb_neq in H2. rewrite H1, H2.
  apply pymax_0_le.
  apply Qplus_le_r. apply Qopp_le_compat.
  unfold Qdiv. apply Qmult_le_compat_r.
  - rewrite <- Zle_Qle. assumption.
  - apply Qlt_le_weak. apply Qinv_lt_0_compat. apply span_positive.
Qed.

(** A row with an end and no start, were [compute_score] given one: for an
    end at the window centre the midpoint is the centre plus the end, and
    the time score is 0. *)
Lemma end_only_midpoint_adds_center :
  time_midpoint noon_2024_03_10 end_only_meeting = (noon_2024_03_10 + noon_2024_03_10)%Z
  /\ time_proximity noon_2024_03_10 (noon_2024_03_10 - hours 36)%Z
                    (noon_2024_03_10 + hours 36)%Z end_only_meeting == 0.
Proof.
  split.
  - reflexivity.
  - vm_compute. reflexivity.
Qed.

(** A midpoint of 0 is taken for a missing one: the score is that of the
    centre. *)
Lemma time_proximity_zero_midpoint : forall center_ms lo_ms hi_ms m,
  time_midpoint center_ms m = 0%Z ->
  time_proximity center_ms lo_ms hi_ms m == 1.
Proof.
  intros c lo hi m H. unfold time_proximity. rewrite H.
  change (0 =? 0)%Z with true. cbv iota. rewrite Z.sub_diag. simpl Z.abs.
  assert (Hz : inject_Z 0 / inject_Z (Z.max 1 (hi - lo)) == 0).
  { unfold Qdiv. apply Qmult_0_l. }
  rewrite pymax_0_nonneg; rewrite Hz; [ring | unfold Qle; simpl; lia].
Qed.

(* ------------------------------------------------------------------ *)
(** ** Speaker attribution *)

(** C8. The mapping of [_first_appearance_mapping] does not give the
    canonical self-name to exactly one key: two blocks of different speaker
    ids with sources "mic" and "local" both get it, and three blocks of
    which none has a local source leave it to nobody, while two speakers
    labelled alike share their name. *)
Theorem C8_self_name_not_unique :
  forall rt,
  _first_appearance_mapping rt example_config
    [spoken "A" "mic" "Hello"; spoken "B" "local" "Hi there"]
    [lit "Your Name"; lit "Jane Doe"] [] None None
  = Ok [(lit "id:A", lit "Your Name"); (lit "id:B", lit "Your Name")]
  /\ _first_appearance_mapping rt example_config
    [spoken "A" "remote" "Hello"; spoken "B" "remote" "Hi there"]
    [lit "Your Name"; lit "Jane Doe"] [] None None
  = Ok [(lit "id:A", lit "Jane Doe"); (lit "id:B", lit "Speaker 1")]
  /\ _first_appearance_mapping rt example_config
    [spoken "A" "remote" "Hello"; spoken "B" "remote" "Hi there"]
    [lit "Your Name"]
    [(lit "id:A", lit "Jane Doe"); (lit "id:B", lit "Jane Doe")] None None
  = Ok [(lit "id:A", lit "Jane Doe"); (lit "id:B", lit "Jane Doe")].
Proof.
  intro rt. repeat split; vm_compute; reflexivity.
Qed.

(* ------------------------------------------------------------------ *)
(** ** The selector: the identifier rule *)

(** C2. When the pending record carries a candidate identifier and the
    store holds a record of that identifier with transcript content,
    [find_best_candidate] returns that record with reason "id", whatever
    else the pending record and the store hold. *)
Theorem C2_id_rule :
  forall rt cfg db pd qid row,
  pd_quill_meeting_id pd = Some qid ->
  qid <> [] ->
  fetch_by_id db qid = Some row ->
  opt_nonempty (row_audio_transcript row) = true ->
  find_best_candidate rt cfg (Some db) pd = Ok (Some row, Some (lit "id"), []).
Proof.
  intros rt cfg db pd qid row Hid Hne Hfetch Haudio.
  unfold find_best_candidate. rewrite Hid.
  destruct qid as [|c s]; [congruence|].
  rewrite Hfetch, Haudio. reflexivity.
Qed.

Lemma C2_id_rule_witness :
  find_best_candidate plain_runtime example_config
    (Some (store_of [jane_meeting; eve_meeting])) eve_by_id_pending
  = Ok (Some eve_meeting, Some (lit "id"), []).
Proof.
  apply (@C2_id_rule plain_runtime example_config
           (store_of [jane_meeting; eve_meeting]) eve_by_id_pending
           (lit "m-eve") eve_meeting).
  - reflexivity.
  - discriminate.
  - reflexivity.
  - reflexivity.
Defined.

(* ------------------------------------------------------------------ *)
(** ** Title similarity *)

Lemma filter_all : forall (A : Type) (p : A -> bool) (l : list A),
  (forall x, In x l -> p x = true) -> filter p l = l.
Proof.
  intros A p l. induction l as [|x l IH]; intro H; simpl; [reflexivity|].
  rewrite (H x (or_introl eq_refl)). f_equal. apply IH.
  intros y Hy. apply H. now right.
Qed.

Lemma filter_none : forall (A : Type) (p : A -> bool) (l : list A),
  (forall x, In x l -> p x = false) -> filter p l = [].
Proof.
  intros A p l. induction l as [|x l IH]; intro H; simpl; [reflexivity|].
  rewrite (H x (or_introl eq_refl)). apply IH.
  intros y Hy. apply H. now right.
Qed.

Lemma inter_self : forall l, inter l l = l.
Proof.
  intro l. unfold inter. apply filter_all. intros x Hx. now apply mem_In.
Qed.

Lemma diff_self : forall l, diff l l = [].
Proof.
  intro l. unfold diff. apply filter_none. intros x Hx.
  apply negb_false_iff. now apply mem_In.
Qed.

Lemma set_of_nonempty : forall x l, set_of (x :: l) <> [].
Proof.
  intros x l. simpl. destruct (mem x (set_of l)) eqn:E.
  - apply mem_In in E. intro H. rewrite H in E. destruct E.
  - discriminate.
Qed.

(** The Jaccard overlap of a non-empty set of names with itself is 1. *)
Lemma participant_similarity_self : forall sa : list str,
  sa <> [] ->
  (if Nat.ltb 0 (length (sa ++ diff sa sa))
   then of_nat (length (inter sa sa)) / of_nat (length (sa ++ diff sa sa))
   else 0) == 1.
Proof.
  intros sa Hne. rewrite inter_self, diff_self, app_nil_r.
  destruct sa as [|x sa]; [congruence|]. simpl Nat.ltb. cbv iota.
  unfold of_nat. apply Qmult_inv_r.
  unfold Qeq. simpl. lia.
Qed.

Lemma meeting_kind_eqb_refl : forall k, meeting_kind_eqb k k = true.
Proof. destruct k; reflexivity. Qed.

(** The component score of a title against itself is 1 when a component
    applies, and 0 when none does. *)
Lemma component_similarity_self : forall rt c,
  (forall s, ratio rt s s == 1) ->
  calculate_component_similarity rt c c == 1
  \/ calculate_component_similarity rt c c == 0.
Proof.
  intros rt c Hrefl. unfold calculate_component_similarity.
  destruct (meeting_type c) as [k|]; destruct (participants c) as [|p ps] eqn:Ep;
    destruct (topic c) as [t|];
    try rewrite meeting_kind_eqb_refl;
    try (pose proof (participant_similarity_self (set_of_nonempty p ps)) as Hx;
         revert Hx;
         generalize (if Nat.ltb 0 (length (set_of (p :: ps) ++ diff (set_of (p :: ps)) (set_of (p :: ps))))
                     then of_nat (length (inter (set_of (p :: ps)) (set_of (p :: ps))))
                          / of_nat (length (set_of (p :: ps) ++ diff (set_of (p :: ps)) (set_of (p :: ps))))
                     else 0);
         intros x Hx);
    try (pose proof (Hrefl t) as Hr; revert Hr; generalize (ratio rt t t); intros r Hr);
    cbv beta iota zeta;
    match goal with
    | |- (if Qltb 0 ?tw then _ else _) == 1 \/ _ =>
        let b := eval vm_compute in (Qltb 0 tw) in
        match b with
        | true =>
            left;
            match goal with
            | |- (if Qltb 0 ?tw' then ?e else _) == 1 =>
                assert (Hb : Qltb 0 tw' = true) by (vm_compute; reflexivity);
                rewrite Hb
            end
        | false => right; vm_compute; reflexivity
        end
    end;
    try rewrite Hx; try rewrite Hr; vm_compute; reflexivity.
Qed.

Lemma pymin_1_le : forall x, pymin 1 x <= 1.
Proof.
  intro x. unfold pymin. destruct (Qltb x 1) eqn:E.
  - apply Qltb_lt in E. now apply Qlt_le_weak.
  - apply Qle_refl.
Qed.

Lemma enhanced_self_le_1 : forall rt t,
  (forall s, ratio rt s s == 1) -> enhanced_title_matching rt t t <= 1.
Proof.
  intros rt t Hrefl. unfold enhanced_title_matching.
  assert (Hc : calculate_component_similarity rt (extract_title_components t)
                 (extract_title_components t) <= 1).
  { destruct (@component_similarity_self rt (extract_title_components t) Hrefl) as [H|H];
      rewrite H; unfold Qle; simpl; lia. }
  destruct (meeting_type (extract_title_components t)) as [[| | |]|]; try exact Hc.
  destruct (participants (extract_title_components t)); try exact Hc.
  match goal with |- (if ?b then _ else _) <= 1 => destruct b end.
  - apply pymin_1_le.
  - exact Hc.
Qed.

(** C9 (amended). For every string t whose normalized title is not empty,
    title_similarity(t, t) is 1.0, the sequence matcher rating every text
    against itself 1.0. *)
Theorem C9_title_similarity_reflexive :
  forall rt t,
  (forall s, ratio rt s s == 1) ->
  normalize_title t <> [] ->
  title_similarity rt t t == 1.
Proof.
  intros rt t Hrefl Hne. unfold title_similarity.
  destruct (normalize_title t) as [|c n] eqn:En; [congruence|]. simpl.
  unfold pymax.
  destruct (Qltb (ratio rt (c :: n) (c :: n)) (enhanced_title_matching rt (c :: n) (c :: n)))
    eqn:E.
  - apply Qltb_lt in E. rewrite Hrefl in E.
    exfalso. apply (Qlt_not_le _ _ E). now apply enhanced_self_le_1.
  - apply Hrefl.
Qed.

Lemma C9_title_similarity_reflexive_witness :
  title_similarity plain_runtime (lit "Jane 1:1") (lit "Jane 1:1") == 1.
Proof.
  apply (@C9_title_similarity_reflexive plain_runtime (lit "Jane 1:1")).
  - intro s. simpl. rewrite str_eqb_refl. reflexivity.
  - vm_compute. discriminate.
Defined.

(** C9 as stated fails: a non-empty title without a letter or digit
    normalizes to the empty text, and its similarity with itself is 0. *)
Lemma C9_punctuation_title_scores_zero :
  lit "!!!" <> []
  /\ normalize_title (lit "!!!") = []
  /\ title_similarity plain_runtime (lit "!!!") (lit "!!!") == 0
  /\ ~ title_similarity plain_runtime (lit "!!!") (lit "!!!") == 1.
Proof.
  repeat split.
  - discriminate.
  - vm_compute. intro H. discriminate H.
Qed.

(* ------------------------------------------------------------------ *)
(** ** The selector: the participant pre-filter *)

(** When the pre-filter skips a candidate. *)
Lemma prefilter_skips_iff : forall desired_participants transcript_snippet cand_parts,
  prefilter_skips desired_participants transcript_snippet cand_parts = true
  <-> desired_participants <> []
      /\ opt_nonempty transcript_snippet = false
      /\ inter (lower_set desired_participants) (lower_set cand_parts) = []
      /\ (2 <= length (lower_set desired_participants))%nat.
Proof.
  intros d snip parts. unfold prefilter_skips.
  destruct d as [|x d].
  - split; [discriminate | intros [H _]; congruence].
  - destruct (opt_nonempty snip).
    + split; [discriminate | intros [_ [H _]]; discriminate].
    + rewrite andb_true_iff, Nat.eqb_eq, Nat.leb_le, length_zero_iff_nil.
      split.
      * intros [H1 H2]. repeat split; try assumption. discriminate.
      * intros [_ [_ [H1 H2]]]. split; assumption.
Qed.

(** The rows that the scoring loop keeps, for any rows already scored. *)
Lemma fold_score_candidate_rows :
  forall rt cfg pd db center lo_ms hi_ms cands acc scored,
  fold_result (score_candidate rt cfg pd db center lo_ms hi_ms) cands acc = Ok scored ->
  map item_row scored
  = map item_row acc
    ++ filter (fun m =>
                 opt_nonempty (row_audio_transcript m)
                 && negb (prefilter_skips (desired_of pd) (pd_transcript_snippet pd)
                                          (derive_db_participants rt cfg m (Some db))))
              cands.
Proof.
  intros rt cfg pd db center lo hi cands.
  induction cands as [|m cands IH]; intros acc scored H; simpl in H.
  - inversion H; subst. simpl. now rewrite app_nil_r.
  - unfold score_candidate in H at 1. simpl filter.
    destruct (opt_nonempty (row_audio_transcript m)); simpl in H |- *.
    + destruct (prefilter_skips (desired_of pd) (pd_transcript_snippet pd)
                  (derive_db_participants rt cfg m (Some db))); simpl in H |- *.
      * now apply IH.
      * destruct (compute_score rt cfg (session_type_of pd) (pd_meeting_date pd)
                    (opt_or (pd_quill_title pd) (pd_meeting_title pd)) (desired_of pd)
                    center lo hi m (Some db) (pd_transcript_snippet pd))
          as [[score parts]|e]; simpl in H; [|discriminate].
        apply IH in H. rewrite H, map_app. simpl. now rewrite <- app_assoc.
    + now apply IH.
Qed.

(** C5 (amended). The scoring loop keeps exactly the candidates with
    transcript content that the pre-filter does not skip; the pre-filter
    skips a candidate exactly when desired participants are given, no
    transcript snippet is supplied, the desired names make at least two
    different lower-cased names, and no lower-cased desired name is,
    as a whole, a lower-cased participant name of the candidate. With a
    transcript snippet no candidate is skipped on participant grounds. *)
Theorem C5_prefilter_by_whole_names :
  forall rt cfg pd db center lo_ms hi_ms cands scored,
  score_candidates rt cfg pd db center lo_ms hi_ms cands = Ok scored ->
  map item_row scored
  = filter (fun m =>
              opt_nonempty (row_audio_transcript m)
              && negb (prefilter_skips (desired_of pd) (pd_transcript_snippet pd)
                                       (derive_db_participants rt cfg m (Some db))))
           cands
  /\ (forall m,
        prefilter_skips (desired_of pd) (pd_transcript_snippet pd)
                        (derive_db_participants rt cfg m (Some db)) = true
        <-> desired_of pd <> []
            /\ opt_nonempty (pd_transcript_snippet pd) = false
            /\ inter (lower_set (desired_of pd))
                     (lower_set (derive_db_participants rt cfg m (Some db))) = []
            /\ (2 <= length (lower_set (desired_of pd)))%nat)
  /\ (opt_nonempty (pd_transcript_snippet pd) = true ->
      forall m, prefilter_skips (desired_of pd) (pd_transcript_snippet pd)
                                (derive_db_participants rt cfg m (Some db)) = false).
Proof.
  intros rt cfg pd db center lo hi cands scored H. split; [|split].
  - unfold score_candidates in H. apply fold_score_candidate_rows in H. exact H.
  - intro m. apply prefilter_skips_iff.
  - intros Hs m. unfold prefilter_skips. rewrite Hs.
    destruct (desired_of pd); reflexivity.
Qed.

Lemma C5_prefilter_by_whole_names_witness :
  exists scored,
    score_candidates plain_runtime example_config jane_pending
      (store_of [jane_meeting; eve_meeting]) noon_2024_03_10
      (noon_2024_03_10 - hours 36)%Z (noon_2024_03_10 + hours 36)%Z
      [jane_meeting; eve_meeting] = Ok scored
    /\ map item_row scored = [jane_meeting].
Proof.
  destruct (score_candidates plain_runtime example_config jane_pending
              (store_of [jane_meeting; eve_meeting]) noon_2024_03_10
              (noon_2024_03_10 - hours 36)%Z (noon_2024_03_10 + hours 36)%Z
              [jane_meeting; eve_meeting]) as [scored|e] eqn:E.
  - exists scored. split; [reflexivity|].
    rewrite (proj1 (@C5_prefilter_by_whole_names _ _ _ _ _ _ _ _ _ E)).
    vm_compute. reflexivity.
  - vm_compute in E. discriminate E.
Defined.

(** C5 as stated fails: the candidate stores "Jane, Bob", the pending
    record desires "Jane Doe" and "Bob Smith" and supplies no snippet; the
    fuzzy token overlap is 1, and the loop skips the candidate. *)
Lemma C5_fuzzy_overlap_yet_skipped :
  derive_db_participants plain_runtime example_config first_names_meeting
    (Some (store_of [first_names_meeting])) = [lit "Jane"; lit "Bob"]
  /\ participant_overlap_fuzzy example_config (desired_of full_names_pending)
       [lit "Jane"; lit "Bob"] == 1
  /\ prefilter_skips (desired_of full_names_pending)
       (pd_transcript_snippet full_names_pending) [lit "Jane"; lit "Bob"] = true
  /\ score_candidates plain_runtime example_config full_names_pending
       (store_of [first_names_meeting]) noon_2024_03_10
       (noon_2024_03_10 - hours 36)%Z (noon_2024_03_10 + hours 36)%Z
       [first_names_meeting] = Ok [].
Proof.
  repeat split; vm_compute; reflexivity.
Qed.

(* ------------------------------------------------------------------ *)
(** ** The selector: the candidate window *)

Open Scope Z_scope.

Lemma In_insert_by_start : forall x y l,
  In y (insert_by_start x l) <-> y = x \/ In y l.
Proof.
  intros x y l. induction l as [|z l IH]; simpl.
  - intuition.
  - destruct (start_key z <? start_key x); simpl; rewrite ?IH; intuition.
Qed.

Lemma In_sort_by_start : forall y l, In y (sort_by_start l) <-> In y l.
Proof.
  intros y l. induction l as [|x l IH]; simpl.
  - tauto.
  - rewrite In_insert_by_start, IH. intuition.
Qed.



Lemma In_firstn : forall (A : Type) n (x : A) l, In x (firstn n l) -> In x l.
Proof.
  intros A n x l H. rewrite <- (firstn_skipn n l). apply in_or_app. now left.
Qed.

(** The rows that are not deleted. *)
Lemma In_live_rows : forall db (row : MeetingRow),
  In row (map fst (filter live (Meeting db))) <-> In (row, None) (Meeting db).
Proof.
  intros db row. rewrite in_map_iff. split.
  - intros [[r del] [Hr Hin]]. apply filter_In in Hin as [Hin Hlive].
    simpl in Hr. subst r. destruct del; [discriminate | assumption].
  - intro Hin. exists (row, None). split; [reflexivity|].
    apply filter_In. split; [assumption | reflexivity].
Qed.

(** The SQL condition, on a row with both bounds. *)
Lemma overlaps_window_iff : forall lo_ms hi_ms m,
  overlaps_window lo_ms hi_ms m = true
  <-> exists s e, row_start m = Some s /\ row_end m = Some e /\ lo_ms <= e /\ s <= hi_ms.
Proof.
  intros lo hi m. unfold overlaps_window.
  destruct (row_start m) as [s|], (row_end m) as [e|].
  - rewrite negb_true_iff, orb_false_iff, !Z.ltb_ge. split.
    + intros [H1 H2]. exists s, e. auto.
    + intros [s' [e' [Hs [He [H1 H2]]]]]. inversion Hs; inversion He; subst. auto.
  - split; [discriminate | intros [s' [e' [_ [He _]]]]; discriminate].
  - split; [discriminate | intros [s' [e' [Hs _]]]; discriminate].
  - split; [discriminate | intros [s' [e' [Hs _]]]; discriminate].
Qed.

(** The two queries of [database.py] on a file with and without the
    table. *)
Lemma get_meetings_in_window_table : forall db lo_ms hi_ms limit,
  has_Meeting db = true ->
  get_meetings_in_window db lo_ms hi_ms limit
  = firstn limit
      (sort_by_start
         (filter (overlaps_window lo_ms hi_ms) (map fst (filter live (Meeting db))))).
Proof.
  intros db lo hi limit H. unfold get_meetings_in_window, execute_on_Meeting.
  now rewrite H.
Qed.

Lemma get_meetings_in_window_no_table : forall db lo_ms hi_ms limit,
  has_Meeting db = false -> get_meetings_in_window db lo_ms hi_ms limit = [].
Proof.
  intros db lo hi limit H. unfold get_meetings_in_window, execute_on_Meeting.
  now rewrite H.
Qed.

Lemma get_meeting_by_id_no_table : forall db meeting_id,
  has_Meeting db = false -> get_meeting_by_id db meeting_id = None.
Proof.
  intros db id H. unfold get_meeting_by_id, execute_on_Meeting. now rewrite H.
Qed.

(** Every row that the window query returns is a live row that meets its
    condition. *)
Lemma window_candidates_sound : forall db lo_ms hi_ms r,
  In r (window_candidates db lo_ms hi_ms) ->
  exists row, In (row, None) (Meeting db) /\ r = without_speakers row
              /\ overlaps_window lo_ms hi_ms row = true.
Proof.
  intros db lo hi r H. unfold window_candidates, fetch_overlap_window in H.
  apply in_map_iff in H as [row [Hr Hin]].
  destruct (has_Meeting db) eqn:Ht.
  - rewrite get_meetings_in_window_table in Hin by assumption.
    apply In_firstn, In_sort_by_start, filter_In in Hin as [Hin Hov].
    exists row. rewrite <- In_live_rows. auto.
  - rewrite get_meetings_in_window_no_table in Hin by assumption. destruct Hin.
Qed.


(** *** The order and the number of the rows fetched *)












Lemma In_insert_by_score : forall x y l,
  In y (insert_by_score x l) <-> y = x \/ In y l.
Proof.
  intros x y l. induction l as [|z l IH]; simpl.
  - intuition.
  - destruct (Qltb (item_score x) (item_score z)); simpl; rewrite ?IH; intuition.
Qed.

Lemma In_sort_by_score : forall y l, In y (sort_by_score l) <-> In y l.
Proof.
  intros y l. induction l as [|x l IH]; simpl.
  - tauto.
  - rewrite In_insert_by_score, IH. intuition.
Qed.





Close Scope Z_scope.

(* ------------------------------------------------------------------ *)
(** ** The time score of the candidates that the selector scores *)

(** The candidates of the window have both bounds, by the condition of the
    query: their midpoint is the average of start and end, rounded down. *)
Lemma window_candidates_midpoint : forall db lo_ms hi_ms center_ms r,
  In r (window_candidates db lo_ms hi_ms) ->
  exists s e, row_start r = Some s /\ row_end r = Some e
              /\ time_midpoint center_ms r = ((s + e) / 2)%Z.
Proof.
  intros db lo hi c r H.
  apply window_candidates_sound in H as [row [_ [Hr Hov]]].
  apply overlaps_window_iff in Hov as [s [e [Hs [He _]]]].
  exists s, e. subst r. cbn [without_speakers row_start row_end].
  repeat split; try assumption.
  apply time_midpoint_both; cbn [without_speakers row_start row_end]; assumption.
Qed.

(** C6 (code bug). The selector scores only rows with a start and an end,
    whose midpoint is their average; but a midpoint of exactly 0 is taken
    for a missing one and replaced by the centre, so that the time score
    is 1 whatever the distance. For the pending record of 1970-01-01 the
    selector fetches and scores the meeting from 23:00 to 01:00 UTC around
    the instant 0: its midpoint is 0, twelve hours from the centre at noon,
    where the claim's formula gives 5/6 over the window of 72 hours; the
    time score that the selector reports for it is 1. *)
Theorem C6_zero_midpoint_scores_as_the_centre :
  (forall db lo_ms hi_ms center_ms r,
     In r (window_candidates db lo_ms hi_ms) ->
     exists s e, row_start r = Some s /\ row_end r = Some e
                 /\ time_midpoint center_ms r = ((s + e) / 2)%Z)
  /\ (forall center_ms lo_ms hi_ms m,
        time_midpoint center_ms m = 0%Z ->
        time_proximity center_ms lo_ms hi_ms m == 1)
  /\ local_day_bounds_ms example_config (pd_meeting_date epoch_pending)
     = Ok ((noon_1970_01_01 - hours 36)%Z, (noon_1970_01_01 + hours 36)%Z)
  /\ window_candidates (store_of [epoch_meeting])
                       (noon_1970_01_01 - hours 36)%Z (noon_1970_01_01 + hours 36)%Z
     = [epoch_meeting]
  /\ time_midpoint noon_1970_01_01 epoch_meeting = 0%Z
  /\ spec_time_score noon_1970_01_01 (noon_1970_01_01 - hours 36)%Z
                     (noon_1970_01_01 + hours 36)%Z epoch_meeting == 5 # 6
  /\ time_proximity noon_1970_01_01 (noon_1970_01_01 - hours 36)%Z
                    (noon_1970_01_01 + hours 36)%Z epoch_meeting == 1
  /\ (forall rt, exists d,
        find_best_candidate rt example_config (Some (store_of [epoch_meeting]))
                            epoch_pending
        = Ok (Some epoch_meeting, Some (lit "ranked_window"), [d])
        /\ meta_brief d = brief_of epoch_meeting
        /\ time_score (meta_parts d) == 1).
Proof.
  split; [exact window_candidates_midpoint|].
  split; [exact time_proximity_zero_midpoint|].
  split; [reflexivity|]. split; [reflexivity|]. split; [reflexivity|].
  split; [vm_compute; reflexivity|]. split; [vm_compute; reflexivity|].
  intro rt. eexists. split; [vm_compute; reflexivity|]. split; vm_compute; reflexivity.
Qed.

(* ------------------------------------------------------------------ *)
(** ** The transcript snippet: what is compared *)

Lemma take_while_app : forall p l r,
  forallb p l = true ->
  take_while p r = [] ->
  take_while p (l ++ r) = l.
Proof.
  intros p l r Hl Hr. induction l as [|c l IH]; simpl in *.
  - assumption.
  - apply andb_true_iff in Hl as [Hc Hl]. rewrite Hc. now rewrite IH.
Qed.

Lemma skipn_length_app : forall (A : Type) (l r : list A),
  skipn (length l) (l ++ r) = r.
Proof.
  intros A l r. induction l as [|c l IH]; simpl; [reflexivity | assumption].
Qed.

Lemma lstrip_length : forall s, (length (lstrip s) <= length s)%nat.
Proof.
  induction s as [|c s IH]; simpl; [lia|].
  destruct (is_space c); simpl; lia.
Qed.

(** A text that [lstrip] leaves as it is starts with no white space. *)
Lemma lstrip_fixed_no_space : forall s, lstrip s = s -> take_while is_space s = [].
Proof.
  intros [|c r] H; simpl in *; [reflexivity|].
  destruct (is_space c); [|reflexivity].
  pose proof (lstrip_length r) as Hlen. rewrite H in Hlen. simpl in Hlen. lia.
Qed.

(** The substitution of a pattern that does not look behind does not depend
    on the character before the text. *)
Lemma drop_matches_prev : forall f skip p1 p2 s,
  drop_matches (fun _ => f) skip p1 s = drop_matches (fun _ => f) skip p2 s.
Proof.
  intros f skip p1 p2 [|c r]; simpl; [reflexivity|].
  destruct skip; reflexivity.
Qed.

(** Passing over the rest of a match. *)
Lemma drop_matches_skip : forall match_at l prev x,
  exists prev',
    drop_matches match_at (length l) prev (l ++ x) = drop_matches match_at 0 prev' x.
Proof.
  intros match_at l. induction l as [|c l IH]; intros prev x; simpl.
  - now exists prev.
  - apply IH.
Qed.

(** The pattern [Speaker \d+:\s*] after its first eight characters. *)
Lemma speaker_label_at_prefix : forall r,
  speaker_label_at (lit "Speaker " ++ r)
  = let nd := length (take_while is_digit r) in
    match nd, skipn nd r with
    | S _, c :: r' =>
        if N.eqb c 58 then Some (8 + nd + 1 + length (take_while is_space r'))%nat
        else None
    | _, _ => None
    end.
Proof. reflexivity. Qed.

(** The pattern [Speaker \d+:\s*] matches a label at the head of a text,
    with all the white space after its colon. *)
Lemma speaker_label_at_head : forall ds ws x,
  ds <> [] -> forallb is_digit ds = true -> forallb is_space ws = true -> lstrip x = x ->
  speaker_label_at (lit "Speaker " ++ ds ++ 58%N :: ws ++ x)
  = Some (length (lit "Speaker " ++ ds ++ 58%N :: ws)).
Proof.
  intros ds ws x Hne Hds Hws Hx.
  rewrite speaker_label_at_prefix. cbv zeta.
  rewrite (@take_while_app is_digit ds (58%N :: ws ++ x) Hds eq_refl).
  destruct (length ds) as [|n] eqn:El.
  { apply length_zero_iff_nil in El. congruence. }
  rewrite <- El, skipn_length_app.
  change (58 =? 58)%N with true. cbv iota.
  rewrite (@take_while_app is_space ws x Hws (@lstrip_fixed_no_space x Hx)).
  f_equal. rewrite !length_app. simpl. lia.
Qed.

(** The first substitution removes a label [Speaker N:] at the head of a
    text. *)
Lemma strip_speaker_labels_head : forall ds ws x,
  ds <> [] -> forallb is_digit ds = true -> forallb is_space ws = true -> lstrip x = x ->
  strip_speaker_labels (lit "Speaker " ++ ds ++ 58%N :: ws ++ x) = strip_speaker_labels x.
Proof.
  intros ds ws x Hne Hds Hws Hx. unfold strip_speaker_labels.
  pose proof (@speaker_label_at_head ds ws x Hne Hds Hws Hx) as Hm.
  replace (lit "Speaker " ++ ds ++ 58%N :: ws ++ x)
    with ((lit "Speaker " ++ ds ++ 58%N :: ws) ++ x) in *
    by (rewrite <- !app_assoc; reflexivity).
  remember (lit "Speaker " ++ ds ++ 58%N :: ws) as label eqn:El.
  destruct label as [|c label]; [discriminate El|].
  cbn [app drop_matches length] in *. rewrite Hm.
  destruct (drop_matches_skip (fun _ => speaker_label_at) label (Some c) x) as [prev' Hskip].
  rewrite Hskip. apply drop_matches_prev.
Qed.

Lemma strip_labels_head : forall ds ws x,
  ds <> [] -> forallb is_digit ds = true -> forallb is_space ws = true -> lstrip x = x ->
  strip_labels (lit "Speaker " ++ ds ++ 58%N :: ws ++ x) = strip_labels x.
Proof.
  intros. unfold strip_labels. now rewrite strip_speaker_labels_head.
Qed.

(** Of the five replacements of the source only the first changes a text. *)
Lemma replace_char_same : forall c s, replace_char c [c] s = s.
Proof.
  intros c s. unfold replace_char. induction s as [|d s IH]; simpl; [reflexivity|].
  destruct (N.eqb_spec d c); subst; simpl; now rewrite IH.
Qed.

Lemma normalize_quotes_double_prime : forall s,
  normalize_quotes s = replace_char 8243 [34%N] s.
Proof.
  intro s. unfold normalize_quotes. now rewrite !replace_char_same.
Qed.

Lemma normalize_quotes_app : forall a b,
  normalize_quotes (a ++ b) = normalize_quotes a ++ normalize_quotes b.
Proof.
  intros a b. rewrite !normalize_quotes_double_prime. unfold replace_char.
  apply flat_map_app.
Qed.

Lemma normalize_quotes_without : forall s,
  forallb (fun c => negb (N.eqb c 8243)) s = true -> normalize_quotes s = s.
Proof.
  intros s H. rewrite normalize_quotes_double_prime. unfold replace_char.
  induction s as [|c s IH]; simpl in *; [reflexivity|].
  apply andb_true_iff in H as [Hc Hs]. apply negb_true_iff in Hc. rewrite Hc.
  simpl. now rewrite IH.
Qed.

Lemma forallb_impl : forall (p q : N -> bool) l,
  (forall c, p c = true -> q c = true) -> forallb p l = true -> forallb q l = true.
Proof.
  intros p q l Hpq. induction l as [|c l IH]; simpl; [reflexivity|].
  intro H. apply andb_true_iff in H as [Hc Hl]. now rewrite (Hpq c Hc), IH.
Qed.

Lemma digit_not_double_prime : forall c, is_digit c = true -> negb (N.eqb c 8243) = true.
Proof.
  intros c H. destruct (N.eqb_spec c 8243); [subst; discriminate | reflexivity].
Qed.

Lemma space_not_double_prime : forall c, is_space c = true -> negb (N.eqb c 8243) = true.
Proof.
  intros c H. destruct (N.eqb_spec c 8243); [subst; discriminate | reflexivity].
Qed.

(** The quote replacement leaves a text without white space at its head
    without white space at its head. *)
Lemma normalize_quotes_lstrip : forall x,
  lstrip x = x -> lstrip (normalize_quotes x) = normalize_quotes x.
Proof.
  intros x Hx. pose proof (@lstrip_fixed_no_space x Hx) as Hs.
  rewrite normalize_quotes_double_prime. unfold replace_char.
  destruct x as [|c r]; simpl in *; [reflexivity|].
  destruct (is_space c) eqn:Ec; [discriminate|].
  destruct (N.eqb_spec c 8243); simpl; [reflexivity | now rewrite Ec].
Qed.

(** The quote replacement leaves a label [Speaker N:] as it is. *)
Lemma normalize_quotes_label : forall ds ws,
  forallb is_digit ds = true -> forallb is_space ws = true ->
  normalize_quotes (lit "Speaker " ++ ds ++ 58%N :: ws) = lit "Speaker " ++ ds ++ 58%N :: ws.
Proof.
  intros ds ws Hds Hws. apply normalize_quotes_without.
  rewrite !forallb_app. simpl.
  rewrite (@forallb_impl is_digit _ ds digit_not_double_prime Hds).
  now rewrite (@forallb_impl is_space _ ws space_not_double_prime Hws).
Qed.

(** The transcript score of a candidate whose transcript decodes as one
    block of text: the first look alone, at the two cleaned texts. *)
Lemma transcript_match_one_block : forall rt snippet audio text,
  snippet <> [] ->
  strip audio = audio ->
  startswith [91%N] audio = true ->
  json_loads rt audio = Some (PList [PDict [(lit "text", PStr text)]]) ->
  strip text <> [] ->
  transcript_match rt (Some snippet) (Some audio)
  = let snippet_clean := lower (clean_snippet snippet) in
    let beginning_clean := lower (clean_beginning snippet (strip text)) in
    let similarity := ratio rt snippet_clean beginning_clean in
    let transcript_score :=
      if Qltb (8 # 10) similarity then pymin 1 (similarity + (2 # 10)) else similarity in
    if contains snippet_clean beginning_clean
    then pymin 1 (transcript_score + (1 # 10))
    else transcript_score.
Proof.
  intros rt snippet audio text Hs Hstrip Hhead Hjson Htext.
  destruct snippet as [|c s]; [congruence|].
  destruct audio as [|a t]; [discriminate|].
  unfold transcript_match, _parse_audio_blocks, is_json_like.
  rewrite Hstrip. cbn [startswith] in Hhead. rewrite andb_true_r in Hhead.
  apply N.eqb_eq in Hhead. subst a.
  change ((91 =? 123)%N || (91 =? 91)%N) with true. cbv iota.
  rewrite Hjson. cbv iota.
  change (block_texts (firstn 10 [PDict [(lit "text", PStr text)]])) with (Some [text]).
  cbv iota. change (join [32%N] [text]) with text.
  destruct (strip text) as [|x xs] eqn:Et; [congruence|].
  cbn [is_empty]. cbv iota zeta.
  change (Nat.ltb 10 (length [PDict [(lit "text", PStr text)]])) with false.
  rewrite andb_false_r. reflexivity.
Qed.

Lemma Qeq_by_eq : forall a b c : Q, a = b -> b == c -> a == c.
Proof.
  intros a b c Hab Hbc. now subst.
Qed.

(** A label [Speaker N:] at the head of either text, once its white space
    is collapsed, is removed before the comparison. *)
Lemma speaker_label_removed_at_head :
  forall ds ws x,
  ds <> [] -> forallb is_digit ds = true -> forallb is_space ws = true -> lstrip x = x ->
  (forall snippet,
     collapse_ws (strip snippet) = lit "Speaker " ++ ds ++ 58%N :: ws ++ x ->
     clean_snippet snippet = strip_labels (normalize_quotes x))
  /\ (forall snippet beginning_text,
     collapse_ws (firstn (length (collapse_ws (strip snippet)) * 2) beginning_text)
     = lit "Speaker " ++ ds ++ 58%N :: ws ++ x ->
     clean_beginning snippet beginning_text = strip_labels x).
Proof.
  intros ds ws x Hne Hds Hws Hx. split.
  - intros snippet Hsn. unfold clean_snippet. rewrite Hsn.
    replace (lit "Speaker " ++ ds ++ 58%N :: ws ++ x)
      with ((lit "Speaker " ++ ds ++ 58%N :: ws) ++ x)
      by (rewrite <- !app_assoc; reflexivity).
    rewrite normalize_quotes_app, normalize_quotes_label by assumption.
    rewrite <- !app_assoc. cbn [app].
    apply strip_labels_head; try assumption.
    now apply normalize_quotes_lstrip.
  - intros snippet beginning_text Hb. unfold clean_beginning. cbv zeta. rewrite Hb.
    now apply strip_labels_head.
Qed.

(** C7 (code bug). The transcript score of a candidate whose transcript
    decodes as one block of text is taken from the ratio of the cleaned
    snippet and the cleaned beginning of that text; but the two sides are
    not cleaned in the same way. The quote replacement is applied to the
    snippet alone: of a snippet and a transcript that are the same word
    between double primes, the snippet is compared with plain quotes and
    the transcript with its double primes, so that the score, 1 for texts
    normalized alike, is their ratio of 1/2. And the beginning of the
    transcript is cut before the labels are taken off the snippet, so that
    a speaker label does affect the score: against the transcript text
    [Good morning all, hello world] the snippet [hello world] is compared
    with the first 22 characters, the snippet [Speaker 1: hello world],
    cleaned to the same text, with all of them; with the ratios 8/33 and
    11/20 of these texts the scores are 8/33 and 13/20. *)
Theorem C7_sides_cleaned_differently :
  (forall rt snippet audio text,
     snippet <> [] ->
     strip audio = audio ->
     startswith [91%N] audio = true ->
     json_loads rt audio = Some (PList [PDict [(lit "text", PStr text)]]) ->
     strip text <> [] ->
     transcript_match rt (Some snippet) (Some audio)
     = let snippet_clean := lower (clean_snippet snippet) in
       let beginning_clean := lower (clean_beginning snippet (strip text)) in
       let similarity := ratio rt snippet_clean beginning_clean in
       let transcript_score :=
         if Qltb (8 # 10) similarity then pymin 1 (similarity + (2 # 10)) else similarity in
       if contains snippet_clean beginning_clean
       then pymin 1 (transcript_score + (1 # 10))
       else transcript_score)
  /\ clean_snippet double_prime_text = quoted (lit "hi")
  /\ clean_beginning double_prime_text double_prime_text = double_prime_text
  /\ spec_normalize double_prime_text = quoted (lit "hi")
  /\ (forall rt,
        json_loads rt (one_block_json double_prime_text) = Some (one_block double_prime_text) ->
        ratio rt (quoted (lit "hi")) double_prime_text == 1 # 2 ->
        transcript_match rt (Some double_prime_text) (Some (one_block_json double_prime_text))
        == 1 # 2)
  /\ clean_snippet labelled_snippet = clean_snippet plain_snippet
  /\ clean_beginning plain_snippet greeting_text = lit "Good morning all, hell"
  /\ clean_beginning labelled_snippet greeting_text = greeting_text
  /\ (forall rt,
        json_loads rt (one_block_json greeting_text) = Some (one_block greeting_text) ->
        ratio rt (lit "hello world") (lit "good morning all, hell") == 8 # 33 ->
        ratio rt (lit "hello world") (lit "good morning all, hello world") == 11 # 20 ->
        transcript_match rt (Some plain_snippet) (Some (one_block_json greeting_text))
        == 8 # 33
        /\ transcript_match rt (Some labelled_snippet) (Some (one_block_json greeting_text))
           == 13 # 20).
Proof.
  split; [exact transcript_match_one_block|].
  split; [reflexivity|]. split; [reflexivity|]. split; [reflexivity|].
  split; [|split; [reflexivity|]; split; [reflexivity|]; split; [reflexivity|]].
  - intros rt Hjson Hr.
    apply (Qeq_by_eq (@transcript_match_one_block rt double_prime_text
               (one_block_json double_prime_text) double_prime_text
               ltac:(discriminate) eq_refl eq_refl Hjson ltac:(discriminate))).
    cbv zeta.
    change (lower (clean_snippet double_prime_text)) with (quoted (lit "hi")).
    change (lower (clean_beginning double_prime_text (strip double_prime_text)))
      with double_prime_text.
    change (contains (quoted (lit "hi")) double_prime_text) with false. cbv iota.
    destruct (Qltb (8 # 10) (ratio rt (quoted (lit "hi")) double_prime_text)) eqn:E.
    + apply Qltb_lt in E. rewrite Hr in E. discriminate E.
    + exact Hr.
  - intros rt Hjson Hr1 Hr2. split.
    + apply (Qeq_by_eq (@transcript_match_one_block rt plain_snippet
                 (one_block_json greeting_text) greeting_text
                 ltac:(discriminate) eq_refl eq_refl Hjson ltac:(discriminate))).
      cbv zeta.
      change (lower (clean_snippet plain_snippet)) with (lit "hello world").
      change (lower (clean_beginning plain_snippet (strip greeting_text)))
        with (lit "good morning all, hell").
      change (contains (lit "hello world") (lit "good morning all, hell")) with false.
      cbv iota.
      destruct (Qltb (8 # 10) (ratio rt (lit "hello world") (lit "good morning all, hell")))
        eqn:E.
      * apply Qltb_lt in E. rewrite Hr1 in E. discriminate E.
      * exact Hr1.
    + apply (Qeq_by_eq (@transcript_match_one_block rt labelled_snippet
                 (one_block_json greeting_text) greeting_text
                 ltac:(discriminate) eq_refl eq_refl Hjson ltac:(discriminate))).
      cbv zeta.
      change (lower (clean_snippet labelled_snippet)) with (lit "hello world").
      change (lower (clean_beginning labelled_snippet (strip greeting_text)))
        with (lit "good morning all, hello world").
      change (contains (lit "hello world") (lit "good morning all, hello world")) with true.
      cbv iota.
      destruct (Qltb (8 # 10)
                  (ratio rt (lit "hello world") (lit "good morning all, hello world"))) eqn:E.
      * apply Qltb_lt in E. rewrite Hr2 in E. discriminate E.
      * unfold pymin.
        destruct (Qltb (ratio rt (lit "hello world") (lit "good morning all, hello world")
                        + (1 # 10)) 1) eqn:E1.
        -- rewrite Hr2. reflexivity.
        -- apply Qltb_ge in E1. rewrite Hr2 in E1. exfalso. revert E1.
           unfold Qle. simpl. lia.
Qed.

(* ------------------------------------------------------------------ *)
(** ** The selector: when it returns *)

Open Scope Z_scope.


Section Returns.

Variable rt : runtime.
Variable cfg : QuillConfig.




(** The centre is computed unless the Quill start is 0 and the Quill end
    is absent, and only then is it not. *)
Lemma scoring_center_returns : forall pd lo_ms hi_ms,
  ~ (pd_quill_start_ms pd = Some 0 /\ pd_quill_end_ms pd = None)
  <-> exists center, scoring_center pd lo_ms hi_ms = Ok center.
Proof.
  intros pd lo hi. unfold scoring_center.
  destruct (pd_quill_start_ms pd) as [qs|], (pd_quill_end_ms pd) as [qe|].
  - split; [intros _|intros _ [_ E]; discriminate].
    destruct (negb (qs =? 0) && negb (qe =? 0)); [eexists; reflexivity|].
    destruct (negb (qs =? 0)); eexists; reflexivity.
  - destruct (Z.eqb_spec qs 0) as [E|E]; cbn [negb].
    + subst qs. split; [intro H; exfalso; apply H; now split | intros [c Hc]; discriminate].
    + split; [intros _; eexists; reflexivity | intros _ [E' _]; congruence].
  - split; [intros _; eexists; reflexivity | intros _ [E _]; discriminate].
  - split; [intros _; eexists; reflexivity | intros _ [E _]; discriminate].
Qed.


End Returns.

Close Scope Z_scope.


(** The scan by title reads table [Meeting] outside any [try]: on a file
    without the table the selector, once it has its window and its centre,
    finds no candidate and leaves with the error of sqlite3. *)
Lemma find_best_candidate_no_table : forall rt cfg db pd lo_ms hi_ms center,
  has_Meeting db = false ->
  local_day_bounds_ms cfg (pd_meeting_date pd) = Ok (lo_ms, hi_ms) ->
  scoring_center pd lo_ms hi_ms = Ok center ->
  find_best_candidate rt cfg (Some db) pd = Raise OperationalError.
Proof.
  intros rt cfg db pd lo hi center Ht Hbounds Hcenter.
  unfold find_best_candidate, fetch_by_id, window_candidates, fetch_overlap_window.
  destruct (pd_quill_meeting_id pd) as [[|c s]|];
    rewrite ?get_meeting_by_id_no_table by assumption; cbn [option_map];
    rewrite Hbounds; cbn [bind]; rewrite Hcenter; cbn [bind];
    rewrite get_meetings_in_window_no_table by assumption;
    unfold fetch_start_in_window, execute_on_Meeting; rewrite Ht; reflexivity.
Qed.




(* ------------------------------------------------------------------ *)
(** * The range of the scores *)

Lemma of_nat_nonneg : forall n, 0 <= of_nat n.
Proof.
  intro n. unfold of_nat, Qle. simpl. lia.
Qed.

Lemma of_nat_le : forall a b, (a <= b)%nat -> of_nat a <= of_nat b.
Proof.
  intros a b H. unfold of_nat, Qle. simpl. lia.
Qed.

Lemma of_nat_pos : forall n, (0 < n)%nat -> 0 < of_nat n.
Proof.
  intros n H. unfold of_nat, Qlt. simpl. lia.
Qed.

(** A count out of a larger, positive count is a fraction of 1. *)
Lemma fraction_in_unit : forall a b,
  (a <= b)%nat -> (0 < b)%nat -> 0 <= of_nat a / of_nat b /\ of_nat a / of_nat b <= 1.
Proof.
  intros a b Hab Hb. pose proof (of_nat_pos Hb) as Hpos. split.
  - apply Qle_shift_div_l; [assumption|]. rewrite Qmult_0_l. apply of_nat_nonneg.
  - apply Qle_shift_div_r; [assumption|]. rewrite Qmult_1_l. now apply of_nat_le.
Qed.

Lemma filter_length_le : forall (A : Type) (p : A -> bool) (l : list A),
  (length (filter p l) <= length l)%nat.
Proof.
  intros A p l. induction l as [|x l IH]; simpl; [lia|].
  destruct (p x); simpl; lia.
Qed.

Lemma participant_overlap_in_unit : forall cfg desired db_parts,
  0 <= participant_overlap_fuzzy cfg desired db_parts
  /\ participant_overlap_fuzzy cfg desired db_parts <= 1.
Proof.
  intros cfg desired db_parts. unfold participant_overlap_fuzzy.
  destruct desired as [|w desired].
  - split; lra.
  - set (norm := expand_aliases cfg (w :: desired)).
    set (hits := filter _ norm).
    assert (Hle : (length hits <= Nat.max (length norm) 1)%nat).
    { pose proof (filter_length_le
                    (fun w0 => existsb (fun h => fuzzy_name_match cfg w0 h) db_parts) norm).
      subst hits. lia. }
    assert (Hpos : (0 < Nat.max (length norm) 1)%nat) by lia.
    exact (fraction_in_unit Hle Hpos).
Qed.

Lemma pymax_0_range : forall x, x <= 1 -> 0 <= pymax 0 x /\ pymax 0 x <= 1.
Proof.
  intros x Hx. unfold pymax. destruct (Qltb 0 x) eqn:E.
  - apply Qltb_lt in E. split; [now apply Qlt_le_weak | assumption].
  - split; [apply Qle_refl | discriminate].
Qed.

Lemma distance_over_span_nonneg : forall d lo_ms hi_ms,
  0 <= inject_Z (Z.abs d) / inject_Z (Z.max 1 (hi_ms - lo_ms)).
Proof.
  intros d lo hi. apply Qle_shift_div_l; [apply span_positive|].
  rewrite Qmult_0_l. unfold Qle. simpl. lia.
Qed.

Lemma time_proximity_in_unit : forall center_ms lo_ms hi_ms m,
  0 <= time_proximity center_ms lo_ms hi_ms m
  /\ time_proximity center_ms lo_ms hi_ms m <= 1.
Proof.
  intros c lo hi m. unfold time_proximity. apply pymax_0_range.
  pose proof (distance_over_span_nonneg
                ((if Z.eqb (time_midpoint c m) 0 then c else time_midpoint c m) - c) lo hi)
    as Hd.
  lra.
Qed.

Lemma time_proximity_far : forall center_ms lo_ms hi_ms m,
  time_midpoint center_ms m <> 0%Z ->
  (Z.max 1 (hi_ms - lo_ms) <= Z.abs (time_midpoint center_ms m - center_ms))%Z ->
  time_proximity center_ms lo_ms hi_ms m == 0.
Proof.
  intros c lo hi m.
  - intros Hnz Hfar. unfold time_proximity.
    destruct (Z.eqb_spec (time_midpoint c m) 0) as [E|_]; [contradiction|].
    unfold pymax.
    destruct (Qltb 0 (1 - inject_Z (Z.abs (time_midpoint c m - c))
                          / inject_Z (Z.max 1 (hi - lo)))) eqn:E; [|reflexivity].
    exfalso. apply Qltb_lt in E.
    assert (Hone : 1 <= inject_Z (Z.abs (time_midpoint c m - c))
                        / inject_Z (Z.max 1 (hi - lo))).
    { apply Qle_shift_div_l; [apply span_positive|]. rewrite Qmult_1_l.
      rewrite <- Zle_Qle. exact Hfar. }
    apply (Qlt_irrefl 0). eapply Qlt_le_trans; [exact E|].
    apply Qle_minus_iff in Hone. apply Qle_minus_iff. ring_simplify.
    ring_simplify in Hone. exact Hone.
Qed.

Lemma pymin_1_range : forall x, 0 <= x -> 0 <= pymin 1 x /\ pymin 1 x <= 1.
Proof.
  intros x Hx. split; [|apply pymin_1_le].
  unfold pymin. destruct (Qltb x 1); [assumption | discriminate].
Qed.

Lemma pymax_range : forall a b,
  0 <= a /\ a <= 1 -> 0 <= b /\ b <= 1 -> 0 <= pymax a b /\ pymax a b <= 1.
Proof.
  intros a b Ha Hb. unfold pymax. destruct (Qltb a b); assumption.
Qed.

Lemma inter_length_le : forall a b, (length (inter a b) <= length a)%nat.
Proof.
  intros a b. apply filter_length_le.
Qed.

(** The three parts of the component score: what a part adds to the score
    is at least 0 and at most what it adds to the total weight. *)
Lemma component_similarity_in_unit : forall rt comp_a comp_b,
  ratio_in_unit rt ->
  0 <= calculate_component_similarity rt comp_a comp_b
  /\ calculate_component_similarity rt comp_a comp_b <= 1.
Proof.
  intros rt a b Hr. unfold calculate_component_similarity.
  set (p1 := match meeting_type a, meeting_type b with
             | Some ka, Some kb =>
                 ((if meeting_kind_eqb ka kb then 0 + (4 # 10) else 0), 0 + (4 # 10))
             | _, _ => (0, 0)
             end).
  assert (H1 : 0 <= fst p1 /\ fst p1 <= snd p1 /\ 0 <= snd p1).
  { subst p1. destruct (meeting_type a) as [ka|], (meeting_type b) as [kb|];
      try (simpl; repeat split; apply Qle_refl).
    destruct (meeting_kind_eqb ka kb); simpl; repeat split; unfold Qle; simpl; lia. }
  destruct p1 as [s1 w1]. simpl in H1. destruct H1 as [H1a [H1b H1c]].
  set (p2 := match participants a, participants b with
             | _ :: _, _ :: _ => _
             | _, _ => (s1, w1)
             end).
  assert (H2 : 0 <= fst p2 /\ fst p2 <= snd p2 /\ 0 <= snd p2).
  { subst p2. destruct (participants a) as [|xa la]; [simpl; tauto|].
    destruct (participants b) as [|xb lb]; [simpl; tauto|].
    cbv zeta.
    set (sa := set_of (xa :: la)). set (sb := set_of (xb :: lb)).
    set (sim := if Nat.ltb 0 (length (sa ++ diff sb sa))
                then of_nat (length (inter sa sb)) / of_nat (length (sa ++ diff sb sa))
                else 0).
    assert (Hsim : 0 <= sim /\ sim <= 1).
    { subst sim. destruct (Nat.ltb_spec 0 (length (sa ++ diff sb sa))) as [Hpos|_].
      - apply fraction_in_unit; [|assumption].
        rewrite length_app. pose proof (inter_length_le sa sb). lia.
      - split; [apply Qle_refl | discriminate]. }
    destruct Hsim as [Hs0 Hs1]. simpl fst. simpl snd.
    assert (Hm0 : 0 <= (4 # 10) * sim).
    { apply Qmult_le_0_compat; [discriminate | assumption]. }
    assert (Hm1 : (4 # 10) * sim <= 4 # 10).
    { rewrite <- (Qmult_1_r (4 # 10)) at 2.
      apply Qmult_le_l; [reflexivity | assumption]. }
    repeat split.
    - rewrite <- (Qplus_0_l 0). apply Qplus_le_compat; assumption.
    - apply Qplus_le_compat; assumption.
    - rewrite <- (Qplus_0_l 0). apply Qplus_le_compat; [assumption | discriminate]. }
  destruct p2 as [s2 w2]. simpl in H2. destruct H2 as [H2a [H2b H2c]].
  set (p3 := match topic a, topic b with
             | Some ta, Some tb => _
             | _, _ => (s2, w2)
             end).
  assert (H3 : 0 <= fst p3 /\ fst p3 <= snd p3 /\ 0 <= snd p3).
  { subst p3. destruct (topic a) as [ta|]; [|simpl; tauto].
    destruct (topic b) as [tb|]; [|simpl; tauto].
    destruct (Hr ta tb) as [Hr0 Hr1]. simpl fst. simpl snd.
    assert (Hm0 : 0 <= (2 # 10) * ratio rt ta tb).
    { apply Qmult_le_0_compat; [discriminate | assumption]. }
    assert (Hm1 : (2 # 10) * ratio rt ta tb <= 2 # 10).
    { rewrite <- (Qmult_1_r (2 # 10)) at 2.
      apply Qmult_le_l; [reflexivity | assumption]. }
    repeat split.
    - rewrite <- (Qplus_0_l 0). apply Qplus_le_compat; assumption.
    - apply Qplus_le_compat; assumption.
    - rewrite <- (Qplus_0_l 0). apply Qplus_le_compat; [assumption | discriminate]. }
  destruct p3 as [s3 w3]. simpl in H3. destruct H3 as [H3a [H3b H3c]].
  destruct (Qltb 0 w3) eqn:E.
  - apply Qltb_lt in E. split.
    + apply Qle_shift_div_l; [assumption|]. now rewrite Qmult_0_l.
    + apply Qle_shift_div_r; [assumption|]. now rewrite Qmult_1_l.
  - split; [apply Qle_refl | discriminate].
Qed.

Lemma enhanced_title_matching_in_unit : forall rt title_a title_b,
  ratio_in_unit rt ->
  0 <= enhanced_title_matching rt title_a title_b
  /\ enhanced_title_matching rt title_a title_b <= 1.
Proof.
  intros rt a b Hr. unfold enhanced_title_matching.
  pose proof (component_similarity_in_unit
                (extract_title_components a) (extract_title_components b) Hr) as Hc.
  set (cs := calculate_component_similarity rt (extract_title_components a)
                                            (extract_title_components b)) in *.
  assert (Hboost : 0 <= pymin 1 (cs + (3 # 10)) /\ pymin 1 (cs + (3 # 10)) <= 1).
  { apply pymin_1_range. rewrite <- (Qplus_0_l 0).
    apply Qplus_le_compat; [tauto | discriminate]. }
  destruct (meeting_type (extract_title_components a)) as [[| | |]|]; try exact Hc;
    destruct (meeting_type (extract_title_components b)) as [[| | |]|]; try exact Hc.
  destruct (participants (extract_title_components a)); [exact Hc|].
  destruct (participants (extract_title_components b)); [exact Hc|].
  match goal with |- context [if ?c then _ else _] => destruct c end;
    [exact Hboost | exact Hc].
Qed.

Lemma title_similarity_in_unit : forall rt a b,
  ratio_in_unit rt ->
  0 <= title_similarity rt a b /\ title_similarity rt a b <= 1.
Proof.
  intros rt a b Hr. unfold title_similarity.
  destruct (is_empty (normalize_title a) || is_empty (normalize_title b)).
  - split; [apply Qle_refl | discriminate].
  - apply pymax_range; [apply Hr | now apply enhanced_title_matching_in_unit].
Qed.

Lemma extended_score_in_unit : forall rt snippet_clean blocks transcript_score,
  ratio_in_unit rt ->
  0 <= transcript_score /\ transcript_score <= 1 ->
  0 <= extended_score rt snippet_clean blocks transcript_score
  /\ extended_score rt snippet_clean blocks transcript_score <= 1.
Proof.
  intros rt sc blocks ts Hr Hts. unfold extended_score.
  destruct (block_texts (firstn 50 blocks)) as [texts|]; [|exact Hts].
  cbv zeta. apply pymax_range.
  - match goal with |- context [if ?c then _ else _] => destruct c end; [|exact Hts].
    apply pymax_range; [exact Hts | split; discriminate].
  - match goal with |- context [ratio rt ?x ?y] => destruct (Hr x y) as [H0 H1] end.
    split.
    + apply Qmult_le_0_compat; [assumption | discriminate].
    + apply Qle_trans with (1 * (8 # 10)); [|discriminate].
      apply Qmult_le_compat_r; [assumption | discriminate].
Qed.

Lemma transcript_match_in_unit : forall rt transcript_snippet audio_transcript,
  ratio_in_unit rt ->
  0 <= transcript_match rt transcript_snippet audio_transcript
  /\ transcript_match rt transcript_snippet audio_transcript <= 1.
Proof.
  intros rt snip audio Hr.
  assert (Hzero : 0 <= 0 /\ 0 <= 1) by (split; discriminate).
  { unfold transcript_match.
    destruct snip as [[|c s]|]; try exact Hzero.
    destruct audio as [[|a t]|]; try exact Hzero.
    destruct (_parse_audio_blocks rt (a :: t)) as [[|b bs]|]; try exact Hzero.
    destruct (block_texts (firstn 10 (b :: bs))) as [texts|]; try exact Hzero.
    destruct (is_empty (strip (join [32%N] texts))); try exact Hzero.
    cbv zeta.
    set (similarity := ratio rt (lower (clean_snippet (c :: s)))
                         (lower (clean_beginning (c :: s) (strip (join [32%N] texts))))).
    assert (Hsim : 0 <= similarity /\ similarity <= 1) by apply Hr.
    set (ts1 := if Qltb (8 # 10) similarity then pymin 1 (similarity + (2 # 10))
                else similarity).
    assert (H1 : 0 <= ts1 /\ ts1 <= 1).
    { subst ts1. destruct (Qltb (8 # 10) similarity); [|exact Hsim].
      apply pymin_1_range. rewrite <- (Qplus_0_l 0).
      apply Qplus_le_compat; [tauto | discriminate]. }
    set (ts2 := if contains (lower (clean_snippet (c :: s)))
                     (lower (clean_beginning (c :: s) (strip (join [32%N] texts))))
                then pymin 1 (ts1 + (1 # 10)) else ts1).
    assert (H2 : 0 <= ts2 /\ ts2 <= 1).
    { subst ts2. match goal with |- context [if ?c then _ else _] => destruct c end;
        [|exact H1].
      apply pymin_1_range. rewrite <- (Qplus_0_l 0).
      apply Qplus_le_compat; [tauto | discriminate]. }
    match goal with |- context [if ?c then _ else _] => destruct c end; [|exact H2].
    now apply extended_score_in_unit. }
Qed.

Lemma pymin_cases : forall a b, pymin a b = a /\ a <= b \/ pymin a b = b /\ b <= a.
Proof.
  intros a b. unfold pymin. destruct (Qltb b a) eqn:E.
  - right. apply Qltb_lt in E. split; [reflexivity | now apply Qlt_le_weak].
  - left. apply Qltb_ge in E. split; [reflexivity | assumption].
Qed.

Lemma subset_diff_nil : forall a b, subset a b = true -> diff a b = [].
Proof.
  intros a b H. unfold subset in H. unfold diff. apply filter_none.
  intros x Hin. rewrite forallb_forall in H. now rewrite (H x Hin).
Qed.

Lemma set_eqb_subset : forall a b, set_eqb a b = true -> subset a b = true.
Proof.
  intros a b H. unfold set_eqb in H. now apply andb_true_iff in H.
Qed.

(** The bonus and the penalty of the set logic, before the 1-on-1 case. *)
Lemma set_adjustments_spec : forall session_type desired db_parts,
  let sa := set_adjustments session_type desired db_parts in
  0 <= fst sa /\ fst sa <= 37 # 100
  /\ 0 <= snd sa
  /\ snd sa <= (if str_eqb session_type (lit "1-on-1") then 45 # 100 else 35 # 100)
  /\ (0 < fst sa ->
      desired <> [] /\ set_eqb (lower_set desired) (lower_set db_parts) = true).
Proof.
  intros st desired db_parts. cbv zeta. unfold set_adjustments.
  destruct desired as [|d0 desired].
  { cbn [fst snd]. repeat split; try lra.
    destruct (str_eqb st (lit "1-on-1")); lra. }
  set (dset := lower_set (d0 :: desired)). set (bset := lower_set db_parts).
  assert (Hne : d0 :: desired <> []) by discriminate.
  destruct (set_eqb dset bset) eqn:Eeq.
  - (* the exact match *)
    destruct (str_eqb st (lit "1-on-1")).
    + rewrite andb_true_r.
      destruct (Nat.eqb (length bset) 2 && Nat.eqb (length dset) 2).
      * cbn [fst snd]. repeat split; try lra; try assumption; try reflexivity.
      * destruct (Nat.ltb 2 (length bset)); cbn [fst snd]; repeat split;
          try lra; try assumption; try reflexivity.
    + cbn [fst snd]. repeat split; try lra; try assumption; try reflexivity.
  - (* no exact match: no bonus *)
    set (p1 := if subset dset bset
               then 0 + pymin (12 # 100)
                          ((4 # 100) * inject_Z (Z.max 0 (Z.of_nat (length bset)
                                                          - Z.of_nat (length dset))))
               else 0).
    set (p2 := if Nat.ltb 0 (length (diff dset bset))
               then p1 + pymin (35 # 100)
                         ((18 # 100) + (10 # 100)
                          * inject_Z (Z.of_nat (length (diff dset bset)) - 1))
               else p1).
    assert (Hp2 : 0 <= p2 /\ p2 <= 35 # 100).
    { subst p2 p1. destruct (subset dset bset) eqn:Esub.
      - rewrite (subset_diff_nil _ _ Esub).
        change (Nat.ltb 0 (length (@nil str))) with false. cbv iota.
        set (x := (4 # 100) * inject_Z (Z.max 0 (Z.of_nat (length bset)
                                                 - Z.of_nat (length dset)))).
        assert (Hx : 0 <= x).
        { subst x. apply Qmult_le_0_compat; [discriminate|].
          unfold Qle. simpl. lia. }
        destruct (pymin_cases (12 # 100) x) as [[E H]|[E H]]; rewrite E; split; lra.
      - destruct (Nat.ltb_spec 0 (length (diff dset bset))) as [Hm|Hm].
        + set (y := (18 # 100) + (10 # 100)
                    * inject_Z (Z.of_nat (length (diff dset bset)) - 1)).
          assert (Hy : 0 <= y).
          { subst y.
            assert (0 <= inject_Z (Z.of_nat (length (diff dset bset)) - 1)).
            { unfold Qle. simpl. lia. }
            assert (0 <= (10 # 100) * inject_Z (Z.of_nat (length (diff dset bset)) - 1)).
            { apply Qmult_le_0_compat; [discriminate | assumption]. }
            lra. }
          destruct (pymin_cases (35 # 100) y) as [[E H]|[E H]]; rewrite E; split; lra.
        + split; lra. }
    destruct Hp2 as [Hp0 Hp1].
    destruct (str_eqb st (lit "1-on-1")).
    + rewrite andb_false_r.
      destruct (Nat.ltb 2 (length bset)); simpl fst; simpl snd;
        repeat split; try lra; try assumption.
    + simpl fst; simpl snd; repeat split; try lra; try assumption.
Qed.

Lemma group_size_penalty_range : forall session_type db_parts,
  0 <= group_size_penalty_of session_type db_parts
  /\ group_size_penalty_of session_type db_parts <= 15 # 100
  /\ (str_eqb session_type (lit "1-on-1") = true ->
      group_size_penalty_of session_type db_parts = 0).
Proof.
  intros st b. unfold group_size_penalty_of. repeat split.
  - destruct (_ && _); lra.
  - destruct (_ && _); lra.
  - intro H. apply str_eqb_eq in H. subst st. reflexivity.
Qed.

Lemma penalties_bound : forall session_type desired db_parts,
  snd (set_adjustments session_type desired db_parts)
  + group_size_penalty_of session_type db_parts <= 50 # 100.
Proof.
  intros st d b.
  destruct (set_adjustments_spec st d b) as [_ [_ [_ [Hp _]]]].
  destruct (group_size_penalty_range st b) as [_ [Hg Hone]].
  destruct (str_eqb st (lit "1-on-1")).
  - rewrite (Hone eq_refl). lra.
  - lra.
Qed.

Lemma compute_score_inv :
  forall rt cfg session_type meeting_date needle_title desired_participants
         center_ms lo_ms hi_ms m cur transcript_snippet composite parts,
  compute_score rt cfg session_type meeting_date needle_title desired_participants
                center_ms lo_ms hi_ms m cur transcript_snippet = Ok (composite, parts) ->
  exists t,
    score_terms rt cfg session_type meeting_date needle_title desired_participants
                center_ms lo_ms hi_ms m cur transcript_snippet = Ok t
    /\ composite = compose session_type transcript_snippet t
    /\ overlap parts = round3 (t_overlap t)
    /\ title_score parts = round3 (t_title_score t)
    /\ transcript_score parts = round3 (t_transcript_score t)
    /\ db_parts parts = t_db_parts t
    /\ desired_parts parts = t_desired t.
Proof.
  intros rt cfg st md nt dp c lo hi m cur snip composite parts H.
  unfold compute_score in H.
  destruct (score_terms rt cfg st md nt dp c lo hi m cur snip) as [t|e];
    cbn [bind] in H; [|discriminate].
  exists t. inversion H; subst. repeat split; reflexivity.
Qed.

Lemma composite_bounds :
  forall rt cfg session_type meeting_date needle_title desired_participants
         center_ms lo_ms hi_ms m cur transcript_snippet composite parts,
  ratio_in_unit rt ->
  compute_score rt cfg session_type meeting_date needle_title desired_participants
                center_ms lo_ms hi_ms m cur transcript_snippet = Ok (composite, parts) ->
  - (50 # 100) <= composite /\ composite <= 147 # 100.
Proof.
  intros rt cfg st md nt dp c lo hi m cur snip composite parts Hr H.
  apply compute_score_inv in H as [t [Ht [Hc _]]]. subst composite.
  pose proof (score_terms_fields _ _ _ _ _ _ _ _ _ _ _ _ Ht) as Hf. cbv zeta in Hf.
  destruct Hf as [Ho [Hti [Htm [Htr [Hsd [Hset Hg]]]]]].
  pose proof (participant_overlap_in_unit cfg (stripped_names dp)
                (derive_db_participants rt cfg m cur)) as Bo. rewrite <- Ho in Bo.
  pose proof (title_similarity_in_unit (or_empty nt) (or_empty (row_title m)) Hr) as Bti.
  rewrite <- Hti in Bti.
  pose proof (time_proximity_in_unit c lo hi m) as Btm. rewrite <- Htm in Btm.
  pose proof (transcript_match_in_unit snip (row_audio_transcript m) Hr) as Btr.
  rewrite <- Htr in Btr.
  pose proof (set_adjustments_spec st (stripped_names dp)
                (derive_db_participants rt cfg m cur)) as Bs. cbv zeta in Bs.
  pose proof (penalties_bound st (stripped_names dp)
                (derive_db_participants rt cfg m cur)) as Bp.
  pose proof (group_size_penalty_range st (derive_db_participants rt cfg m cur)) as Bg.
  rewrite <- Hset in Bs, Bp. rewrite <- Hg in Bp, Bg. cbn [fst snd] in Bs, Bp.
  assert (Bsd : 0 <= t_same_day_bonus t /\ t_same_day_bonus t <= 10 # 100).
  { destruct Hsd as [[E _]|[E _]]; rewrite E; split; lra. }
  rewrite compose_spec. unfold spec_composite, spec_weights.
  destruct Bo, Bti, Btm, Btr, Bsd, Bs as [? [? [? [? ?]]]], Bg as [? [? ?]].
  repeat match goal with |- context [if ?c then _ else _] => destruct c end;
    cbn [w_overlap w_title w_time]; split; lra.
Qed.

(** X1. The fuzzy participant overlap is a fraction: for every list of
    desired names and every list of stored names it lies between 0 and 1,
    it is 0 when no name is desired, and it is 0 when no name is stored. *)
Theorem X1_participant_overlap_is_a_fraction : forall cfg desired db_parts,
  0 <= participant_overlap_fuzzy cfg desired db_parts
  /\ participant_overlap_fuzzy cfg desired db_parts <= 1
  /\ participant_overlap_fuzzy cfg [] db_parts == 0
  /\ participant_overlap_fuzzy cfg desired [] == 0.
Proof.
  intros cfg desired db_parts.
  destruct (participant_overlap_in_unit cfg desired db_parts) as [H0 H1].
  repeat split; try assumption; try reflexivity.
  unfold participant_overlap_fuzzy. destruct desired as [|w desired]; [reflexivity|].
  cbn [existsb]. rewrite (filter_none _ (expand_aliases cfg (w :: desired))).
  - reflexivity.
  - reflexivity.
Qed.

(** X2. The time score lies between 0 and 1; it is 1 for a candidate whose
    midpoint is the centre, and it is 0 for a candidate whose midpoint (when
    it is not 0) is at least the width of the window away from the centre. *)
Theorem X2_time_score_range : forall center_ms lo_ms hi_ms m,
  0 <= time_proximity center_ms lo_ms hi_ms m
  /\ time_proximity center_ms lo_ms hi_ms m <= 1
  /\ (time_midpoint center_ms m = center_ms ->
      time_proximity center_ms lo_ms hi_ms m == 1)
  /\ (time_midpoint center_ms m <> 0%Z ->
      (Z.max 1 (hi_ms - lo_ms) <= Z.abs (time_midpoint center_ms m - center_ms))%Z ->
      time_proximity center_ms lo_ms hi_ms m == 0).
Proof.
  intros c lo hi m. destruct (time_proximity_in_unit c lo hi m) as [H0 H1].
  repeat split; try assumption.
  - apply time_proximity_at_center.
  - apply time_proximity_far.
Qed.

(** X3. Whenever the ratios of [difflib] lie between 0 and 1, so does the
    title similarity of any two titles, whatever components the enhanced
    matching finds in them and whatever boost it adds. *)
Theorem X3_title_similarity_range : forall rt a b,
  ratio_in_unit rt ->
  0 <= title_similarity rt a b /\ title_similarity rt a b <= 1.
Proof.
  intros rt a b Hr. now apply title_similarity_in_unit.
Qed.

Lemma X3_title_similarity_range_witness :
  0 <= title_similarity greeting_runtime (lit "Jane 1:1") (lit "1:1 with Jane")
  /\ title_similarity greeting_runtime (lit "Jane 1:1") (lit "1:1 with Jane") <= 1.
Proof.
  apply (@X3_title_similarity_range greeting_runtime (lit "Jane 1:1") (lit "1:1 with Jane")).
  intros a b. simpl. destruct (str_eqb a b); split; lra.
Defined.

(** X4. Whenever the ratios of [difflib] lie between 0 and 1, so does the
    transcript score, with its two boosts and its second look at the first
    50 blocks; it is 0 when no snippet is supplied and when the candidate
    has no transcript. *)
Theorem X4_transcript_score_range : forall rt transcript_snippet audio_transcript,
  ratio_in_unit rt ->
  0 <= transcript_match rt transcript_snippet audio_transcript
  /\ transcript_match rt transcript_snippet audio_transcript <= 1
  /\ (opt_nonempty transcript_snippet = false \/ opt_nonempty audio_transcript = false ->
      transcript_match rt transcript_snippet audio_transcript = 0).
Proof.
  intros rt snip audio Hr.
  destruct (transcript_match_in_unit snip audio Hr) as [H0 H1].
  repeat split; try assumption.
  intros [H|H]; unfold transcript_match.
  - destruct snip as [[|c s]|]; try reflexivity. discriminate H.
  - destruct snip as [[|c s]|]; try reflexivity.
    destruct audio as [[|a t]|]; try reflexivity. discriminate H.
Qed.

Lemma X4_transcript_score_range_witness :
  0 <= transcript_match greeting_runtime (Some labelled_snippet)
         (Some (one_block_json greeting_text))
  /\ transcript_match greeting_runtime (Some labelled_snippet)
       (Some (one_block_json greeting_text)) <= 1
  /\ (opt_nonempty (Some labelled_snippet) = false
      \/ opt_nonempty (Some (one_block_json greeting_text)) = false ->
      transcript_match greeting_runtime (Some labelled_snippet)
        (Some (one_block_json greeting_text)) = 0).
Proof.
  apply (@X4_transcript_score_range greeting_runtime (Some labelled_snippet)
           (Some (one_block_json greeting_text))).
  intros a b. simpl. destruct (str_eqb a b); split; lra.
Defined.

(** X5. The set-logic adjustments. The bonus lies between 0 and 0.37 and
    the penalty between 0 and 0.45 (0.35 outside 1-on-1 sessions); a bonus
    is given only when the lower-cased desired names and the lower-cased
    stored names are the same set; without desired names there is neither
    a bonus nor a penalty. *)
Theorem X5_set_adjustments_range : forall session_type desired db_parts,
  let set_bonus := fst (set_adjustments session_type desired db_parts) in
  let set_penalty := snd (set_adjustments session_type desired db_parts) in
  0 <= set_bonus /\ set_bonus <= 37 # 100
  /\ 0 <= set_penalty
  /\ set_penalty <= (if str_eqb session_type (lit "1-on-1") then 45 # 100 else 35 # 100)
  /\ (0 < set_bonus ->
      desired <> [] /\ set_eqb (lower_set desired) (lower_set db_parts) = true)
  /\ set_adjustments session_type [] db_parts = (0, 0).
Proof.
  intros st desired db_parts. cbv zeta.
  destruct (set_adjustments_spec st desired db_parts) as [H1 [H2 [H3 [H4 H5]]]].
  repeat split; try assumption; apply H5; assumption.
Qed.

(** X6. The weights of a session type, whether the table knows it or not,
    are positive and add up to 1; when a snippet is supplied the re-scaled
    weights and the transcript weight add up to at most 0.89. *)
Theorem X6_weights_sum_to_one : forall session_type,
  let w := table_get WEIGHT_TABLE session_type default_weights in
  0 < w_overlap w /\ 0 < w_title w /\ 0 < w_time w
  /\ w_overlap w + w_title w + w_time w == 1
  /\ w_overlap w * (2 # 10) + w_title w * (2 # 10) + w_time w * (5 # 10) + (60 # 100)
     <= 89 # 100.
Proof.
  intro st. cbv zeta. rewrite table_weights. unfold spec_weights.
  repeat match goal with |- context [if ?c then _ else _] => destruct c end;
    cbn [w_overlap w_title w_time]; repeat split; lra.
Qed.

(** X7. The composite score is not clamped, yet it is bounded: whenever
    the ratios of [difflib] lie between 0 and 1, a composite that
    [compute_score] returns is greater than -0.51 and less than 1.48, for
    every session type, every candidate and every pending record. The
    terms add up to -0.50 at least and to 1.47 at most; the hundredth
    between these sums and the bounds is room for the rounding of the
    float additions of the code, which returns 1.4700000000000002 where
    the terms add up to 1.47. *)
Theorem X7_composite_range :
  forall rt cfg session_type meeting_date needle_title desired_participants
         center_ms lo_ms hi_ms m cur transcript_snippet,
  ratio_in_unit rt ->
  match compute_score rt cfg session_type meeting_date needle_title desired_participants
                      center_ms lo_ms hi_ms m cur transcript_snippet with
  | Ok (composite, _) => - (51 # 100) < composite /\ composite < 148 # 100
  | Raise _ => True
  end.
Proof.
  intros rt cfg st md nt dp c lo hi m cur snip Hr.
  destruct (compute_score rt cfg st md nt dp c lo hi m cur snip) as [[composite parts]|e]
    eqn:H; [|exact I].
  destruct (composite_bounds _ _ _ _ _ _ _ _ _ _ _ Hr H) as [Hlo Hhi].
  split; lra.
Qed.

Lemma X7_composite_range_witness :
  match compute_score greeting_runtime example_config (lit "1-on-1")
                      (Some (lit "2024-03-10")) (Some (lit "Weekly sync"))
                      [lit "Jane Doe"; lit "Your Name"]
                      noon_2024_03_10 (noon_2024_03_10 - hours 36)%Z
                      (noon_2024_03_10 + hours 36)%Z greeting_meeting None
                      (Some labelled_snippet) with
  | Ok (composite, _) => - (51 # 100) < composite /\ composite < 148 # 100
  | Raise _ => True
  end.
Proof.
  apply (@X7_composite_range greeting_runtime example_config (lit "1-on-1")
           (Some (lit "2024-03-10")) (Some (lit "Weekly sync"))
           [lit "Jane Doe"; lit "Your Name"]
           noon_2024_03_10 (noon_2024_03_10 - hours 36)%Z
           (noon_2024_03_10 + hours 36)%Z greeting_meeting None
           (Some labelled_snippet)).
  intros a b. simpl. destruct (str_eqb a b); split; lra.
Defined.

(* ------------------------------------------------------------------ *)
(** * Normalized titles *)

Lemma Forall_lstrip : forall (P : N -> Prop) s, Forall P s -> Forall P (lstrip s).
Proof.
  intros P s H. induction H as [|c r Hc Hr IH]; simpl; [constructor|].
  destruct (is_space c); [assumption | now constructor].
Qed.

Lemma Forall_strip : forall (P : N -> Prop) s, Forall P s -> Forall P (strip s).
Proof.
  intros P s H. unfold strip, rstrip.
  apply Forall_rev, Forall_lstrip, Forall_rev, Forall_lstrip, H.
Qed.

Lemma title_clean_chars : forall in_run s,
  Forall (fun c => title_keep c = true) (title_clean_from in_run s).
Proof.
  intros b s. revert b. induction s as [|c r IH]; intro b; simpl; [constructor|].
  destruct (title_keep c) eqn:E.
  - constructor; [assumption | apply IH].
  - destruct b; [apply IH|]. constructor; [reflexivity | apply IH].
Qed.

Lemma collapse_chars : forall (P : N -> Prop) in_run s,
  Forall P s ->
  Forall (fun c => P c /\ is_space c = false \/ c = 32%N) (collapse_from in_run s).
Proof.
  intros P b s H. revert b. induction H as [|c r Hc Hr IH]; intro b; simpl; [constructor|].
  destruct (is_space c) eqn:E.
  - destruct b; [apply IH|]. constructor; [now right | apply IH].
  - constructor; [left; now split | apply IH].
Qed.

Lemma normalize_title_chars : forall s, Forall title_char_ok (normalize_title s).
Proof.
  intro s. unfold normalize_title. apply Forall_strip.
  pose proof (collapse_chars false (title_clean_chars false (lower (strip s)))) as H.
  eapply Forall_impl; [|exact H].
  intros c [[Hk Hs]|Hc]; unfold title_char_ok; [|now right; right].
  unfold title_keep in Hk. rewrite Hs, orb_false_r in Hk.
  apply orb_true_iff in Hk. tauto.
Qed.

Lemma split_once_absent : forall sep s,
  Forall (fun c => c <> sep) s -> split_once sep s = (s, None).
Proof.
  intros sep s H. induction H as [|c r Hc Hr IH]; simpl; [reflexivity|].
  destruct (N.eqb_spec c sep) as [E|_]; [contradiction|]. now rewrite IH.
Qed.

Lemma title_char_not_colon : forall c, title_char_ok c -> c <> 58%N.
Proof.
  intros c [H|[H|H]] E; rewrite E in H; discriminate H.
Qed.

Lemma contains_colon_absent : forall s,
  Forall (fun c => c <> 58%N) s -> contains (lit "1:1") s = false.
Proof.
  intros s H. induction H as [|c r Hc Hr IH]; [reflexivity|].
  cbn [contains]. rewrite IH, orb_false_r.
  change (lit "1:1") with [49%N; 58%N; 49%N]. cbn [startswith].
  destruct r as [|c2 r2]; [now rewrite andb_false_r|].
  inversion Hr as [|? ? Hc2 _]; subst.
  destruct (N.eqb_spec 58 c2) as [E|_]; [now symmetry in E|].
  cbn [andb]. now rewrite andb_false_r.
Qed.

Lemma lower_title_chars : forall s, Forall title_char_ok s -> lower s = s.
Proof.
  intros s H. induction H as [|c r Hc Hr IH]; [reflexivity|].
  unfold lower in *. cbn [map]. rewrite IH. f_equal.
  unfold lower_char.
  assert (Hup : is_upper_az c || is_upper_latin1 c = false).
  { destruct Hc as [H|[H|H]].
    - unfold is_lower_az, is_upper_az, is_upper_latin1, in_range in *.
      apply andb_true_iff in H as [H1 H2].
      apply N.leb_le in H1, H2.
      apply orb_false_iff. split; apply andb_false_iff.
      + right. apply N.leb_gt. lia.
      + left. apply andb_false_iff. left. apply N.leb_gt. lia.
    - unfold is_digit, is_upper_az, is_upper_latin1, in_range in *.
      apply andb_true_iff in H as [H1 H2].
      apply N.leb_le in H1, H2.
      apply orb_false_iff. split; apply andb_false_iff.
      + left. apply N.leb_gt. lia.
      + left. apply andb_false_iff. left. apply N.leb_gt. lia.
    - subst c. reflexivity. }
  now rewrite Hup.
Qed.

(** The components of a normalized title: without a topic, and found
    without the text [1:1]. *)
Lemma normalized_components : forall t,
  topic (extract_title_components (normalize_title t)) = None
  /\ contains (lit "1:1") (lower (normalize_title t)) = false.
Proof.
  intro t. pose proof (normalize_title_chars t) as H.
  assert (Hc : Forall (fun c => c <> 58%N) (normalize_title t)).
  { eapply Forall_impl; [|exact H]. exact title_char_not_colon. }
  split.
  - unfold extract_title_components. cbn [topic].
    now rewrite (split_once_absent Hc).
  - rewrite (lower_title_chars H). now apply contains_colon_absent.
Qed.

(** X8. Inside [title_similarity] the enhanced matching works on the
    normalized titles, which hold no colon: the components extracted there
    have no topic, the text [1:1] is never what marks a 1-on-1, and the
    enhanced score never consults [difflib] (it is the same for any two
    runtimes). *)
Theorem X8_normalized_titles_have_no_topic : forall t,
  topic (extract_title_components (normalize_title t)) = None
  /\ contains (lit "1:1") (lower (normalize_title t)) = false
  /\ (forall rt1 rt2 u,
        enhanced_title_matching rt1 (normalize_title t) (normalize_title u)
        = enhanced_title_matching rt2 (normalize_title t) (normalize_title u)).
Proof.
  intro t. destruct (normalized_components t) as [Htopic Hone].
  repeat split; try assumption.
  intros rt1 rt2 u.
  unfold enhanced_title_matching, calculate_component_similarity.
  rewrite Htopic. reflexivity.
Qed.

(* ------------------------------------------------------------------ *)
(** * The selector: what it returns *)

Lemma fetch_by_id_sound : forall db meeting_id row,
  fetch_by_id db meeting_id = Some row ->
  exists stored, In (stored, None) (Meeting db) /\ row = without_speakers stored
                 /\ row_id stored = meeting_id.
Proof.
  intros db id row H. unfold fetch_by_id, get_meeting_by_id, execute_on_Meeting in H.
  destruct (has_Meeting db); [|discriminate].
  destruct (filter (fun r => live r && str_eqb (row_id (fst r)) id) (Meeting db))
    as [|[stored del] rest] eqn:E; [discriminate|].
  cbn [option_map fst] in H. inversion H; subst row.
  assert (Hin : In (stored, del)
                  (filter (fun r => live r && str_eqb (row_id (fst r)) id) (Meeting db))).
  { rewrite E. now left. }
  apply filter_In in Hin as [Hin Hp]. apply andb_true_iff in Hp as [Hlive Hid].
  unfold live in Hlive. cbn [snd fst] in Hlive, Hid.
  destruct del; [discriminate|]. apply str_eqb_eq in Hid.
  exists stored. repeat split; assumption.
Qed.

Lemma fetch_start_in_window_sound : forall db lo_ms hi_ms limit items r,
  fetch_start_in_window db lo_ms hi_ms limit = Ok items ->
  In r items ->
  In (r, None) (Meeting db) /\ start_in_window lo_ms hi_ms r = true.
Proof.
  intros db lo hi limit items r Hf H. unfold fetch_start_in_window, execute_on_Meeting in Hf.
  destruct (has_Meeting db); [|discriminate]. inversion Hf; subst items; clear Hf.
  apply In_firstn in H. apply (proj1 (In_sort_by_start _ _)) in H.
  apply filter_In in H as [H Hw]. split; [|assumption].
  now apply In_live_rows.
Qed.

(** The three reasons of the two [if scored:] blocks. *)
Lemma accept_top_reasons : forall session_type top reason,
  accept_top session_type top = Some reason ->
  reason = lit "transcript" \/ reason = lit "ranked_window" \/ reason = lit "ranked_overlap".
Proof.
  intros st top reason H. unfold accept_top in H. cbv zeta in H.
  repeat match type of H with
         | context [if ?c then _ else _] => destruct c
         end; inversion H; subst; tauto.
Qed.

(** The title scan keeps the first candidate of the greatest similarity,
    among those with a transcript and a similarity above 0. *)
Lemma best_scan_fold : forall (sim : MeetingRow -> Q) items acc,
  let res := fold_left
               (fun (acc : option MeetingRow * Q) m =>
                  if negb (opt_nonempty (row_audio_transcript m)) then acc
                  else if Qltb (snd acc) (sim m) then (Some m, sim m) else acc)
               items acc in
  snd acc <= snd res
  /\ (forall m, In m items -> opt_nonempty (row_audio_transcript m) = true ->
                sim m <= snd res)
  /\ (fst res = fst acc /\ snd res = snd acc
      \/ exists m, In m items /\ fst res = Some m
                   /\ opt_nonempty (row_audio_transcript m) = true
                   /\ snd res = sim m /\ snd acc < sim m).
Proof.
  intros sim items. induction items as [|x items IH]; intros acc; cbv zeta.
  - cbn [fold_left]. repeat split; try apply Qle_refl.
    + intros m [].
    + now left.
  - cbn [fold_left].
    set (acc' := if negb (opt_nonempty (row_audio_transcript x)) then acc
                 else if Qltb (snd acc) (sim x) then (Some x, sim x) else acc).
    specialize (IH acc'). cbv zeta in IH.
    destruct IH as [Hle [Hall Hres]].
    assert (Hstep : snd acc <= snd acc'
                    /\ (opt_nonempty (row_audio_transcript x) = true -> sim x <= snd acc')
                    /\ (acc' = acc
                        \/ acc' = (Some x, sim x)
                           /\ opt_nonempty (row_audio_transcript x) = true
                           /\ snd acc < sim x)).
    { subst acc'. destruct (opt_nonempty (row_audio_transcript x)); cbn [negb].
      - destruct (Qltb (snd acc) (sim x)) eqn:E.
        + apply Qltb_lt in E. cbn [snd]. repeat split.
          * now apply Qlt_le_weak.
          * intros _. apply Qle_refl.
          * right. repeat split; assumption.
        + apply Qltb_ge in E. repeat split.
          * apply Qle_refl.
          * intros _. exact E.
          * now left.
      - repeat split; [apply Qle_refl | discriminate | now left]. }
    destruct Hstep as [Hs1 [Hs2 Hs3]].
    repeat split.
    + eapply Qle_trans; eassumption.
    + intros m [Hm|Hm] Ht.
      * subst m. eapply Qle_trans; [apply Hs2, Ht | exact Hle].
      * now apply Hall.
    + destruct Hres as [[Hf Hs]|[m [Hin [Hf [Ht [Hs Hlt]]]]]].
      * destruct Hs3 as [E|[E [Ht Hlt]]].
        -- left. rewrite Hf, Hs, E. now split.
        -- right. exists x. rewrite Hf, Hs, E. cbn [fst snd].
           repeat split; try assumption; try reflexivity. now left.
      * right. exists m. repeat split; try assumption.
        -- now right.
        -- eapply Qle_lt_trans; eassumption.
Qed.

Lemma best_by_title_spec : forall rt look_title items best best_s,
  best_by_title rt look_title items = (Some best, best_s) ->
  In best items
  /\ opt_nonempty (row_audio_transcript best) = true
  /\ best_s = title_similarity rt (or_empty look_title) (or_empty (row_title best))
  /\ 0 < best_s
  /\ (forall m, In m items -> opt_nonempty (row_audio_transcript m) = true ->
        title_similarity rt (or_empty look_title) (or_empty (row_title m)) <= best_s).
Proof.
  intros rt look items best best_s H.
  pose proof (best_scan_fold
                (fun m => title_similarity rt (or_empty look) (or_empty (row_title m)))
                items (None, 0)) as F.
  cbv beta zeta in F. unfold best_by_title in H. cbv beta zeta in H.
  rewrite H in F. cbn [fst snd] in F.
  destruct F as [_ [Hall [[Hf _]|[m [Hin [Hf [Ht [Hs Hlt]]]]]]]]; [discriminate|].
  inversion Hf; subst m. repeat split; try assumption.
  now rewrite Hs.
Qed.

(** The head of the sorted list is the first of the scored items that have
    the greatest score. *)
Lemma sort_by_score_top : forall l top rest,
  sort_by_score l = top :: rest ->
  exists pre post,
    l = pre ++ top :: post
    /\ (forall t, In t pre -> item_score t < item_score top)
    /\ (forall t, In t post -> item_score t <= item_score top).
Proof.
  induction l as [|x r IH]; intros top rest H; [discriminate|].
  cbn [sort_by_score] in H.
  destruct (sort_by_score r) as [|y s'] eqn:Es.
  - assert (Hr : r = []).
    { destruct r as [|z r']; [reflexivity|].
      assert (Hz : In z (sort_by_score (z :: r'))).
      { apply In_sort_by_score. now left. }
      rewrite Es in Hz. destruct Hz. }
    subst r. cbn [insert_by_score] in H. inversion H; subst.
    exists [], []. repeat split; intros t [].
  - destruct (IH y s' eq_refl) as [pre [post [Hl [Hpre Hpost]]]].
    cbn [insert_by_score] in H.
    destruct (Qltb (item_score x) (item_score y)) eqn:E.
    + apply Qltb_lt in E. inversion H; subst top rest.
      exists (x :: pre), post. rewrite Hl. repeat split.
      * intros t [Ht|Ht]; [now subst t | now apply Hpre].
      * assumption.
    + apply Qltb_ge in E. inversion H; subst top rest.
      exists [], r. repeat split.
      * intros t [].
      * intros t Ht. rewrite Hl in Ht. apply in_app_or in Ht.
        destruct Ht as [Ht|[Ht|Ht]].
        -- apply Qlt_le_weak. eapply Qlt_le_trans; [now apply Hpre | exact E].
        -- now subst t.
        -- eapply Qle_trans; [now apply Hpost | exact E].
Qed.

(** The ways in which the selector returns on an open store: by the
    identifier; or, after the candidates of the window are scored, by the
    score of the first of the sorted candidates, by the title scan, or
    with nothing. *)
Lemma find_best_candidate_cases : forall rt cfg db pd row reason diagnostics,
  find_best_candidate rt cfg (Some db) pd = Ok (row, reason, diagnostics) ->
  (exists qid r,
      pd_quill_meeting_id pd = Some qid /\ qid <> []
      /\ fetch_by_id db qid = Some r /\ opt_nonempty (row_audio_transcript r) = true
      /\ row = Some r /\ reason = Some (lit "id") /\ diagnostics = [])
  \/ exists lo_ms hi_ms center scored,
       local_day_bounds_ms cfg (pd_meeting_date pd) = Ok (lo_ms, hi_ms)
       /\ scoring_center pd lo_ms hi_ms = Ok center
       /\ score_candidates rt cfg pd db center lo_ms hi_ms (window_candidates db lo_ms hi_ms)
          = Ok scored
       /\ diagnostics = map item_meta (firstn 25 (sort_by_score scored))
       /\ ((exists top rest why,
              sort_by_score scored = top :: rest
              /\ accept_top (session_type_of pd) top = Some why
              /\ row = Some (item_row top) /\ reason = Some why)
           \/ (exists items best best_s,
                 fetch_start_in_window db lo_ms hi_ms 500 = Ok items
                 /\ best_by_title rt (opt_or (pd_quill_title pd) (pd_meeting_title pd)) items
                    = (Some best, best_s)
                 /\ Qgeb best_s (70 # 100) = true
                 /\ row = Some best /\ reason = Some (lit "title"))
           \/ (row = None /\ reason = None)).
Proof.
  intros rt cfg db pd row reason diagnostics H.
  unfold find_best_candidate in H.
  match type of H with
  | context [match ?b with
             | Some r => Ok (Some r, Some (lit "id"), _)
             | None => _
             end] => set (by_id := b) in H
  end.
  assert (Hby : forall r, by_id = Some r ->
                exists qid, pd_quill_meeting_id pd = Some qid /\ qid <> []
                            /\ fetch_by_id db qid = Some r
                            /\ opt_nonempty (row_audio_transcript r) = true).
  { intros r Hr. subst by_id.
    destruct (pd_quill_meeting_id pd) as [[|c s]|]; try discriminate.
    destruct (fetch_by_id db (c :: s)) as [r'|] eqn:Ef; [|discriminate].
    destruct (opt_nonempty (row_audio_transcript r')) eqn:Et; [|discriminate].
    inversion Hr; subst r'. exists (c :: s).
    repeat split; try assumption; try reflexivity. discriminate. }
  destruct by_id as [r|].
  { left. destruct (Hby r eq_refl) as [qid [H1 [H2 [H3 H4]]]].
    exists qid, r. inversion H; subst. repeat split; assumption. }
  clear Hby. right.
  destruct (local_day_bounds_ms cfg (pd_meeting_date pd)) as [[lo hi]|e] eqn:Eb;
    cbn [bind] in H; [|discriminate].
  destruct (scoring_center pd lo hi) as [center|e] eqn:Ec; cbn [bind] in H; [|discriminate].
  destruct (score_candidates rt cfg pd db center lo hi (window_candidates db lo hi))
    as [scored|e] eqn:Esc; cbn [bind] in H; [|discriminate].
  exists lo, hi, center, scored.
  split; [reflexivity|]. split; [exact Ec|]. split; [exact Esc|].
  cbn [app] in H.
  assert (Htitle :
    forall d,
      (items <- fetch_start_in_window db lo hi 500 ;;
       match best_by_title rt (opt_or (pd_quill_title pd) (pd_meeting_title pd)) items with
       | (Some best, best_s) =>
           if Qgeb best_s (70 # 100)
           then Ok (Some best, Some (lit "title"), d)
           else Ok (None, None, d)
       | (None, _) => Ok (None, None, d)
       end) = Ok (row, reason, diagnostics) ->
      diagnostics = d
      /\ ((exists items best best_s,
             fetch_start_in_window db lo hi 500 = Ok items
             /\ best_by_title rt (opt_or (pd_quill_title pd) (pd_meeting_title pd)) items
                = (Some best, best_s)
             /\ Qgeb best_s (70 # 100) = true
             /\ row = Some best /\ reason = Some (lit "title"))
          \/ (row = None /\ reason = None))).
  { intros d Hd.
    destruct (fetch_start_in_window db lo hi 500) as [items|e]; cbn [bind] in Hd;
      [|discriminate].
    destruct (best_by_title rt (opt_or (pd_quill_title pd) (pd_meeting_title pd)) items)
      as [[best|] best_s] eqn:Ebest.
    - destruct (Qgeb best_s (70 # 100)) eqn:Eg; inversion Hd; subst;
        (split; [reflexivity|]).
      + left. exists items, best, best_s. repeat split; try assumption; reflexivity.
      + right. now split.
    - inversion Hd; subst. split; [reflexivity|]. right. now split. }
  destruct (sort_by_score scored) as [|top rest] eqn:Es.
  { apply Htitle in H as [Hd Hc]. split; [assumption | right; exact Hc]. }
  destruct (accept_top (session_type_of pd) top) as [why|] eqn:Ea.
  - inversion H; subst. split; [reflexivity|]. left.
    exists top, rest, why. repeat split; try assumption; reflexivity.
  - apply Htitle in H as [Hd Hc]. split; [assumption | right; exact Hc].
Qed.

(** What the scoring loop records for a candidate it keeps. *)
Lemma fold_score_candidate_items :
  forall rt cfg pd db center lo_ms hi_ms cands acc scored,
  fold_result (score_candidate rt cfg pd db center lo_ms hi_ms) cands acc = Ok scored ->
  forall t, In t scored ->
  In t acc
  \/ In (item_row t) cands
     /\ opt_nonempty (row_audio_transcript (item_row t)) = true
     /\ meta_brief (item_meta t) = brief_of (item_row t)
     /\ meta_session_type (item_meta t) = session_type_of pd
     /\ compute_score rt cfg (session_type_of pd) (pd_meeting_date pd)
          (opt_or (pd_quill_title pd) (pd_meeting_title pd)) (desired_of pd)
          center lo_ms hi_ms (item_row t) (Some db) (pd_transcript_snippet pd)
        = Ok (item_score t, meta_parts (item_meta t)).
Proof.
  intros rt cfg pd db center lo hi cands.
  induction cands as [|m cands IH]; intros acc scored H t Ht; cbn [fold_result] in H.
  - inversion H; subst. now left.
  - unfold score_candidate in H at 1.
    destruct (opt_nonempty (row_audio_transcript m)) eqn:Ea; cbn [negb bind] in H.
    2:{ destruct (IH _ _ H t Ht) as [Hacc|[Hin Hrest]]; [now left|].
        right. split; [now right | exact Hrest]. }
    destruct (prefilter_skips (desired_of pd) (pd_transcript_snippet pd)
                (derive_db_participants rt cfg m (Some db))); cbn [bind] in H.
    { destruct (IH _ _ H t Ht) as [Hacc|[Hin Hrest]]; [now left|].
      right. split; [now right | exact Hrest]. }
    destruct (compute_score rt cfg (session_type_of pd) (pd_meeting_date pd)
                (opt_or (pd_quill_title pd) (pd_meeting_title pd)) (desired_of pd)
                center lo hi m (Some db) (pd_transcript_snippet pd))
      as [[score parts]|e] eqn:Ec; cbn [bind] in H; [|discriminate].
    destruct (IH _ _ H t Ht) as [Hacc|[Hin Hrest]].
    + apply in_app_or in Hacc as [Hacc|[Hnew|[]]]; [now left|].
      right. subst t. unfold item_row, item_meta, item_score. cbn [fst snd].
      repeat split; try assumption; try reflexivity. now left.
    + right. split; [now right | exact Hrest].
Qed.

Lemma score_candidates_items :
  forall rt cfg pd db center lo_ms hi_ms cands scored t,
  score_candidates rt cfg pd db center lo_ms hi_ms cands = Ok scored ->
  In t scored ->
  In (item_row t) cands
  /\ opt_nonempty (row_audio_transcript (item_row t)) = true
  /\ meta_brief (item_meta t) = brief_of (item_row t)
  /\ meta_session_type (item_meta t) = session_type_of pd
  /\ compute_score rt cfg (session_type_of pd) (pd_meeting_date pd)
       (opt_or (pd_quill_title pd) (pd_meeting_title pd)) (desired_of pd)
       center lo_ms hi_ms (item_row t) (Some db) (pd_transcript_snippet pd)
     = Ok (item_score t, meta_parts (item_meta t)).
Proof.
  intros rt cfg pd db center lo hi cands scored t H Ht.
  destruct (@fold_score_candidate_items rt cfg pd db center lo hi cands [] scored H t Ht)
    as [[]|Hr].
  exact Hr.
Qed.

(** X9. A row that the selector returns, for whatever reason, is a stored
    meeting that is not deleted (as stored, or without its speakers
    column) and that has a transcript. *)
Theorem X9_selected_row_is_stored_with_transcript :
  forall rt cfg store pd row reason diagnostics,
  find_best_candidate rt cfg store pd = Ok (Some row, reason, diagnostics) ->
  opt_nonempty (row_audio_transcript row) = true
  /\ exists db stored,
       store = Some db /\ In (stored, None) (Meeting db)
       /\ (row = stored \/ row = without_speakers stored).
Proof.
  intros rt cfg store pd row reason diagnostics H.
  destruct store as [db|]; [|discriminate H].
  apply find_best_candidate_cases in H.
  destruct H as [[qid [r [_ [_ [Hf [Ht [Hrow _]]]]]]]
                |[lo [hi [center [scored [Hb [Hc [Hs [_ Hcase]]]]]]]]].
  - inversion Hrow; subst r. split; [assumption|].
    apply fetch_by_id_sound in Hf as [stored [Hin [Hr _]]].
    exists db, stored. repeat split; try assumption. now right.
  - destruct Hcase as [[top [rest [why [Hsort [_ [Hrow _]]]]]]
                      |[[items [best [best_s [Hfetch [Hbest [_ [Hrow _]]]]]]]|[Hrow _]]];
      [| |discriminate].
    + inversion Hrow; subst row.
      assert (Hin : In top scored).
      { apply In_sort_by_score. rewrite Hsort. now left. }
      destruct (@score_candidates_items rt cfg pd db center lo hi _ scored top Hs Hin)
        as [Hcand [Ht _]].
      split; [assumption|].
      apply window_candidates_sound in Hcand as [stored [Hst [Hr _]]].
      exists db, stored. repeat split; try assumption. now right.
    + inversion Hrow; subst row.
      apply best_by_title_spec in Hbest as [Hin [Ht _]]. split; [assumption|].
      apply (@fetch_start_in_window_sound db lo hi 500 items best Hfetch) in Hin
        as [Hin _].
      exists db, best. repeat split; try assumption. now left.
Qed.

Lemma X9_selected_row_is_stored_with_transcript_witness :
  opt_nonempty (row_audio_transcript jane_meeting) = true
  /\ exists db stored,
       Some (store_of [eve_meeting; jane_meeting]) = Some db
       /\ In (stored, None) (Meeting db)
       /\ (jane_meeting = stored \/ jane_meeting = without_speakers stored).
Proof.
  refine (@X9_selected_row_is_stored_with_transcript plain_runtime example_config
            (Some (store_of [eve_meeting; jane_meeting])) jane_pending jane_meeting _ _ _).
  vm_compute. reflexivity.
Defined.

(** X10. Whatever the selector returns, its reason is one of [id],
    [transcript], [ranked_window], [ranked_overlap] and [title]; it lists
    at most 25 diagnostic rows, none when the identifier decides; and every
    diagnostic row is that of a candidate with a transcript, scored under
    the session type of the pending record. *)
Theorem X10_reasons_and_diagnostics :
  forall rt cfg store pd row reason diagnostics,
  find_best_candidate rt cfg store pd = Ok (row, reason, diagnostics) ->
  (reason = None \/ reason = Some (lit "id") \/ reason = Some (lit "transcript")
   \/ reason = Some (lit "ranked_window") \/ reason = Some (lit "ranked_overlap")
   \/ reason = Some (lit "title"))
  /\ (length diagnostics <= 25)%nat
  /\ (reason = Some (lit "id") -> diagnostics = [])
  /\ (forall d, In d diagnostics ->
        b_has_audio (meta_brief d) = true
        /\ meta_session_type d = session_type_of pd).
Proof.
  intros rt cfg store pd row reason diagnostics H.
  destruct store as [db|].
  2:{ inversion H; subst. repeat split; try (now left); try (simpl; lia);
        try contradiction. }
  apply find_best_candidate_cases in H.
  destruct H as [[qid [r [_ [_ [_ [_ [_ [Hreason Hd]]]]]]]]
                |[lo [hi [center [scored [Hb [Hc [Hs [Hd Hcase]]]]]]]]].
  - subst. repeat split; try (simpl; lia); try tauto; try contradiction.
  - assert (Hlen : (length diagnostics <= 25)%nat).
    { subst diagnostics. rewrite length_map, length_firstn. lia. }
    assert (Hrows : forall d, In d diagnostics ->
                      b_has_audio (meta_brief d) = true
                      /\ meta_session_type d = session_type_of pd).
    { intros d Hin. subst diagnostics. apply in_map_iff in Hin as [t [Ht Hin]].
      apply In_firstn in Hin. apply (proj1 (In_sort_by_score _ _)) in Hin.
      destruct (@score_candidates_items rt cfg pd db center lo hi _ scored t Hs Hin)
        as [_ [Ha [Hbrief [Hst _]]]].
      subst d. rewrite Hbrief. split; [exact Ha | exact Hst]. }
    assert (Hnotid : forall why,
              why = lit "transcript" \/ why = lit "ranked_window"
              \/ why = lit "ranked_overlap" \/ why = lit "title" ->
              Some why = Some (lit "id") -> diagnostics = []).
    { intros why Hw E. inversion E; subst why.
      destruct Hw as [Hw|[Hw|[Hw|Hw]]]; discriminate Hw. }
    destruct Hcase as [[top [rest [why [_ [Ha [_ Hreason]]]]]]
                      |[[items [best [best_s [_ [_ [_ [_ Hreason]]]]]]]|[_ Hreason]]];
      subst reason.
    + apply accept_top_reasons in Ha.
      split; [destruct Ha as [Ha|[Ha|Ha]]; subst why; tauto|].
      split; [assumption|]. split; [apply Hnotid; tauto | exact Hrows].
    + split; [tauto|]. split; [assumption|].
      split; [apply Hnotid; tauto | exact Hrows].
    + split; [tauto|]. split; [assumption|]. split; [discriminate | exact Hrows].
Qed.

Lemma X10_reasons_and_diagnostics_witness :
  exists row reason diagnostics,
    find_best_candidate plain_runtime example_config
      (Some (store_of [eve_meeting; jane_meeting])) jane_pending
    = Ok (row, reason, diagnostics)
    /\ (reason = None \/ reason = Some (lit "id") \/ reason = Some (lit "transcript")
        \/ reason = Some (lit "ranked_window") \/ reason = Some (lit "ranked_overlap")
        \/ reason = Some (lit "title"))
    /\ (length diagnostics <= 25)%nat
    /\ (reason = Some (lit "id") -> diagnostics = [])
    /\ (forall d, In d diagnostics ->
          b_has_audio (meta_brief d) = true
          /\ meta_session_type d = session_type_of jane_pending).
Proof.
  eexists. eexists. eexists. split.
  - vm_compute. reflexivity.
  - eapply (@X10_reasons_and_diagnostics plain_runtime example_config
             (Some (store_of [eve_meeting; jane_meeting])) jane_pending).
    vm_compute. reflexivity.
Defined.

(** X11. A row that the selector returns on its score (for the reason
    [transcript], [ranked_window] or [ranked_overlap]) is that of the first
    scored candidate, in the order of the window, among those of the
    greatest composite: no scored candidate has a greater composite, the
    ones scored before it have a smaller one, and its diagnostic row heads
    the diagnostics. *)
Theorem X11_ranked_row_has_the_greatest_composite :
  forall rt cfg db pd row reason diagnostics,
  find_best_candidate rt cfg (Some db) pd = Ok (Some row, Some reason, diagnostics) ->
  reason <> lit "id" -> reason <> lit "title" ->
  exists lo_ms hi_ms center scored pre top post,
    local_day_bounds_ms cfg (pd_meeting_date pd) = Ok (lo_ms, hi_ms)
    /\ scoring_center pd lo_ms hi_ms = Ok center
    /\ score_candidates rt cfg pd db center lo_ms hi_ms (window_candidates db lo_ms hi_ms)
       = Ok scored
    /\ scored = pre ++ top :: post
    /\ item_row top = row
    /\ (forall t, In t pre -> item_score t < item_score top)
    /\ (forall t, In t post -> item_score t <= item_score top)
    /\ hd_error diagnostics = Some (item_meta top).
Proof.
  intros rt cfg db pd row reason diagnostics H Hid Htitle.
  apply find_best_candidate_cases in H.
  destruct H as [[qid [r [_ [_ [_ [_ [_ [Hreason _]]]]]]]]
                |[lo [hi [center [scored [Hb [Hc [Hs [Hd Hcase]]]]]]]]].
  { inversion Hreason; subst. contradiction. }
  destruct Hcase as [[top [rest [why [Hsort [_ [Hrow _]]]]]]
                    |[[items [best [best_s [_ [_ [_ [_ Hreason]]]]]]]|[Hrow _]]];
    [|inversion Hreason; subst; contradiction|discriminate].
  destruct (sort_by_score_top _ Hsort) as [pre [post [Hl [Hpre Hpost]]]].
  exists lo, hi, center, scored, pre, top, post.
  inversion Hrow; subst row.
  repeat split; try assumption; try reflexivity.
  subst diagnostics. rewrite Hsort. reflexivity.
Qed.

Lemma X11_ranked_row_has_the_greatest_composite_witness :
  exists diagnostics,
    find_best_candidate plain_runtime example_config
      (Some (store_of [eve_meeting; jane_meeting])) jane_pending
    = Ok (Some jane_meeting, Some (lit "ranked_window"), diagnostics)
    /\ exists lo_ms hi_ms center scored pre top post,
         local_day_bounds_ms example_config (pd_meeting_date jane_pending)
         = Ok (lo_ms, hi_ms)
         /\ scoring_center jane_pending lo_ms hi_ms = Ok center
         /\ score_candidates plain_runtime example_config jane_pending
              (store_of [eve_meeting; jane_meeting]) center lo_ms hi_ms
              (window_candidates (store_of [eve_meeting; jane_meeting]) lo_ms hi_ms)
            = Ok scored
         /\ scored = pre ++ top :: post
         /\ item_row top = jane_meeting
         /\ (forall t, In t pre -> item_score t < item_score top)
         /\ (forall t, In t post -> item_score t <= item_score top)
         /\ hd_error diagnostics = Some (item_meta top).
Proof.
  eexists. split.
  - vm_compute. reflexivity.
  - eapply (@X11_ranked_row_has_the_greatest_composite plain_runtime example_config
              (store_of [eve_meeting; jane_meeting]) jane_pending jane_meeting
              (lit "ranked_window")).
    + vm_compute. reflexivity.
    + discriminate.
    + discriminate.
Defined.

(** X12. A row that the selector returns for the reason [title] is a
    stored meeting, not deleted, with a transcript, whose start lies in the
    window of the day; its title similarity to the title looked for is at
    least 0.70, and no meeting with a transcript that the title scan
    fetches has a greater one. *)
Theorem X12_title_fallback :
  forall rt cfg db pd row diagnostics,
  find_best_candidate rt cfg (Some db) pd = Ok (Some row, Some (lit "title"), diagnostics) ->
  let look_title := opt_or (pd_quill_title pd) (pd_meeting_title pd) in
  let sim := fun m => title_similarity rt (or_empty look_title) (or_empty (row_title m)) in
  exists lo_ms hi_ms items,
    local_day_bounds_ms cfg (pd_meeting_date pd) = Ok (lo_ms, hi_ms)
    /\ fetch_start_in_window db lo_ms hi_ms 500 = Ok items
    /\ In (row, None) (Meeting db)
    /\ start_in_window lo_ms hi_ms row = true
    /\ opt_nonempty (row_audio_transcript row) = true
    /\ 70 # 100 <= sim row
    /\ (forall m, In m items ->
          opt_nonempty (row_audio_transcript m) = true -> sim m <= sim row).
Proof.
  intros rt cfg db pd row diagnostics H. cbv zeta.
  apply find_best_candidate_cases in H.
  destruct H as [[qid [r [_ [_ [_ [_ [_ [Hreason _]]]]]]]]
                |[lo [hi [center [scored [Hb [Hc [Hs [Hd Hcase]]]]]]]]].
  { discriminate Hreason. }
  destruct Hcase as [[top [rest [why [_ [Ha [_ Hreason]]]]]]
                    |[[items [best [best_s [Hfetch [Hbest [Hge [Hrow _]]]]]]]|[Hrow _]]];
    [|
     |discriminate].
  { inversion Hreason; subst why. apply accept_top_reasons in Ha.
    destruct Ha as [Ha|[Ha|Ha]]; discriminate Ha. }
  inversion Hrow; subst best.
  apply best_by_title_spec in Hbest as [Hin [Ht [Hs' [_ Hall]]]].
  apply (@fetch_start_in_window_sound db lo hi 500 items row Hfetch) in Hin as [Hin Hw].
  exists lo, hi, items. repeat split; try assumption.
  - rewrite <- Hs'. unfold Qgeb in Hge. now apply Qle_bool_iff.
  - intros m Hm Hmt. rewrite <- Hs'. now apply Hall.
Qed.

Lemma X12_title_fallback_witness :
  exists lo_ms hi_ms items,
    local_day_bounds_ms example_config (pd_meeting_date weekly_pending) = Ok (lo_ms, hi_ms)
    /\ fetch_start_in_window (store_of [open_ended_meeting]) lo_ms hi_ms 500 = Ok items
    /\ In (open_ended_meeting, None) (Meeting (store_of [open_ended_meeting]))
    /\ start_in_window lo_ms hi_ms open_ended_meeting = true
    /\ opt_nonempty (row_audio_transcript open_ended_meeting) = true
    /\ 70 # 100 <= title_similarity plain_runtime
                     (or_empty (opt_or (pd_quill_title weekly_pending)
                                       (pd_meeting_title weekly_pending)))
                     (or_empty (row_title open_ended_meeting))
    /\ (forall m, In m items ->
          opt_nonempty (row_audio_transcript m) = true ->
          title_similarity plain_runtime
            (or_empty (opt_or (pd_quill_title weekly_pending)
                              (pd_meeting_title weekly_pending)))
            (or_empty (row_title m))
          <= title_similarity plain_runtime
               (or_empty (opt_or (pd_quill_title weekly_pending)
                                 (pd_meeting_title weekly_pending)))
               (or_empty (row_title open_ended_meeting))).
Proof.
  apply (@X12_title_fallback plain_runtime example_config (store_of [open_ended_meeting])
           weekly_pending open_ended_meeting []).
  vm_compute. reflexivity.
Defined.

(* ------------------------------------------------------------------ *)
(** * Speaker attribution: the names of the speaker keys *)

Lemma map_get_map_set_same : forall k v mapping,
  map_get k (map_set k v mapping) = Some v.
Proof.
  intros k v m. induction m as [|[k' v'] m IH]; cbn [map_set map_get].
  - now rewrite str_eqb_refl.
  - destruct (str_eqb k k') eqn:E; cbn [map_get].
    + now rewrite str_eqb_refl.
    + now rewrite E.
Qed.

Lemma map_has_map_set : forall k v k' mapping,
  map_has k' mapping = true -> map_has k' (map_set k v mapping) = true.
Proof.
  intros k v k' m. unfold map_has.
  induction m as [|[k0 v0] m IH]; cbn [map_set map_get]; [discriminate|].
  intro H. destruct (str_eqb k k0) eqn:E; cbn [map_get].
  - apply str_eqb_eq in E. subst k0.
    destruct (str_eqb k' k); [reflexivity | exact H].
  - destruct (str_eqb k' k0); [reflexivity | now apply IH].
Qed.

Lemma map_has_map_set_same : forall k v mapping, map_has k (map_set k v mapping) = true.
Proof.
  intros k v m. unfold map_has. now rewrite map_get_map_set_same.
Qed.

(** A turn of the last loop names the key of its block and keeps the keys
    that have a name. *)
Lemma assign_remaining_keys : forall rt cfg pref_non_me st idx b st',
  assign_remaining rt cfg pref_non_me st (idx, b) = Ok st' ->
  map_has (_speaker_key rt b idx) (mapping st') = true
  /\ (forall k, map_has k (mapping st) = true -> map_has k (mapping st') = true).
Proof.
  intros rt cfg pref st idx b st' H. unfold assign_remaining in H.
  destruct (map_has (_speaker_key rt b idx) (mapping st)) eqn:Ehas.
  { inversion H; subst st'. split; [assumption | tauto]. }
  destruct (text_or_empty (dict_get (lit "source") b)) as [source|e];
    cbn [bind] in H; [|discriminate].
  destruct (mem (_norm_name source) [lit "me"; lit "local"; lit "local_user"; lit "self"]).
  { inversion H; subst st'. cbn [mapping].
    split; [apply map_has_map_set_same | intros k; apply map_has_map_set]. }
  destruct (text_or_empty (dict_get (lit "text") b)) as [text|e];
    cbn [bind] in H; [|discriminate].
  cbv zeta in H.
  match type of H with
  | context [match ?g with Some _ => _ | None => _ end] => destruct g as [guessed|]
  end.
  { inversion H; subst st'. cbn [mapping].
    split; [apply map_has_map_set_same | intros k; apply map_has_map_set]. }
  match type of H with
  | context [match ?g with Some _ => _ | None => _ end] => destruct g as [candidate|]
  end.
  - inversion H; subst st'. cbn [mapping].
    split; [apply map_has_map_set_same | intros k; apply map_has_map_set].
  - inversion H; subst st'. cbn [mapping].
    split; [apply map_has_map_set_same | intros k; apply map_has_map_set].
Qed.

Lemma assign_remaining_returns : forall rt cfg pref_non_me st idx b,
  texts_are_strings b ->
  exists st', assign_remaining rt cfg pref_non_me st (idx, b) = Ok st'.
Proof.
  intros rt cfg pref st idx b [[source Hs] [text Ht]]. unfold assign_remaining.
  destruct (map_has (_speaker_key rt b idx) (mapping st)); [eexists; reflexivity|].
  rewrite Hs. cbn [bind].
  destruct (mem (_norm_name source) [lit "me"; lit "local"; lit "local_user"; lit "self"]);
    [eexists; reflexivity|].
  rewrite Ht. cbn [bind]. cbv zeta.
  match goal with
  | |- context [match ?g with Some _ => _ | None => _ end] => destruct g as [guessed|]
  end; [eexists; reflexivity|].
  match goal with
  | |- context [match ?g with Some _ => _ | None => _ end] => destruct g as [candidate|]
  end; eexists; reflexivity.
Qed.

Lemma assign_all_keys : forall rt cfg pref_non_me l st st',
  fold_result (assign_remaining rt cfg pref_non_me) l st = Ok st' ->
  (forall k, map_has k (mapping st) = true -> map_has k (mapping st') = true)
  /\ (forall idx b, In (idx, b) l ->
        map_has (_speaker_key rt b idx) (mapping st') = true).
Proof.
  intros rt cfg pref l. induction l as [|[i x] l IH]; intros st st' H;
    cbn [fold_result] in H.
  - inversion H; subst. split; [tauto | intros idx b []].
  - destruct (assign_remaining rt cfg pref st (i, x)) as [st1|e] eqn:E;
      cbn [bind] in H; [|discriminate].
    apply assign_remaining_keys in E as [Hkey Hkeep].
    destruct (IH _ _ H) as [Hmono Hall]. split.
    + intros k Hk. apply Hmono, Hkeep, Hk.
    + intros idx b [Hin|Hin].
      * inversion Hin; subst. now apply Hmono.
      * now apply Hall.
Qed.

Lemma assign_all_returns : forall rt cfg pref_non_me l st,
  (forall idx b, In (idx, b) l -> texts_are_strings b) ->
  exists st', fold_result (assign_remaining rt cfg pref_non_me) l st = Ok st'.
Proof.
  intros rt cfg pref l. induction l as [|[i x] l IH]; intros st H; cbn [fold_result].
  - now exists st.
  - destruct (@assign_remaining_returns rt cfg pref st i x) as [st1 E].
    { apply (H i x). now left. }
    rewrite E. cbn [bind]. apply IH. intros idx b Hin. apply (H idx b). now right.
Qed.

Lemma enumerate_from_nth : forall (A : Type) (l : list A) n i x,
  nth_error l i = Some x -> In ((n + i)%nat, x) (enumerate_from n l).
Proof.
  intros A l. induction l as [|y l IH]; intros n i x H.
  - destruct i; discriminate H.
  - destruct i as [|i]; cbn [nth_error] in H; cbn [enumerate_from].
    + inversion H; subst. left. f_equal. lia.
    + right. replace (n + S i)%nat with (S n + i)%nat by lia. now apply IH.
Qed.

Lemma enumerate_from_In : forall (A : Type) (l : list A) n i x,
  In (i, x) (enumerate_from n l) -> In x l.
Proof.
  intros A l. induction l as [|y l IH]; intros n i x H; cbn [enumerate_from] in H.
  - destruct H.
  - destruct H as [H|H]; [inversion H; now left | right; eapply IH; eassumption].
Qed.

(** The last pass, which writes the canonical name over every name that
    is the user's. *)
Lemma map_get_canonical : forall (is_me : str -> bool) me k mapping,
  map_get k (map (fun kv : str * str => if is_me (snd kv) then (fst kv, me) else kv) mapping)
  = option_map (fun v => if is_me v then me else v) (map_get k mapping).
Proof.
  intros is_me me k m. induction m as [|[k' v] m IH]; [reflexivity|].
  cbn [map map_get fst snd]. destruct (is_me v) eqn:Ev; cbn [map_get];
    destruct (str_eqb k k'); cbn [option_map]; try rewrite Ev; try reflexivity; exact IH.
Qed.

(** X13. On blocks whose source and text are strings (or absent, empty or
    null) [_first_appearance_mapping] returns, and its mapping names the
    speaker key of every block; a name in it that [_is_me] recognises as
    the user's is the canonical name itself. *)
Theorem X13_every_speaker_key_is_named :
  forall rt cfg blocks pref_names overrides quill_title meeting_title,
  (forall b, In b blocks -> texts_are_strings b) ->
  exists mapping,
    _first_appearance_mapping rt cfg blocks pref_names overrides quill_title meeting_title
    = Ok mapping
    /\ forall idx b,
         nth_error blocks idx = Some b ->
         exists name,
           map_get (_speaker_key rt b idx) mapping = Some name
           /\ (_is_me cfg name = true -> name = canonical_name cfg).
Proof.
  intros rt cfg blocks pref overrides qt mt Hblocks.
  unfold _first_appearance_mapping.
  match goal with
  | |- context [fold_result ?f ?l ?st] =>
      destruct (@assign_all_returns rt cfg
                  (filter (fun n => negb (_is_me cfg n)) pref) l st) as [st' Hst]
  end.
  { intros idx b Hin. apply Hblocks. eapply enumerate_from_In. exact Hin. }
  rewrite Hst. cbn [bind]. eexists. split; [reflexivity|].
  intros idx b Hnth.
  apply assign_all_keys in Hst as [_ Hall].
  specialize (Hall idx b (@enumerate_from_nth _ blocks 0%nat idx b Hnth)).
  unfold map_has in Hall.
  destruct (map_get (_speaker_key rt b idx) (mapping st')) as [v|] eqn:Ev; [|discriminate].
  rewrite (map_get_canonical (_is_me cfg) (ME_FULLNAME cfg)), Ev. cbn [option_map].
  destruct (_is_me cfg v) eqn:Eme.
  - exists (ME_FULLNAME cfg). split; reflexivity.
  - exists v. split; [reflexivity|]. intro H. rewrite H in Eme. discriminate.
Qed.

Lemma X13_every_speaker_key_is_named_witness :
  exists mapping,
    _first_appearance_mapping plain_runtime example_config
      [spoken "A" "mic" "Hello"; spoken "B" "remote" "Jane: hi there";
       spoken "C" "remote" "Good morning"]
      [lit "Your Name"; lit "Bob Smith"] [] None None
    = Ok mapping
    /\ forall idx b,
         nth_error [spoken "A" "mic" "Hello"; spoken "B" "remote" "Jane: hi there";
                    spoken "C" "remote" "Good morning"] idx = Some b ->
         exists name,
           map_get (_speaker_key plain_runtime b idx) mapping = Some name
           /\ (_is_me example_config name = true -> name = canonical_name example_config).
Proof.
  apply (@X13_every_speaker_key_is_named plain_runtime example_config
           [spoken "A" "mic" "Hello"; spoken "B" "remote" "Jane: hi there";
            spoken "C" "remote" "Good morning"]
           [lit "Your Name"; lit "Bob Smith"] [] None None).
  intros b Hin. simpl in Hin.
  destruct Hin as [Hb|[Hb|[Hb|[]]]]; subst b; split; eexists; reflexivity.
Defined.

(* ------------------------------------------------------------------ *)
(** * Validation and the selector *)

Open Scope Z_scope.

Lemma validated_timestamp_range : forall v,
  validate_timestamp_ms v = true ->
  v = PNone \/ exists z, v = PInt z /\ min_ms <= z <= max_ms.
Proof.
  intros v H. destruct v; try discriminate H; [now left|].
  right. exists z. split; [reflexivity|].
  unfold validate_timestamp_ms in H. apply andb_true_iff in H as [H1 H2].
  apply Z.leb_le in H1, H2. lia.
Qed.

Lemma validated_range_is_datetime : forall z,
  min_ms <= z <= max_ms -> z <> 0 /\ start_in_datetime_range z.
Proof.
  intros z H. unfold min_ms, max_ms in H.
  unfold start_in_datetime_range, MIN_DATETIME_MS, MAX_DATETIME_MS. lia.
Qed.

Lemma validated_date_parses : forall v,
  validate_date_format v = true -> exists s ymd, v = PStr s /\ strptime_ymd s = Ok ymd.
Proof.
  intros v H. destruct v as [| | | |s| |]; try discriminate H.
  destruct s as [|c s]; [discriminate H|]. cbn [validate_date_format] in H.
  destruct (strptime_ymd (c :: s)) as [ymd|e] eqn:E; [|discriminate H].
  now exists (c :: s), ymd.
Qed.

(** What an accepted payload holds. *)
Lemma validate_webhook_payload_accepts : forall payload,
  validate_webhook_payload payload = (true, None) ->
  (exists s ymd, dict_get (lit "meeting_date") payload = Some (PStr s)
                 /\ strptime_ymd s = Ok ymd)
  /\ (forall v, dict_get (lit "quill_start_ms") payload = Some v ->
        validate_timestamp_ms v = true)
  /\ (forall v, dict_get (lit "quill_end_ms") payload = Some v ->
        validate_timestamp_ms v = true).
Proof.
  intros payload H. unfold validate_webhook_payload, present in H.
  destruct (required_fields _ payload); [discriminate H|].
  destruct (dict_get (lit "meeting_date") payload) as [d|] eqn:Ed.
  2:{ discriminate H. }
  destruct (validate_date_format d) eqn:Evd; cbn [negb] in H; [|discriminate H].
  match type of H with (if ?c then _ else _) = _ => destruct c; [discriminate H|] end.
  split.
  { apply validated_date_parses in Evd as [s [ymd [Hd Hs]]]. subst d.
    now exists s, ymd. }
  destruct (dict_get (lit "quill_start_ms") payload) as [qs|].
  - assert (Hqs : validate_timestamp_ms qs = true).
    { destruct qs; try reflexivity; cbn [negb] in H;
        match type of H with
        | (if negb ?c then _ else _) = _ => destruct c; [reflexivity | discriminate H]
        end. }
    split; [intros v Hv; inversion Hv; now subst|].
    assert (Hrest : (if match dict_get (lit "quill_end_ms") payload with
                        | Some PNone | None => false
                        | Some v => negb (validate_timestamp_ms v)
                        end
                     then (false, Some (lit "Invalid end timestamp"))
                     else (true, @None str)) = (true, None)).
    { destruct qs; try exact H;
        match type of H with
        | (if negb ?c then _ else _) = _ => destruct c; [exact H | discriminate H]
        end. }
    intros v Hv. rewrite Hv in Hrest.
    destruct v; try reflexivity;
      match type of Hrest with
      | (if negb ?c then _ else _) = _ => destruct c; [reflexivity | discriminate Hrest]
      end.
  - split; [intros v Hv; discriminate Hv|].
    intros v Hv. rewrite Hv in H.
    destruct v; try reflexivity;
      match type of H with
      | (if negb ?c then _ else _) = _ => destruct c; [reflexivity | discriminate H]
      end.
Qed.

(** X14. A payload that [validate_webhook_payload] accepts gives the
    selector what it needs: its meeting date is a text that [strptime]
    parses, so [local_day_bounds_ms] returns the bounds of the day, and its
    Quill start and end, when they are given, are integers between
    2000-01-01 and 2030-01-01 (never 0), so the centre of the time score is
    computed without an exception. *)
Theorem X14_accepted_payload_feeds_the_selector :
  forall cfg payload pd,
  validate_webhook_payload payload = (true, None) ->
  pd_meeting_date pd = payload_str (lit "meeting_date") payload ->
  pd_quill_start_ms pd = payload_int (lit "quill_start_ms") payload ->
  pd_quill_end_ms pd = payload_int (lit "quill_end_ms") payload ->
  exists lo_ms hi_ms center,
    local_day_bounds_ms cfg (pd_meeting_date pd) = Ok (lo_ms, hi_ms)
    /\ scoring_center pd lo_ms hi_ms = Ok center
    /\ (forall qs, pd_quill_start_ms pd = Some qs ->
          min_ms <= qs <= max_ms /\ qs <> 0 /\ start_in_datetime_range qs)
    /\ (forall qe, pd_quill_end_ms pd = Some qe ->
          min_ms <= qe <= max_ms /\ qe <> 0 /\ start_in_datetime_range qe).
Proof.
  intros cfg payload pd Hv Hdate Hqs Hqe.
  apply validate_webhook_payload_accepts in Hv as [[s [ymd [Hd Hparse]]] [Hstart Hend]].
  assert (Hbounds : exists lo hi, local_day_bounds_ms cfg (pd_meeting_date pd) = Ok (lo, hi)).
  { rewrite Hdate. unfold payload_str. rewrite Hd. unfold local_day_bounds_ms.
    rewrite Hparse. cbn [bind]. destruct ymd as [[y m] d]. eexists. eexists. reflexivity. }
  destruct Hbounds as [lo [hi Hbounds]].
  assert (Hrange : forall key q,
            (forall v, dict_get key payload = Some v -> validate_timestamp_ms v = true) ->
            payload_int key payload = Some q ->
            min_ms <= q <= max_ms /\ q <> 0 /\ start_in_datetime_range q).
  { intros key q Hval Hq. unfold payload_int in Hq.
    destruct (dict_get key payload) as [v|] eqn:Ev; [|discriminate Hq].
    specialize (Hval v eq_refl).
    destruct v; try discriminate Hq. inversion Hq; subst z.
    apply validated_timestamp_range in Hval as [Hn|[z [Hz Hr]]]; [discriminate Hn|].
    inversion Hz; subst z. split; [exact Hr | now apply validated_range_is_datetime]. }
  assert (Hs : forall qs, pd_quill_start_ms pd = Some qs ->
                 min_ms <= qs <= max_ms /\ qs <> 0 /\ start_in_datetime_range qs).
  { intros qs E. rewrite Hqs in E. exact (Hrange _ _ Hstart E). }
  assert (He : forall qe, pd_quill_end_ms pd = Some qe ->
                 min_ms <= qe <= max_ms /\ qe <> 0 /\ start_in_datetime_range qe).
  { intros qe E. rewrite Hqe in E. exact (Hrange _ _ Hend E). }
  destruct (proj1 (@scoring_center_returns pd lo hi)) as [center Hcenter].
  { intros [E _]. destruct (Hs 0 E) as [_ [Hz _]]. now apply Hz. }
  exists lo, hi, center. repeat split; try assumption; try (now apply Hs); now apply He.
Qed.

Lemma X14_accepted_payload_feeds_the_selector_witness :
  exists lo_ms hi_ms center,
    local_day_bounds_ms example_config (pd_meeting_date jane_payload_pending)
    = Ok (lo_ms, hi_ms)
    /\ scoring_center jane_payload_pending lo_ms hi_ms = Ok center
    /\ (forall qs, pd_quill_start_ms jane_payload_pending = Some qs ->
          min_ms <= qs <= max_ms /\ qs <> 0 /\ start_in_datetime_range qs)
    /\ (forall qe, pd_quill_end_ms jane_payload_pending = Some qe ->
          min_ms <= qe <= max_ms /\ qe <> 0 /\ start_in_datetime_range qe).
Proof.
  apply (@X14_accepted_payload_feeds_the_selector example_config jane_payload
           jane_payload_pending); reflexivity.
Defined.

Close Scope Z_scope.

(** X15. The session type inferred from a title is always one that
    [validate_session_type] accepts and that has an entry of its own in the
    weight table and in the table of thresholds; a title that says [1:1],
    [1-1] or [1 on 1] is a 1-on-1 whatever else it says, and a missing or
    empty title gives [default]. *)
Theorem X15_inferred_session_type_is_valid : forall meeting_title,
  validate_session_type (infer_session_type_from_title meeting_title) = true
  /\ mem (infer_session_type_from_title meeting_title) (map fst WEIGHT_TABLE) = true
  /\ mem (infer_session_type_from_title meeting_title) (map fst CONFIDENCE_THRESHOLDS) = true
  /\ (forall t, meeting_title = Some t ->
        contains (lit "1:1") (lower t) || contains (lit "1-1") (lower t)
        || contains (lit "1 on 1") (lower t) = true ->
        infer_session_type_from_title meeting_title = lit "1-on-1")
  /\ infer_session_type_from_title None = lit "default"
  /\ infer_session_type_from_title (Some []) = lit "default".
Proof.
  intro mt.
  assert (H : forall s, In s valid_types ->
            validate_session_type s = true
            /\ mem s (map fst WEIGHT_TABLE) = true
            /\ mem s (map fst CONFIDENCE_THRESHOLDS) = true).
  { intros s Hin. unfold valid_types in Hin. cbn [In] in Hin.
    destruct Hin as [E|[E|[E|[E|[E|[]]]]]]; subst s; repeat split; reflexivity. }
  assert (Hin : In (infer_session_type_from_title mt) valid_types).
  { unfold infer_session_type_from_title, valid_types. cbv zeta.
    repeat match goal with |- context [if ?c then _ else _] => destruct c end;
      cbn [In]; tauto. }
  destruct (H _ Hin) as [H1 [H2 H3]].
  repeat split; try assumption; try reflexivity.
  intros t Hmt Hc. subst mt. unfold infer_session_type_from_title. cbv zeta.
  destruct t as [|c t]; [discriminate Hc|].
  cbn [str_or]. now rewrite Hc.
Qed.

(* ------------------------------------------------------------------ *)
(** * File names *)

Lemma lstrip_app_nonspace : forall x c,
  is_space c = false -> lstrip (x ++ [c]) = lstrip x ++ [c].
Proof.
  intros x c Hc. induction x as [|a x IH]; cbn [app lstrip].
  - now rewrite Hc.
  - destruct (is_space a); [exact IH | reflexivity].
Qed.

Lemma rstrip_cons_nonspace : forall c r,
  is_space c = false -> rstrip (c :: r) = c :: rstrip r.
Proof.
  intros c r Hc. unfold rstrip. cbn [rev].
  rewrite (@lstrip_app_nonspace (rev r) c Hc), rev_app_distr.
  reflexivity.
Qed.

(** A stripped text does not begin with white space. *)
Lemma lstrip_strip : forall s, lstrip (strip s) = strip s.
Proof.
  intro s. unfold strip.
  assert (H : forall t, lstrip t = t -> lstrip (rstrip t) = rstrip t).
  { intros [|c r] Ht; [reflexivity|].
    cbn [lstrip] in Ht. destruct (is_space c) eqn:Ec.
    - exfalso. pose proof (lstrip_length r) as Hl. rewrite Ht in Hl.
      cbn [length] in Hl. lia.
    - rewrite (@rstrip_cons_nonspace c r Ec). cbn [lstrip]. now rewrite Ec. }
  apply H. induction s as [|c r IH]; [reflexivity|].
  cbn [lstrip]. destruct (is_space c) eqn:Ec; [exact IH|].
  cbn [lstrip]. now rewrite Ec.
Qed.

Lemma lstrip_firstn : forall n s, lstrip s = s -> lstrip (firstn n s) = firstn n s.
Proof.
  intros n [|c r] H; destruct n; try reflexivity.
  cbn [lstrip] in H. cbn [firstn lstrip]. destruct (is_space c) eqn:Ec; [|reflexivity].
  exfalso. pose proof (lstrip_length r) as Hl. rewrite H in Hl. cbn [length] in Hl. lia.
Qed.

Lemma Forall_firstn_of : forall (P : N -> Prop) n s, Forall P s -> Forall P (firstn n s).
Proof.
  intros P n s H. apply Forall_forall. intros x Hx.
  apply In_firstn in Hx. rewrite Forall_forall in H. now apply H.
Qed.

(** X16. The file name that [sanitize_filename] returns is never empty and
    never longer than 200 characters; it holds none of the characters
    backslash, slash, colon, asterisk, question mark, double quote, angle
    brackets and bar; its only white space is the plain space, and it does
    not begin with one. *)
Theorem X16_sanitized_filename_is_safe : forall filename,
  sanitize_filename filename <> []
  /\ (length (sanitize_filename filename) <= 200)%nat
  /\ Forall (fun c => unsafe_char c = false) (sanitize_filename filename)
  /\ Forall (fun c => is_space c = true -> c = 32%N) (sanitize_filename filename)
  /\ lstrip (sanitize_filename filename) = sanitize_filename filename.
Proof.
  assert (Hu : lit "untitled" <> []
               /\ (length (lit "untitled") <= 200)%nat
               /\ Forall (fun c => unsafe_char c = false) (lit "untitled")
               /\ Forall (fun c => is_space c = true -> c = 32%N) (lit "untitled")
               /\ lstrip (lit "untitled") = lit "untitled").
  { repeat split; try discriminate; try reflexivity; try (simpl; lia);
      repeat constructor; discriminate. }
  intros [[|c0 s0]|]; try exact Hu.
  unfold sanitize_filename. cbv zeta.
  set (s1 := fold_left (fun s (p : N * N) => replace_char (fst p) [snd p] s)
                       char_replacements (c0 :: s0)).
  set (s2 := map (fun c => if unsafe_char c then 8211%N else c) s1).
  set (s3 := strip (collapse_ws s2)).
  set (s4 := if Nat.ltb 200 (length s3) then firstn 200 s3 else s3).
  assert (H2 : Forall (fun c => unsafe_char c = false) s2).
  { subst s2. apply Forall_forall. intros c Hc. apply in_map_iff in Hc as [x [Hx _]].
    destruct (unsafe_char x) eqn:Ex; subst c; [reflexivity | exact Ex]. }
  assert (H3 : Forall (fun c => unsafe_char c = false
                                /\ (is_space c = true -> c = 32%N)) s3).
  { subst s3. apply Forall_strip.
    eapply Forall_impl;
      [|exact (@collapse_chars (fun c => unsafe_char c = false) false s2 H2)].
    intros c [[Hc Hs]|Hc].
    - split; [exact Hc|]. intro E. rewrite E in Hs. discriminate.
    - subst c. split; reflexivity. }
  assert (L3 : lstrip s3 = s3) by (subst s3; apply lstrip_strip).
  assert (H4 : Forall (fun c => unsafe_char c = false
                                /\ (is_space c = true -> c = 32%N)) s4
               /\ (length s4 <= 200)%nat /\ lstrip s4 = s4).
  { subst s4. destruct (Nat.ltb_spec 200 (length s3)) as [Hlt|Hle].
    - split; [now apply Forall_firstn_of|]. split; [|now apply lstrip_firstn].
      rewrite length_firstn. lia.
    - repeat split; assumption. }
  destruct H4 as [Hall [Hlen Hl]].
  destruct s4 as [|c4 r4]; [exact Hu|].
  repeat split; try assumption; try discriminate.
  - eapply Forall_impl; [|exact Hall]. intros c [Hc _]. exact Hc.
  - eapply Forall_impl; [|exact Hall]. intros c [_ Hc]. exact Hc.
Qed.

(* ------------------------------------------------------------------ *)
(** * Grouping the blocks *)

Lemma lstrip_idempotent : forall s, lstrip (lstrip s) = lstrip s.
Proof.
  induction s as [|c r IH]; [reflexivity|].
  cbn [lstrip]. destruct (is_space c) eqn:E; [exact IH|].
  cbn [lstrip]. now rewrite E.
Qed.

Lemma strip_idempotent : forall s, strip (strip s) = strip s.
Proof.
  intro s. unfold strip at 1. rewrite lstrip_strip.
  unfold strip, rstrip. now rewrite rev_involutive, lstrip_idempotent.
Qed.

Lemma lstrip_ink : forall s, has_ink s -> has_ink (lstrip s).
Proof.
  induction s as [|c r IH]; intros [x [Hin Hx]]; [destruct Hin|].
  cbn [lstrip]. destruct (is_space c) eqn:E.
  - apply IH. destruct Hin as [Hc|Hin]; [subst x; congruence|]. now exists x.
  - exists x. split; assumption.
Qed.

Lemma rev_ink : forall s, has_ink s -> has_ink (rev s).
Proof.
  intros s [x [Hin Hx]]. exists x. split; [now apply -> in_rev | assumption].
Qed.

Lemma strip_ink : forall s, has_ink s -> has_ink (strip s).
Proof.
  intros s H. unfold strip, rstrip.
  apply rev_ink, lstrip_ink, rev_ink, lstrip_ink, H.
Qed.

Lemma ink_nonempty : forall s, has_ink s -> s <> [].
Proof.
  intros s [x [Hin _]] E. subst s. destruct Hin.
Qed.

Lemma stripped_nonempty_ink : forall s, strip s <> [] -> has_ink (strip s).
Proof.
  intros s H. pose proof (lstrip_strip s) as L.
  destruct (strip s) as [|c r]; [contradiction|].
  cbn [lstrip] in L. destruct (is_space c) eqn:E.
  - exfalso. pose proof (lstrip_length r) as Hl. rewrite L in Hl. cbn [length] in Hl. lia.
  - exists c. split; [now left | assumption].
Qed.

Lemma join_ink : forall sep l t, In t l -> has_ink t -> has_ink (join sep l).
Proof.
  intros sep l. induction l as [|x r IH]; intros t Hin [c [Hc Hs]]; [destruct Hin|].
  destruct r as [|y r'].
  - destruct Hin as [E|[]]. subst t. cbn [join]. now exists c.
  - change (join sep (x :: y :: r')) with (x ++ sep ++ join sep (y :: r')).
    destruct Hin as [E|Hin].
    + subst t. exists c. split; [apply in_or_app; now left | assumption].
    + destruct (IH t Hin (ex_intro _ c (conj Hc Hs))) as [c' [Hc' Hs']].
      exists c'. split; [|assumption].
      apply in_or_app. right. apply in_or_app. now right.
Qed.

Lemma neighbours_differ_app : forall l x,
  neighbours_differ l ->
  (forall pre g, l = pre ++ [g] -> fst g <> fst x) ->
  neighbours_differ (l ++ [x]).
Proof.
  induction l as [|a l IH]; intros x Hl Hlast; [exact I|].
  destruct l as [|b l'].
  - cbn [app neighbours_differ]. split; [|exact I].
    apply (Hlast [] a eq_refl).
  - change ((a :: b :: l') ++ [x]) with (a :: (b :: l') ++ [x]).
    cbn [neighbours_differ] in Hl. destruct Hl as [Hab Hl].
    change (neighbours_differ (a :: (b :: l') ++ [x]))
      with (fst a <> fst b /\ neighbours_differ ((b :: l') ++ [x])).
    split; [assumption|]. apply IH; [assumption|].
    intros pre g E. apply (Hlast (a :: pre) g). cbn [app]. now rewrite E.
Qed.

Lemma neighbours_differ_nth : forall l i a b,
  neighbours_differ l ->
  nth_error l i = Some a -> nth_error l (S i) = Some b -> fst a <> fst b.
Proof.
  induction l as [|x l IH]; intros i a b Hl Ha Hb; [destruct i; discriminate Ha|].
  destruct l as [|y l']; [destruct i; discriminate Hb|].
  cbn [neighbours_differ] in Hl. destruct Hl as [Hxy Hl].
  destruct i as [|i].
  - cbn [nth_error] in Ha, Hb. inversion Ha; inversion Hb; subst. exact Hxy.
  - cbn [nth_error] in Ha. change (nth_error (x :: y :: l') (S (S i)))
      with (nth_error (y :: l') (S i)) in Hb.
    exact (IH i a b Hl Ha Hb).
Qed.

(** The text of a group that is closed: stripped, and not empty. *)
Lemma closed_group_ok : forall k buffer,
  buffer <> [] -> Forall has_ink buffer ->
  group_ok (Some k, strip (join [32%N] buffer)).
Proof.
  intros k buffer Hne Hink. unfold group_ok. cbn [fst snd].
  split; [discriminate|]. split; [|apply strip_idempotent].
  apply ink_nonempty, strip_ink.
  destruct buffer as [|t r]; [contradiction|].
  apply (@join_ink [32%N] (t :: r) t); [now left|].
  now inversion Hink.
Qed.

Lemma group_block_invariant : forall rt n st idx b st',
  grouping_invariant n st ->
  group_block rt st (idx, b) = Ok st' ->
  grouping_invariant (S n) st'.
Proof.
  intros rt n st idx b st' Inv H.
  assert (Hweak : grouping_invariant (S n) st).
  { destruct Inv as [I1 [I2 [I3 [I4 I5]]]].
    refine (conj I1 (conj I2 (conj I3 (conj I4 _)))). lia. }
  unfold group_block in H.
  destruct (text_or_empty (dict_get (lit "text") b)) as [text|e];
    cbn [bind] in H; [|discriminate].
  cbv zeta in H.
  destruct (is_empty (strip text)); [inversion H; now subst|].
  destruct (strip (remove_all (lit "<SNIP>") (strip text))) as [|c txt] eqn:Etxt;
    cbn [is_empty] in H; [inversion H; now subst|].
  assert (Hink : has_ink (c :: txt)).
  { rewrite <- Etxt. apply stripped_nonempty_ink. rewrite Etxt. discriminate. }
  destruct Inv as [I1 [I2 [I3 [I4 I5]]]].
  destruct (buf st) as [|t0 buffer] eqn:Ebuf.
  - (* the first block with a text *)
    rewrite andb_false_r in H. inversion H; subst st'. cbn [grouped last_key buf].
    rewrite Ebuf, I4. unfold grouping_invariant.
    cbn [grouped last_key buf app length nonempty_list].
    refine (conj _ (conj _ (conj _ (conj _ _)))).
    + constructor.
    + exact I.
    + now constructor.
    + exists (_speaker_key rt b idx). split; [reflexivity|].
      intros pre g E. destruct pre; discriminate E.
    + lia.
  - destruct I4 as [k [Hk Hlast]]. rewrite Hk in H. cbn [same_key nonempty_list] in H.
    rewrite andb_true_r in H.
    destruct (str_eqb (_speaker_key rt b idx) k) eqn:Ekey; cbn [negb] in H.
    + (* the same speaker goes on *)
      apply str_eqb_eq in Ekey. inversion H; subst st'. cbn [grouped last_key buf].
      rewrite Ebuf. unfold grouping_invariant.
      cbn [grouped last_key buf app nonempty_list] in *.
      refine (conj I1 (conj I2 (conj _ (conj _ _)))).
      * constructor; [now inversion I3|].
        apply Forall_app. split; [now inversion I3 | now constructor].
      * exists k. split; [now rewrite Ekey | exact Hlast].
      * lia.
    + (* another speaker: the group is closed *)
      inversion H; subst st'.
      assert (Hg : group_ok (Some k, strip (join [32%N] (t0 :: buffer)))).
      { apply closed_group_ok; [discriminate | assumption]. }
      unfold grouping_invariant. cbn [grouped last_key buf app nonempty_list].
      refine (conj _ (conj _ (conj _ (conj _ _)))).
      * apply Forall_app. split; [assumption | now constructor].
      * apply neighbours_differ_app; [assumption|]. exact Hlast.
      * now constructor.
      * exists (_speaker_key rt b idx). split; [reflexivity|].
        intros pre g E. apply app_inj_tail in E as [_ E]. subst g. cbn [fst].
        intro E. inversion E. subst k. now rewrite str_eqb_refl in Ekey.
      * rewrite length_app. cbn [length nonempty_list] in *. lia.
Qed.

Lemma group_all_invariant : forall rt l n st st',
  grouping_invariant n st ->
  fold_result (group_block rt) l st = Ok st' ->
  grouping_invariant (n + length l) st'.
Proof.
  intros rt l. induction l as [|[i x] l IH]; intros n st st' Inv H;
    cbn [fold_result] in H.
  - inversion H; subst. cbn [length]. now rewrite Nat.add_0_r.
  - destruct (group_block rt st (i, x)) as [st1|e] eqn:E; cbn [bind] in H; [|discriminate].
    pose proof (@group_block_invariant rt n st i x st1 Inv E) as Inv1.
    cbn [length]. replace (n + S (length l))%nat with (S n + length l)%nat by lia.
    exact (IH (S n) st1 st' Inv1 H).
Qed.

Lemma group_all_returns : forall rt l st,
  (forall i b, In (i, b) l -> exists text, text_or_empty (dict_get (lit "text") b) = Ok text) ->
  exists st', fold_result (group_block rt) l st = Ok st'.
Proof.
  intros rt l. induction l as [|[i x] l IH]; intros st H; cbn [fold_result].
  - now exists st.
  - assert (Hx : exists st1, group_block rt st (i, x) = Ok st1).
    { destruct (H i x (or_introl eq_refl)) as [text Ht].
      unfold group_block. rewrite Ht. cbn [bind]. cbv zeta.
      destruct (is_empty (strip text)); [eexists; reflexivity|].
      destruct (is_empty (strip (remove_all (lit "<SNIP>") (strip text))));
        eexists; reflexivity. }
    destruct Hx as [st1 E]. rewrite E. cbn [bind].
    apply IH. intros j b Hin. apply (H j b). now right.
Qed.

Lemma enumerate_from_length : forall (A : Type) (l : list A) n,
  length (enumerate_from n l) = length l.
Proof.
  intros A l. induction l as [|x l IH]; intro n; cbn [enumerate_from length];
    [reflexivity | now rewrite IH].
Qed.

(** X17. On blocks whose text is a string (or absent, empty or null)
    [_group_consecutive_blocks] returns; every group it gives has a key and
    a text that is stripped and not empty; two groups that follow each
    other have different keys; and there are no more groups than blocks. *)
Theorem X17_groups_of_consecutive_blocks : forall rt blocks,
  (forall b, In b blocks ->
     exists text, text_or_empty (dict_get (lit "text") b) = Ok text) ->
  exists groups,
    _group_consecutive_blocks rt blocks = Ok groups
    /\ (forall key utterance, In (key, utterance) groups ->
          key <> None /\ utterance <> [] /\ strip utterance = utterance)
    /\ (forall i a b,
          nth_error groups i = Some a -> nth_error groups (S i) = Some b ->
          fst a <> fst b)
    /\ (length groups <= length blocks)%nat.
Proof.
  intros rt blocks Hblocks. unfold _group_consecutive_blocks.
  pose (st0 := {| grouped := []; last_key := @None str; buf := [] |}).
  change (exists groups,
            (st <- fold_result (group_block rt) (enumerate_from 0 blocks) st0 ;;
             match buf st, last_key st with
             | _ :: _, Some _ =>
                 Ok (grouped st ++ [(last_key st, strip (join [32%N] (buf st)))])
             | _, _ => Ok (grouped st)
             end) = Ok groups
            /\ (forall key utterance, In (key, utterance) groups ->
                  key <> None /\ utterance <> [] /\ strip utterance = utterance)
            /\ (forall i a b,
                  nth_error groups i = Some a -> nth_error groups (S i) = Some b ->
                  fst a <> fst b)
            /\ (length groups <= length blocks)%nat).
  destruct (@group_all_returns rt (enumerate_from 0 blocks) st0) as [st E].
  { intros i b Hin. apply Hblocks. eapply enumerate_from_In. exact Hin. }
  rewrite E. cbn [bind].
  assert (Inv0 : grouping_invariant 0 st0).
  { unfold grouping_invariant. subst st0. cbn [grouped buf nonempty_list length].
    refine (conj _ (conj _ (conj _ (conj _ _)))); try constructor. }
  pose proof (@group_all_invariant rt _ 0%nat st0 st Inv0 E) as Inv.
  rewrite enumerate_from_length in Inv. cbn [Nat.add] in Inv.
  destruct Inv as [I1 [I2 [I3 [I4 I5]]]].
  assert (Hgen : forall groups,
            Forall group_ok groups -> neighbours_differ groups ->
            (length groups <= length blocks)%nat ->
            (forall key utterance, In (key, utterance) groups ->
               key <> None /\ utterance <> [] /\ strip utterance = utterance)
            /\ (forall i a b,
                  nth_error groups i = Some a -> nth_error groups (S i) = Some b ->
                  fst a <> fst b)
            /\ (length groups <= length blocks)%nat).
  { intros groups G1 G2 G3. split; [|split; [|exact G3]].
    - intros key u Hin. rewrite Forall_forall in G1. exact (G1 _ Hin).
    - intros i a b. now apply neighbours_differ_nth. }
  destruct (buf st) as [|t0 buffer] eqn:Ebuf.
  - exists (grouped st). split; [reflexivity|]. apply Hgen; try assumption.
    cbn [nonempty_list] in I5. lia.
  - destruct I4 as [k [Hk Hlast]]. rewrite Hk.
    exists (grouped st ++ [(Some k, strip (join [32%N] (t0 :: buffer)))]).
    split; [reflexivity|]. apply Hgen.
    + apply Forall_app. split; [assumption|]. constructor; [|constructor].
      apply closed_group_ok; [discriminate | assumption].
    + apply neighbours_differ_app; [assumption | exact Hlast].
    + rewrite length_app. cbn [length nonempty_list] in *. lia.
Qed.

Lemma X17_groups_of_consecutive_blocks_witness :
  exists groups,
    _group_consecutive_blocks plain_runtime
      [spoken "A" "mic" "Hello "; spoken "A" "mic" " <SNIP> "; spoken "A" "mic" "again";
       spoken "B" "remote" "Hi there"]
    = Ok groups
    /\ (forall key utterance, In (key, utterance) groups ->
          key <> None /\ utterance <> [] /\ strip utterance = utterance)
    /\ (forall i a b,
          nth_error groups i = Some a -> nth_error groups (S i) = Some b ->
          fst a <> fst b)
    /\ (length groups
        <= length [spoken "A" "mic" "Hello "; spoken "A" "mic" " <SNIP> ";
                   spoken "A" "mic" "again"; spoken "B" "remote" "Hi there"])%nat.
Proof.
  apply (@X17_groups_of_consecutive_blocks plain_runtime
           [spoken "A" "mic" "Hello "; spoken "A" "mic" " <SNIP> "; spoken "A" "mic" "again";
            spoken "B" "remote" "Hi there"]).
  intros b Hin. simpl in Hin.
  destruct Hin as [Hb|[Hb|[Hb|[Hb|[]]]]]; subst b; eexists; reflexivity.
Defined.

(* ------------------------------------------------------------------ *)
(** * The calendar: the day of the window *)

Open Scope Z_scope.

Lemma yoe_recover : forall yoe doy,
  0 <= yoe <= 399 -> 0 <= doy <= 365 ->
  (doy = 365 -> (yoe + 1) mod 4 = 0 /\ ((yoe + 1) mod 100 <> 0 \/ (yoe + 1) mod 400 = 0)) ->
  (yoe * 365 + yoe / 4 - yoe / 100 + doy
   - (yoe * 365 + yoe / 4 - yoe / 100 + doy) / 1460
   + (yoe * 365 + yoe / 4 - yoe / 100 + doy) / 36524
   - (yoe * 365 + yoe / 4 - yoe / 100 + doy) / 146096) / 365 = yoe.
Proof.
  intros yoe doy Hy Hd Hleap.
  Z.div_mod_to_equations. lia.
Qed.

Lemma is_leap_spec : forall y,
  is_leap y = true <-> (y mod 4 = 0 /\ y mod 100 <> 0) \/ y mod 400 = 0.
Proof.
  intro y. unfold is_leap. rewrite orb_true_iff, andb_true_iff, negb_true_iff.
  rewrite !Z.eqb_eq, Z.eqb_neq. tauto.
Qed.

Lemma doy_range : forall y m d,
  1 <= m <= 12 -> 1 <= d <= days_in_month y m ->
  0 <= doy_of m d <= 365
  /\ (doy_of m d = 365 -> m = 2 /\ d = 29 /\ is_leap y = true).
Proof.
  intros y m d Hm Hd. unfold doy_of, days_in_month in *.
  destruct (Z.ltb_spec 2 m); destruct (is_leap y);
    destruct (Z.eqb_spec m 2); destruct (Z.eqb_spec m 4); destruct (Z.eqb_spec m 6);
    destruct (Z.eqb_spec m 9); destruct (Z.eqb_spec m 11); cbn [orb] in Hd; try lia;
    (split; [Z.div_mod_to_equations; lia|]); intro Hdoy;
    first [ exfalso; Z.div_mod_to_equations; lia
          | repeat split; try reflexivity; Z.div_mod_to_equations; lia ].
Qed.

Lemma month_day_recover : forall y m d,
  1 <= m <= 12 -> 1 <= d <= days_in_month y m ->
  (if (5 * doy_of m d + 2) / 153 <? 10
   then (5 * doy_of m d + 2) / 153 + 3 else (5 * doy_of m d + 2) / 153 - 9) = m
  /\ doy_of m d - (153 * ((5 * doy_of m d + 2) / 153) + 2) / 5 + 1 = d.
Proof.
  intros y m d Hm Hd. unfold doy_of, days_in_month in *.
  destruct (is_leap y);
    destruct (Z.eqb_spec m 2); destruct (Z.eqb_spec m 4); destruct (Z.eqb_spec m 6);
    destruct (Z.eqb_spec m 9); destruct (Z.eqb_spec m 11); cbn [orb] in Hd; try lia;
    destruct (Z.ltb_spec 2 m); try lia;
    match goal with
    | |- context [?a <? 10] => destruct (Z.ltb_spec a 10)
    end;
    split; Z.div_mod_to_equations; lia.
Qed.

(** The day count of [days_from_civil], in eras of 400 years. *)
Lemma days_from_civil_eras : forall y m d,
  let y' := if m <=? 2 then y - 1 else y in
  let era := y' / 400 in
  let yoe := y' - era * 400 in
  days_from_civil y m d + 719468
  = era * 146097 + (yoe * 365 + yoe / 4 - yoe / 100 + doy_of m d)
  /\ 0 <= yoe <= 399.
Proof.
  intros y m d. cbv zeta. unfold days_from_civil, doy_of. cbv zeta.
  split; [ring|]. Z.div_mod_to_equations. lia.
Qed.

(** The civil date of the day count of a date is that date. *)
Lemma civil_round_trip : forall y m d,
  1 <= m <= 12 -> 1 <= d <= days_in_month y m ->
  civil_from_days (days_from_civil y m d) = (y, m, d).
Proof.
  intros y m d Hm Hd.
  destruct (days_from_civil_eras y m d) as [Hz Hyoe]. cbv zeta in Hz, Hyoe.
  set (y' := if m <=? 2 then y - 1 else y) in *.
  set (era := y' / 400) in *. set (yoe := y' - era * 400) in *.
  destruct (@doy_range y m d Hm Hd) as [Hdoy Hfeb].
  destruct (@month_day_recover y m d Hm Hd) as [Hmonth Hday].
  set (doy := doy_of m d) in *.
  set (doe := yoe * 365 + yoe / 4 - yoe / 100 + doy) in *.
  assert (Hdoe : 0 <= doe < 146097).
  { subst doe. Z.div_mod_to_equations. lia. }
  assert (Hera : (era * 146097 + doe) / 146097 = era).
  { symmetry. apply (Z.div_unique _ _ era doe); [left; exact Hdoe | ring]. }
  assert (Hleap : doy = 365 ->
                  (yoe + 1) mod 4 = 0
                  /\ ((yoe + 1) mod 100 <> 0 \/ (yoe + 1) mod 400 = 0)).
  { intro E. destruct (Hfeb E) as [E2 [_ Hl]]. apply is_leap_spec in Hl.
    assert (Hy : y = era * 400 + yoe + 1).
    { subst yoe y'. rewrite E2. cbn. ring. }
    rewrite Hy in Hl. Z.div_mod_to_equations. lia. }
  pose proof (@yoe_recover yoe doy Hyoe Hdoy Hleap) as Hrec. fold doe in Hrec.
  unfold civil_from_days. cbv zeta. rewrite Hz, Hera.
  replace (era * 146097 + doe - era * 146097) with doe by ring.
  rewrite Hrec.
  replace (doe - (365 * yoe + yoe / 4 - yoe / 100)) with doy by (subst doe; ring).
  rewrite Hmonth, Hday. f_equal. f_equal.
  subst yoe y'. destruct (m <=? 2); ring.
Qed.

Lemma in_range_digit_val : forall lo hi c,
  in_range lo hi c = true -> Z.of_N lo - 48 <= digit_val c <= Z.of_N hi - 48.
Proof.
  intros lo hi c H. unfold in_range in H. apply andb_true_iff in H as [H1 H2].
  apply N.leb_le in H1, H2. unfold digit_val. lia.
Qed.

Lemma some_pair_fst : forall (a a' : Z) (r r' : str),
  Some (a, r) = Some (a', r') -> a = a'.
Proof.
  intros a a' r r' H. congruence.
Qed.

Lemma parse_month_range : forall s m r,
  parse_month s = Some (m, r) -> 1 <= m <= 12.
Proof.
  intros s m r H. unfold parse_month in H.
  destruct s as [|a [|b s']].
  - discriminate H.
  - destruct (in_range 49 57 a) eqn:Ea; [|discriminate H].
    apply some_pair_fst in H; rewrite <- H. apply in_range_digit_val in Ea. simpl in Ea. unfold digit_val in *; lia.
  - destruct (N.eqb a 49 && in_range 48 50 b) eqn:E1.
    { apply andb_true_iff in E1 as [_ Eb]. apply some_pair_fst in H; rewrite <- H.
      apply in_range_digit_val in Eb. simpl in Eb. unfold digit_val in *; lia. }
    destruct (N.eqb a 48 && in_range 49 57 b) eqn:E2.
    { apply andb_true_iff in E2 as [_ Eb]. apply some_pair_fst in H; rewrite <- H.
      apply in_range_digit_val in Eb. simpl in Eb. unfold digit_val in *; lia. }
    destruct (in_range 49 57 a) eqn:Ea; [|discriminate H].
    apply some_pair_fst in H; rewrite <- H. apply in_range_digit_val in Ea. simpl in Ea. unfold digit_val in *; lia.
Qed.

Lemma parse_day_range : forall s d r,
  parse_day s = Some (d, r) -> 1 <= d <= 31.
Proof.
  intros s d r H. unfold parse_day in H.
  destruct s as [|a [|b s']].
  - discriminate H.
  - destruct (in_range 49 57 a) eqn:Ea; [|discriminate H].
    apply some_pair_fst in H; rewrite <- H. apply in_range_digit_val in Ea. simpl in Ea. unfold digit_val in *; lia.
  - destruct (N.eqb a 51 && in_range 48 49 b) eqn:E1.
    { apply andb_true_iff in E1 as [_ Eb]. apply some_pair_fst in H; rewrite <- H.
      apply in_range_digit_val in Eb. simpl in Eb. unfold digit_val in *; lia. }
    destruct (in_range 49 50 a && is_digit b) eqn:E2.
    { apply andb_true_iff in E2 as [Ea Eb]. apply some_pair_fst in H; rewrite <- H.
      apply in_range_digit_val in Ea. unfold is_digit in Eb.
      apply in_range_digit_val in Eb. simpl in Ea, Eb. unfold digit_val in *; lia. }
    destruct (N.eqb a 48 && in_range 49 57 b) eqn:E3.
    { apply andb_true_iff in E3 as [_ Eb]. apply some_pair_fst in H; rewrite <- H.
      apply in_range_digit_val in Eb. simpl in Eb. unfold digit_val in *; lia. }
    destruct (in_range 49 57 a) eqn:Ea.
    { apply some_pair_fst in H; rewrite <- H. apply in_range_digit_val in Ea. simpl in Ea. unfold digit_val in *; lia. }
    destruct (N.eqb a 32 && in_range 49 57 b) eqn:E5; [|discriminate H].
    apply andb_true_iff in E5 as [_ Eb]. apply some_pair_fst in H; rewrite <- H.
    apply in_range_digit_val in Eb. simpl in Eb. unfold digit_val in *; lia.
Qed.

(** A text that [strptime] accepts is a date of the calendar. *)
Lemma strptime_ymd_valid : forall s ymd, strptime_ymd s = Ok ymd -> valid_date ymd.
Proof.
  intros s ymd H. unfold strptime_ymd in H.
  destruct s as [|y1 [|y2 [|y3 [|y4 [|dash r]]]]]; try discriminate H.
  destruct (is_digit y1 && is_digit y2 && is_digit y3 && is_digit y4 && N.eqb dash 45)
    eqn:Ed; [|discriminate H].
  repeat (apply andb_true_iff in Ed as [Ed ?]).
  destruct (parse_month r) as [[m [|dash2 r2]]|] eqn:Em; try discriminate H.
  destruct (N.eqb dash2 45); [|discriminate H].
  destruct (parse_day r2) as [[d [|? ?]]|] eqn:Edy; try discriminate H.
  match type of H with
  | (if ?c then _ else _) = _ => destruct c eqn:Ec; [|discriminate H]
  end.
  match type of H with
  | Ok ?v = _ => assert (Hymd : ymd = v) by congruence
  end.
  subst ymd. clear H. apply andb_true_iff in Ec as [Ey Edim].
  apply Z.leb_le in Ey, Edim.
  apply parse_month_range in Em. apply parse_day_range in Edy.
  unfold is_digit in *.
  repeat match goal with
         | E : in_range 48 57 _ = true |- _ => apply in_range_digit_val in E; simpl in E
         end.
  repeat match goal with
         | E : N.leb _ _ = true |- _ => apply N.leb_le in E
         end.
  unfold valid_date, digit_val in *. lia.
Qed.

Lemma days_from_civil_range : forall y m d,
  valid_date (y, m, d) -> -719162 <= days_from_civil y m d <= 2932896.
Proof.
  intros y m d [Hy [Hm Hd]].
  destruct (days_from_civil_eras y m d) as [Hz Hyoe]. cbv zeta in Hz, Hyoe.
  destruct (@doy_range y m d Hm Hd) as [Hdoy _].
  destruct (Z.leb_spec m 2) as [Hle|Hgt].
  - assert (Hjan : 306 <= doy_of m d).
    { unfold doy_of. destruct (Z.ltb_spec 2 m); [lia|]. Z.div_mod_to_equations. lia. }
    Z.div_mod_to_equations. lia.
  - assert (Hmar : doy_of m d <= 305).
    { unfold doy_of, days_in_month in *. destruct (Z.ltb_spec 2 m); [|lia].
      destruct (Z.eqb_spec m 2); [lia|].
      destruct ((m =? 4) || (m =? 6) || (m =? 9) || (m =? 11));
        Z.div_mod_to_equations; lia. }
    Z.div_mod_to_equations. lia.
Qed.

(** The noon of a date, and the instants up to six hours before it, lie on
    the day of that date. *)
Lemma noon_is_that_day : forall y m d off,
  valid_date (y, m, d) -> -6 <= off <= 0 ->
  let noon := (days_from_civil y m d * 86400 + 12 * 3600) * 1000 in
  datetime_ok (noon + off * 3600000) = true
  /\ civil_of_ms (noon + off * 3600000) = (y, m, d).
Proof.
  intros y m d off Hv Hoff noon.
  pose proof (@days_from_civil_range y m d Hv) as Hrange.
  destruct Hv as [_ [Hm Hd]].
  split.
  - unfold datetime_ok, MIN_DATETIME_MS, MAX_DATETIME_MS.
    apply andb_true_iff. split; [apply Z.leb_le | apply Z.ltb_lt]; subst noon; lia.
  - unfold civil_of_ms, MS_PER_DAY.
    replace ((noon + off * 3600000) / 86400000) with (days_from_civil y m d).
    + now apply civil_round_trip.
    + subst noon. Z.div_mod_to_equations. lia.
Qed.

(** X18. For a meeting date that [strptime] accepts, the centre of the
    window of [local_day_bounds_ms] (the noon of the date, in UTC) is an
    instant of that very date, also on the local calendar of
    [same_local_calendar_day]: against the date as [strftime] writes it, and
    so against the text itself when it is written that way, a meeting that
    starts at the centre is on the same day. *)
Theorem X18_window_centre_is_on_the_day : forall cfg s ymd,
  strptime_ymd s = Ok ymd ->
  exists lo_ms hi_ms,
    local_day_bounds_ms cfg (Some s) = Ok (lo_ms, hi_ms)
    /\ civil_of_ms ((lo_ms + hi_ms) / 2) = ymd
    /\ same_local_calendar_day (Some (strftime_ymd ymd)) (Some ((lo_ms + hi_ms) / 2))
       = Ok true
    /\ (strftime_ymd ymd = s ->
        same_local_calendar_day (Some s) (Some ((lo_ms + hi_ms) / 2)) = Ok true).
Proof.
  intros cfg s ymd Hparse.
  pose proof (@strptime_ymd_valid s ymd Hparse) as Hv.
  destruct ymd as [[y m] d].
  set (noon := (days_from_civil y m d * 86400 + 12 * 3600) * 1000).
  set (half := window_hours cfg * 60 * 60 * 1000).
  exists (noon - half), (noon + half).
  assert (Hcentre : (noon - half + (noon + half)) / 2 = noon).
  { replace (noon - half + (noon + half)) with (noon * 2) by ring.
    apply Z.div_mul. discriminate. }
  rewrite Hcentre.
  assert (Hday : same_local_calendar_day (Some (strftime_ymd (y, m, d))) (Some noon)
                 = Ok true).
  { unfold same_local_calendar_day.
    destruct (@noon_is_that_day y m d 0 Hv ltac:(lia)) as [Hok Hcivil].
    cbv zeta in Hok, Hcivil. fold noon in Hok, Hcivil.
    replace (noon + 0 * 3600000) with noon in Hok, Hcivil by ring.
    rewrite Hok, Hcivil.
    set (off := if (3 <=? m) && (m <=? 11) then -5 else -6).
    assert (Hoff : -6 <= off <= 0) by (subst off; destruct ((3 <=? m) && (m <=? 11)); lia).
    destruct (@noon_is_that_day y m d off Hv Hoff) as [Hok' Hcivil'].
    cbv zeta in Hok', Hcivil'. fold noon in Hok', Hcivil'.
    rewrite Hok', Hcivil'. now rewrite str_eqb_refl. }
  split.
  { unfold local_day_bounds_ms. rewrite Hparse. reflexivity. }
  split.
  { destruct (@noon_is_that_day y m d 0 Hv ltac:(lia)) as [_ Hcivil].
    cbv zeta in Hcivil. fold noon in Hcivil.
    now replace (noon + 0 * 3600000) with noon in Hcivil by ring. }
  split; [exact Hday|]. intro E. rewrite <- E. exact Hday.
Qed.

Lemma X18_window_centre_is_on_the_day_witness :
  exists lo_ms hi_ms,
    local_day_bounds_ms example_config (Some (lit "2024-03-10")) = Ok (lo_ms, hi_ms)
    /\ civil_of_ms ((lo_ms + hi_ms) / 2) = (2024, 3, 10)
    /\ same_local_calendar_day (Some (strftime_ymd (2024, 3, 10)))
                               (Some ((lo_ms + hi_ms) / 2))
       = Ok true
    /\ (strftime_ymd (2024, 3, 10) = lit "2024-03-10" ->
        same_local_calendar_day (Some (lit "2024-03-10")) (Some ((lo_ms + hi_ms) / 2))
        = Ok true).
Proof.
  apply (@X18_window_centre_is_on_the_day example_config (lit "2024-03-10") (2024, 3, 10)).
  reflexivity.
Defined.

Close Scope Z_scope.

(* ------------------------------------------------------------------ *)
(** * Names that match *)

Lemma In_set_of : forall x l, In x (set_of l) <-> In x l.
Proof.
  intros x l. induction l as [|y l IH]; [tauto|].
  cbn [set_of]. destruct (mem y (set_of l)) eqn:E; cbn [In].
  - apply mem_In in E. rewrite IH. split; [tauto|].
    intros [H|H]; [subst; now apply IH | assumption].
  - rewrite IH. tauto.
Qed.

Lemma set_of_nil : forall l, set_of l = [] -> l = [].
Proof.
  intros [|x l] H; [reflexivity|]. exfalso. exact (@set_of_nonempty x l H).
Qed.

(** Two sets of tokens with a common token. *)
Lemma inter_common : forall x a b, In x a -> In x b -> (1 <= length (inter a b))%nat.
Proof.
  intros x a b Ha Hb.
  assert (Hin : In x (inter a b)).
  { unfold inter. apply filter_In. split; [assumption | now apply mem_In]. }
  destruct (inter a b); [destruct Hin | cbn [length]; lia].
Qed.

Lemma fuzzy_name_match_self : forall cfg w,
  tokenize_name (normalize_person_token w) <> [] -> fuzzy_name_match cfg w w = true.
Proof.
  intros cfg w Htok. unfold fuzzy_name_match.
  set (T := tokenize_name (normalize_person_token w)) in *.
  destruct (set_of T) as [|x S] eqn:ES.
  { apply set_of_nil in ES. contradiction. }
  assert (Hx : In x (x :: S)) by now left.
  apply Nat.leb_le.
  destruct (existsb (fun t => mem t (alias_set cfg)) (x :: S)).
  - apply (@inter_common x); [|assumption].
    apply In_set_of. apply in_or_app. now left.
  - now apply (@inter_common x).
Qed.

Lemma fuzzy_name_match_blank : forall cfg w h,
  tokenize_name (normalize_person_token w) = [] ->
  fuzzy_name_match cfg w h = false /\ fuzzy_name_match cfg h w = false.
Proof.
  intros cfg w h Htok. unfold fuzzy_name_match. rewrite Htok. cbn [set_of].
  split; [reflexivity|].
  destruct (set_of (tokenize_name (normalize_person_token h))); reflexivity.
Qed.

Lemma existsb_In : forall (A : Type) (p : A -> bool) x l,
  In x l -> p x = true -> existsb p l = true.
Proof.
  intros A p x l Hin Hp. apply existsb_exists. now exists x.
Qed.

(** X19. A name with a letter matches itself, and a name without letters
    matches nothing and is matched by nothing; so, when every desired name
    (with the aliases replaced by the canonical name) has a letter and is
    one of the stored names, the fuzzy overlap is 1. *)
Theorem X19_names_match_themselves : forall cfg w,
  (tokenize_name (normalize_person_token w) <> [] -> fuzzy_name_match cfg w w = true)
  /\ (tokenize_name (normalize_person_token w) = [] ->
      forall h, fuzzy_name_match cfg w h = false /\ fuzzy_name_match cfg h w = false)
  /\ (forall desired db_parts,
        expand_aliases cfg (w :: desired) <> [] ->
        (forall n, In n (expand_aliases cfg (w :: desired)) ->
           tokenize_name (normalize_person_token n) <> [] /\ In n db_parts) ->
        participant_overlap_fuzzy cfg (w :: desired) db_parts == 1).
Proof.
  intros cfg w. split; [apply fuzzy_name_match_self|].
  split; [intros H h; now apply fuzzy_name_match_blank|].
  intros desired db_parts Hne Hall. unfold participant_overlap_fuzzy.
  set (norm := expand_aliases cfg (w :: desired)) in *.
  rewrite (@filter_all _ (fun w0 => existsb (fun h => fuzzy_name_match cfg w0 h) db_parts)
             norm).
  - destruct norm as [|n0 rest]; [contradiction|].
    cbn [length]. rewrite Nat.max_l by lia.
    apply Qmult_inv_r. unfold of_nat, Qeq. simpl. lia.
  - intros n Hn. destruct (Hall n Hn) as [Htok Hin].
    apply (@existsb_In _ (fun h => fuzzy_name_match cfg n h) n db_parts Hin).
    now apply fuzzy_name_match_self.
Qed.

(* ------------------------------------------------------------------ *)
(** * Names that are the user's *)

Lemma is_space_range : forall c,
  is_space c = true ->
  (c <= 32 \/ c = 133 \/ c = 160 \/ 5760 <= c)%N.
Proof.
  intros c H. unfold is_space, in_range in H.
  repeat (apply orb_true_iff in H as [H|H]);
    repeat match goal with
           | E : _ && _ = true |- _ => apply andb_true_iff in E as [? ?]
           | E : N.leb _ _ = true |- _ => apply N.leb_le in E
           | E : N.eqb _ _ = true |- _ => apply N.eqb_eq in E
           end; lia.
Qed.

Lemma upper_range : forall c,
  is_upper_az c || is_upper_latin1 c = true -> (65 <= c <= 90 \/ 192 <= c <= 222)%N.
Proof.
  intros c H. unfold is_upper_az, is_upper_latin1, in_range in H.
  apply orb_true_iff in H as [H|H];
    repeat match goal with
           | E : _ && _ = true |- _ => apply andb_true_iff in E as [? ?]
           | E : N.leb _ _ = true |- _ => apply N.leb_le in E
           end; lia.
Qed.

Lemma not_upper_above : forall c,
  (97 <= c <= 122 \/ 224 <= c <= 254)%N -> is_upper_az c || is_upper_latin1 c = false.
Proof.
  intros c H. destruct (is_upper_az c || is_upper_latin1 c) eqn:E; [|reflexivity].
  apply upper_range in E. lia.
Qed.

Lemma lower_char_idempotent : forall c, lower_char (lower_char c) = lower_char c.
Proof.
  intro c. unfold lower_char at 2 3.
  destruct (is_upper_az c || is_upper_latin1 c) eqn:E.
  - apply upper_range in E. unfold lower_char.
    rewrite not_upper_above; [reflexivity | lia].
  - unfold lower_char. now rewrite E.
Qed.

Lemma lower_idempotent : forall s, lower (lower s) = lower s.
Proof.
  intro s. unfold lower. rewrite map_map. apply map_ext. exact lower_char_idempotent.
Qed.

Lemma is_space_lower_char : forall c, is_space (lower_char c) = is_space c.
Proof.
  intro c. unfold lower_char.
  destruct (is_upper_az c || is_upper_latin1 c) eqn:E; [|reflexivity].
  apply upper_range in E.
  destruct (is_space c) eqn:E1; [apply is_space_range in E1; lia|].
  destruct (is_space (c + 32)) eqn:E2; [apply is_space_range in E2; lia | reflexivity].
Qed.

Lemma words_from_lower : forall s cur,
  words_from (map lower_char cur) (lower s) = map lower (words_from cur s).
Proof.
  induction s as [|c r IH]; intro cur; unfold lower in *; cbn [map words_from].
  - destruct cur; cbn [map]; [reflexivity|].
    change (lower_char n :: map lower_char cur) with (map lower_char (n :: cur)).
    now rewrite map_rev.
  - rewrite is_space_lower_char. destruct (is_space c).
    + destruct cur; cbn [map]; [exact (IH [])|].
      change (lower_char n :: map lower_char cur) with (map lower_char (n :: cur)).
      rewrite map_rev. f_equal. exact (IH []).
    + exact (IH (c :: cur)).
Qed.

Lemma words_lower : forall s, words (lower s) = map lower (words s).
Proof.
  intro s. exact (words_from_lower s []).
Qed.

Lemma words_lstrip : forall s, words (lstrip s) = words s.
Proof.
  induction s as [|c r IH]; [reflexivity|].
  cbn [lstrip]. destruct (is_space c) eqn:E; [|reflexivity].
  unfold words in *. cbn [words_from]. now rewrite E.
Qed.

Lemma lstrip_split : forall s,
  exists sp, forallb is_space sp = true /\ s = sp ++ lstrip s.
Proof.
  induction s as [|c r [sp [Hsp Hr]]]; [now exists []|].
  cbn [lstrip]. destruct (is_space c) eqn:E.
  - exists (c :: sp). cbn [forallb app]. rewrite E, Hsp. split; [reflexivity|].
    now rewrite <- Hr.
  - now exists [].
Qed.

Lemma words_from_spaces : forall sp cur,
  forallb is_space sp = true -> words_from cur sp = words_from cur [].
Proof.
  induction sp as [|c r IH]; intros cur H; [reflexivity|].
  cbn [forallb] in H. apply andb_true_iff in H as [Hc Hr].
  cbn [words_from]. rewrite Hc. rewrite (IH [] Hr).
  destruct cur; reflexivity.
Qed.

Lemma words_from_app_spaces : forall x sp cur,
  forallb is_space sp = true -> words_from cur (x ++ sp) = words_from cur x.
Proof.
  induction x as [|c r IH]; intros sp cur H; cbn [app].
  - now apply words_from_spaces.
  - cbn [words_from]. destruct (is_space c).
    + rewrite (IH sp [] H). reflexivity.
    + apply IH, H.
Qed.

Lemma forallb_rev : forall (p : N -> bool) l, forallb p l = true -> forallb p (rev l) = true.
Proof.
  intros p l H. apply forallb_forall. intros x Hx. apply in_rev in Hx.
  rewrite forallb_forall in H. now apply H.
Qed.

Lemma words_rstrip : forall s, words (rstrip s) = words s.
Proof.
  intro s. unfold rstrip.
  destruct (lstrip_split (rev s)) as [sp [Hsp Hs]].
  assert (E : s = rev (lstrip (rev s)) ++ rev sp).
  { rewrite <- rev_app_distr, <- Hs. now rewrite rev_involutive. }
  rewrite E at 2. unfold words. symmetry.
  apply words_from_app_spaces. now apply forallb_rev.
Qed.

Lemma words_strip : forall s, words (strip s) = words s.
Proof.
  intro s. unfold strip. now rewrite words_rstrip, words_lstrip.
Qed.

Lemma words_from_collapse : forall s,
  (forall cur, words_from cur (collapse_from false s) = words_from cur s)
  /\ words_from [] (collapse_from true s) = words_from [] s.
Proof.
  induction s as [|c r [IH1 IH2]]; [split; reflexivity|].
  cbn [collapse_from]. destruct (is_space c) eqn:E.
  - split.
    + intro cur. cbn [words_from]. change (is_space 32) with true. cbv iota.
      rewrite E, IH2. reflexivity.
    + cbn [words_from]. rewrite E. exact IH2.
  - split.
    + intro cur. cbn [words_from]. rewrite E. apply IH1.
    + cbn [words_from]. rewrite E. apply IH1.
Qed.

Lemma words_collapse_ws : forall s, words (collapse_ws s) = words s.
Proof.
  intro s. exact (proj1 (words_from_collapse s) []).
Qed.

(** The words of a normalized name are the words of the name, lowered. *)
Lemma words_norm_name : forall s, words (_norm_name s) = map lower (words s).
Proof.
  intro s. unfold _norm_name.
  now rewrite words_collapse_ws, words_lower, words_strip.
Qed.

Lemma is_me_spec : forall cfg name,
  _is_me cfg name = true <->
  _norm_name name <> [] /\
  (In (_norm_name name) (aliases cfg) \/
   exists w v, In w (words name) /\ In v (words (canonical_name cfg))
               /\ lower w = lower v).
Proof.
  intros cfg name. unfold _is_me. cbv zeta.
  destruct (_norm_name name) as [|c n] eqn:En; cbn [is_empty].
  - split; [discriminate | intros [H _]; now elim H].
  - rewrite <- En. unfold ME_ALIASES.
    destruct (mem (_norm_name name) (aliases cfg)) eqn:Ea.
    + split; [|reflexivity]. intros _. split; [rewrite En; discriminate|].
      left. now apply mem_In.
    + rewrite words_norm_name. split.
      * intro H. split; [rewrite En; discriminate|]. right.
        apply existsb_exists in H as [t [Ht Hm]].
        apply in_map_iff in Ht as [w [Hw Hin]]. subst t.
        apply mem_In, In_set_of, in_map_iff in Hm as [v [Hv Hvin]].
        exists w, v. rewrite lower_idempotent in Hv. now repeat split.
      * intros [_ [H|[w [v [Hw [Hv E]]]]]].
        { apply mem_In in H. congruence. }
        apply existsb_exists. exists (lower w). split; [now apply in_map|].
        apply mem_In, In_set_of. rewrite lower_idempotent, E. now apply in_map.
Qed.

Lemma norm_name_of_worded : forall name w,
  In w (words name) -> _norm_name name <> [].
Proof.
  intros name w Hw E.
  assert (H : In (lower w) (words (_norm_name name))).
  { rewrite words_norm_name. now apply in_map. }
  rewrite E in H. exact H.
Qed.

Lemma words_from_pending : forall s cur, cur <> [] -> words_from cur s <> [].
Proof.
  induction s as [|c r IH]; intros cur H; cbn [words_from].
  - destruct cur; [now elim H | discriminate].
  - destruct (is_space c).
    + destruct cur; [now elim H | discriminate].
    + apply IH. discriminate.
Qed.

Lemma wordless_norm_name : forall s, words s = [] -> _norm_name s = [].
Proof.
  intros s H. assert (E : lstrip s = []).
  { unfold words in H. induction s as [|c r IH]; [reflexivity|].
    cbn [lstrip]. cbn [words_from] in H. destruct (is_space c).
    - now apply IH.
    - exfalso. revert H. apply words_from_pending. discriminate. }
  unfold _norm_name, strip. rewrite E. reflexivity.
Qed.

(** X20 (_is_me): a name is taken for the user's exactly when, once
    normalized, it is not empty and either is one of the aliases or shares
    a word, letter case apart, with the canonical name.  So every name that
    holds a word of the canonical name is the user's, the canonical name
    itself as soon as it has a word; a blank name never is. *)
Theorem X20_is_me_by_a_shared_word : forall cfg name,
  (_is_me cfg name = true <->
     _norm_name name <> [] /\
     (In (_norm_name name) (aliases cfg) \/
      exists w v, In w (words name) /\ In v (words (canonical_name cfg))
                  /\ lower w = lower v))
  /\ (forall w v, In w (words name) -> In v (words (canonical_name cfg)) ->
        lower w = lower v -> _is_me cfg name = true)
  /\ (words (canonical_name cfg) <> [] -> _is_me cfg (canonical_name cfg) = true)
  /\ (words name = [] -> _is_me cfg name = false).
Proof.
  intros cfg name. split; [apply is_me_spec|]. split; [|split].
  - intros w v Hw Hv E. apply is_me_spec. split.
    + exact (@norm_name_of_worded name w Hw).
    + right. now exists w, v.
  - intro H. destruct (words (canonical_name cfg)) as [|w r] eqn:E; [now elim H|].
    assert (Hw : In w (words (canonical_name cfg))) by (rewrite E; now left).
    apply is_me_spec. split.
    + exact (@norm_name_of_worded (canonical_name cfg) w Hw).
    + right. now exists w, w.
  - intro H. destruct (_is_me cfg name) eqn:E; [|reflexivity].
    apply is_me_spec in E as [Hn [Ha|[w [v [Hw _]]]]].
    + exfalso. now apply Hn, wordless_norm_name.
    + rewrite H in Hw. destruct Hw.
Qed.
